(** * Knowledge-graph builder and hybrid retrieval: a shallow embedding

    Sources embedded here:
      - [src/core/graph_builder.py]  (class [KnowledgeGraphBuilder])
      - [src/api/v1/retrieval.py]    (endpoint [query_knowledge_graph])
      - the part of networkx's [MultiDiGraph] the builder calls.

    Conventions.
      - A Python [str] is a [string]; a character is a code point below 256.
      - A Python [float] score is an exact rational of [Q]: the arithmetic
        of the scoring formulas is idealised, rounding errors of binary
        floating point are not modelled.
      - A Python [dict] that is only looked up is a [gmap]; one that is
        iterated keeps its insertion order as an association list.
      - Attribute dictionaries of nodes are [gmap string Value]; the
        attributes [content], [tables], [figures], [source_file] and
        [created_at] are opaque payload that no operation below reads and are
        left out. *)

From Stdlib Require Import String Ascii List ZArith QArith Qminmax Lia Lqa DecimalString Sorted.
From stdpp Require Import base gmap sets list strings.

Open Scope string_scope.

(** ** Strings *)

Module Str.

(** [t in s] on Python strings: [t] occurs as a contiguous substring. *)
Fixpoint contains (t s : string) : bool :=
  String.prefix t s ||
  match s with
  | EmptyString => false
  | String _ s' => contains t s'
  end.

(** [c.lower()] for one code point below 256: the letters A-Z and the
    Latin-1 capitals U+00C0-U+00DE (U+00D7 is the multiplication sign)
    move up by 32. *)
Definition lower_char (c : ascii) : ascii :=
  let n := nat_of_ascii c in
  if (((65 <=? n) && (n <=? 90)) || ((192 <=? n) && (n <=? 222) && negb (n =? 215)))%nat
  then ascii_of_nat (n + 32) else c.

Fixpoint lower (s : string) : string :=
  match s with
  | EmptyString => EmptyString
  | String c s' => String (lower_char c) (lower s')
  end.

(** [s.replace(pat, empty)] for a non-empty [pat]: a left-to-right scan
    that drops every non-overlapping occurrence; [skip] counts the
    characters of an occurrence still to drop. *)
Fixpoint remove_all_aux (pat s : string) (skip : nat) : string :=
  match s with
  | EmptyString => EmptyString
  | String c s' =>
      match skip with
      | S k => remove_all_aux pat s' k
      | O => if String.prefix pat s
             then remove_all_aux pat s' (String.length pat - 1)
             else String c (remove_all_aux pat s' 0)
      end
  end.

Definition remove_all (pat s : string) : string := remove_all_aux pat s 0.

(** [len(s.split(sep))] for a one-character separator. *)
Fixpoint split_count (sep : ascii) (s : string) : nat :=
  match s with
  | EmptyString => 1
  | String c s' => if Ascii.eqb c sep then S (split_count sep s') else split_count sep s'
  end.

(** [str(n)] for a non-negative integer. *)
Definition of_nat (n : nat) : string := NilZero.string_of_uint (Nat.to_uint n).

End Str.

(** ** The graph store: the part of [networkx.MultiDiGraph] the builder uses *)

Module Nx.

Record References := mkReferences {
  internal_resolved : list string;
  standards : list string }.

(** Attribute values. *)
Inductive Value :=
| VNone
| VStr (s : string)
| VInt (n : nat)
| VList (l : list string)
| VRefs (r : References).

Abbreviation Attrs := (gmap string Value).

Inductive EdgeType :=
| CONTAINS_CLAUSE | CONTAINS_REQUIREMENT | PARENT_OF
| SIBLING_OF | REFERENCES | CITES_STANDARD.

Inductive LinkingMethod := structural | reference.

(** One edge [src -> dst] with its multigraph key and its attributes
    ([confidence] is the constant 1.0 at every insertion). *)
Record Edge := mkEdge {
  src : string;
  dst : string;
  key : nat;
  edge_type : EdgeType;
  linking_method : LinkingMethod }.

(** Nodes in insertion order (the order [graph.nodes(data=True)] yields),
    edges in insertion order. *)
Record Graph := mkGraph {
  nodes : list (string * Attrs);
  edges : list Edge }.

Definition empty : Graph := mkGraph [] [].

#[global] Instance References_eq_dec : EqDecision References.
Proof. solve_decision. Defined.
#[global] Instance Value_eq_dec : EqDecision Value.
Proof. solve_decision. Defined.
#[global] Instance EdgeType_eq_dec : EqDecision EdgeType.
Proof. solve_decision. Defined.
#[global] Instance LinkingMethod_eq_dec : EqDecision LinkingMethod.
Proof. solve_decision. Defined.
#[global] Instance Edge_eq_dec : EqDecision Edge.
Proof. solve_decision. Defined.

Definition node_ids (g : Graph) : list string := (nodes g).*1.

Definition has_node (n : string) (g : Graph) : bool :=
  bool_decide (n ∈ node_ids g).

(** [graph.nodes[n]] *)
Fixpoint assoc {A} (n : string) (l : list (string * A)) : option A :=
  match l with
  | [] => None
  | (k, a) :: l' => if decide (k = n) then Some a else assoc n l'
  end.

Definition node_data (n : string) (g : Graph) : option Attrs := assoc n (nodes g).

(** [add_node(n, **attrs)]: a new node goes last; an existing node keeps
    its place and has its attribute dictionary updated ([dict.update]). *)
Definition add_node (n : string) (attrs : Attrs) (g : Graph) : Graph :=
  if has_node n g
  then mkGraph (map (fun '(k, a) => if decide (k = n) then (k, attrs ∪ a) else (k, a))
                    (nodes g))
               (edges g)
  else mkGraph (nodes g ++ [(n, attrs)]) (edges g).

Definition between (u v : string) (e : Edge) : bool :=
  bool_decide (src e = u) && bool_decide (dst e = v).

(** The keys of the edges from [u] to [v]. *)
Definition keys (u v : string) (g : Graph) : list nat :=
  map key (filter (fun e => between u v e = true) (edges g)).

(** [has_edge(u, v)]: some edge, of any type, goes from [u] to [v]. *)
Definition has_edge (u v : string) (g : Graph) : bool :=
  bool_decide (keys u v g ≠ []).

(** [has_edge(u, v, key=k)] *)
Definition has_edge_key (u v : string) (k : nat) (g : Graph) : bool :=
  bool_decide (k ∈ keys u v g).

(** [new_edge_key]: start at the number of edges from [u] to [v] and count
    up while the key is taken; among [n] keys one of [n .. 2n] is free. *)
Fixpoint first_free (ks : list nat) (k fuel : nat) : nat :=
  match fuel with
  | O => k
  | S fuel' => if bool_decide (k ∈ ks) then first_free ks (S k) fuel' else k
  end.

Definition new_edge_key (u v : string) (g : Graph) : nat :=
  let ks := keys u v g in first_free ks (length ks) (length ks).

(** [add_edge(u, v, **attrs)] without a key: missing end points are
    created with no attributes, the edge gets a fresh key. *)
Definition ensure_node (n : string) (g : Graph) : Graph :=
  if has_node n g then g else mkGraph (nodes g ++ [(n, ∅)]) (edges g).

Definition add_edge (u v : string) (ty : EdgeType) (lm : LinkingMethod) (g : Graph) : Graph :=
  let g1 := ensure_node v (ensure_node u g) in
  mkGraph (nodes g1) (edges g1 ++ [mkEdge u v (new_edge_key u v g) ty lm]).

Definition number_of_nodes (g : Graph) : nat := length (nodes g).
Definition number_of_edges (g : Graph) : nat := length (edges g).

(** [data.get(k)] read as a string, and its truthiness. *)
Definition get_str (k : string) (a : Attrs) : option string :=
  match a !! k with
  | Some (VStr s) => Some s
  | _ => None
  end.

Definition truthy (o : option string) : bool :=
  match o with
  | Some s => negb (bool_decide (s = EmptyString))
  | None => false
  end.

Definition get_list (k : string) (a : Attrs) : list string :=
  match a !! k with
  | Some (VList l) => l
  | _ => []
  end.

Definition get_refs (k : string) (a : Attrs) : References :=
  match a !! k with
  | Some (VRefs r) => r
  | _ => mkReferences [] []
  end.

Definition is_type (t : string) (a : Attrs) : bool :=
  bool_decide (a !! "node_type" = Some (VStr t)).

(** Some edge of type [ty] goes from [u] to [v]. *)
Definition has_typed_edge (u v : string) (ty : EdgeType) (g : Graph) : bool :=
  existsb (fun e => between u v e && bool_decide (edge_type e = ty)) (edges g).

(** Number of edges of type [ty] from [u] to [v]. *)
Definition count_typed (u v : string) (ty : EdgeType) (g : Graph) : nat :=
  length (filter (fun e => between u v e && bool_decide (edge_type e = ty) = true) (edges g)).

(** Between two connected nodes there is an edge with key 0, as in any
    multigraph from which no edge was ever removed. *)
Definition key0_ok (g : Graph) : Prop :=
  forall u v, has_edge u v g = true -> has_edge_key u v 0 g = true.

(** The edges from [u] to [v] other than [CONTAINS_REQUIREMENT] edges. *)
Definition other_links (u v : string) (g : Graph) : list Edge :=
  filter (fun e => between u v e = true /\ edge_type e <> CONTAINS_REQUIREMENT) (edges g).

(** The edges a build leaves: a key 0 between connected nodes, and between
    two nodes at most one edge that is not a [CONTAINS_REQUIREMENT] edge. *)
Definition link_inv (g : Graph) : Prop :=
  key0_ok g /\ forall u v, length (other_links u v g) <= 1.

(** [g'] has the edges of [g], in the same order, and then some more. *)
Definition more_edges (g g' : Graph) : Prop :=
  exists es, edges g' = (edges g ++ es)%list.

(** [g'] has the nodes of [g], unchanged and in the same order, and then
    some more, none of which is a Clause. *)
Definition more_nodes (g g' : Graph) : Prop :=
  exists ns, nodes g' = (nodes g ++ ns)%list /\
             Forall (fun nd : string * Attrs => is_type "Clause" nd.2 = false) ns.

(** [g'] extends [g]. *)
Definition grows (g g' : Graph) : Prop := more_edges g g' /\ more_nodes g g'.

End Nx.

(** ** Python built-ins used on lists *)

Module Py.

(** [sorted(l, key=...)] / [list.sort]: a stable sort.  [lt x y] says that
    [x] must come strictly before [y]; an element moves left only past
    elements it must precede, so equal elements keep their order (for
    [reverse=True], which is stable too, [lt] is "has the greater key"). *)
Fixpoint insert_sorted {A} (lt : A -> A -> bool) (x : A) (l : list A) : list A :=
  match l with
  | [] => [x]
  | y :: l' => if lt y x then y :: insert_sorted lt x l' else x :: l
  end.

Definition sorted {A} (lt : A -> A -> bool) (l : list A) : list A :=
  foldr (insert_sorted lt) [] l.

(** [enumerate(l)] *)
Definition enumerate {A} (l : list A) : list (nat * A) :=
  combine (seq 0 (length l)) l.

(** [l[:n]] for any integer [n]: a negative bound counts from the end. *)
Definition slice_to {A} (n : Z) (l : list A) : list A :=
  if (0 <=? n)%Z then take (Z.to_nat n) l
  else take (Z.to_nat (Z.of_nat (length l) + n)) l.

(** [x] stands at an earlier position of [l] than [y]. *)
Definition before {A} (l : list A) (x y : A) : Prop :=
  exists i j, i < j /\ l !! i = Some x /\ l !! j = Some y.

End Py.

(** ** [KnowledgeGraphBuilder] *)

Module Builder.
Import Nx.

(** One requirement entry of a document; an absent key reads as the
    default of its [req.get]: ['unknown'], [''] and ['']. *)
Record ReqEntry := mkReq {
  req_type : string;
  req_keyword : string;
  req_text : string }.

(** One loaded JSON document, with the defaults of its [doc.get] calls:
    the empty string for the strings, [None] for [parent_id], empty lists
    otherwise.  The values are taken to have the types the builder expects
    (a document with, say, a number for [requirements] makes the build
    raise). *)
Record Doc := mkDoc {
  chunk_id : string;
  document_id : string;
  clause_id : string;
  title : string;
  parent_id : option string;
  children_ids : list string;
  references : References;
  requirements : list ReqEntry }.

(** A file of the data directory: its provenance key (the path relative to
    the directory, with [/] as separator) and what loading it gives;
    [None] when [open]/[json.load] or the tagging of the loaded value
    raises. *)
Record File := mkFile {
  rel_path : string;
  load : option Doc }.

(** The builder object: its graph and the set of processed files.  (The
    counters [node_count] and [edge_count] are only ever incremented and
    never read; they are left out.) *)
Record State := mkState {
  graph : Graph;
  processed_files : gset string }.

(** [KnowledgeGraphBuilder()] *)
Definition init : State := mkState Nx.empty ∅.

Definition standard_attrs (doc : Doc) : Attrs :=
  {[ "node_type" := VStr "Standard";
     "document_id" := VStr (document_id doc);
     "title" := VStr (document_id doc) ]}.

Definition depth_of (clause_id : string) : nat :=
  if negb (bool_decide (clause_id = EmptyString)) && negb (bool_decide (clause_id = "misc"))
  then Str.split_count "." (Str.remove_all "Annex " clause_id)
  else 0.

Definition clause_attrs (doc : Doc) : Attrs :=
  {[ "node_type" := VStr "Clause";
     "chunk_id" := VStr (chunk_id doc);
     "document_id" := VStr (document_id doc);
     "clause_id" := VStr (clause_id doc);
     "title" := VStr (title doc);
     "parent_id" := match parent_id doc with Some p => VStr p | None => VNone end;
     "children_ids" := VList (children_ids doc);
     "references" := VRefs (references doc);
     "depth" := VInt (depth_of (clause_id doc)) ]}.

Definition requirement_attrs (chunk_id req_id : string) (req : ReqEntry) : Attrs :=
  {[ "node_type" := VStr "Requirement";
     "requirement_id" := VStr req_id;
     "parent_clause" := VStr chunk_id;
     "requirement_type" := VStr (req_type req);
     "keyword" := VStr (req_keyword req);
     "text" := VStr (req_text req) ]}.

(** Body of the loop over [enumerate(requirements)]: the node, then the
    [CONTAINS_REQUIREMENT] edge, added without any [has_edge] test. *)
Definition add_requirement (chunk_id : string) (g : Graph) (ir : nat * ReqEntry) : Graph :=
  let req_id := chunk_id ++ "::req_" ++ Str.of_nat ir.1 in
  let g := add_node req_id (requirement_attrs chunk_id req_id ir.2) g in
  add_edge chunk_id req_id CONTAINS_REQUIREMENT structural g.

(** Body of the loop over the documents; [stds] is the local dictionary
    [standards] of the call, of which only the key set is read. *)
Definition create_doc_nodes (st : gset string * Graph) (doc : Doc) : gset string * Graph :=
  let '(stds, g) := st in
  if bool_decide (chunk_id doc = EmptyString) || bool_decide (document_id doc = EmptyString) then st
  else
    let '(stds, g) :=
      if bool_decide (document_id doc ∈ stds) then (stds, g)
      else ({[document_id doc]} ∪ stds, add_node (document_id doc) (standard_attrs doc) g) in
    let g := add_node (chunk_id doc) (clause_attrs doc) g in
    let g := if has_edge (document_id doc) (chunk_id doc) g then g
             else add_edge (document_id doc) (chunk_id doc) CONTAINS_CLAUSE structural g in
    (stds, fold_left (add_requirement (chunk_id doc)) (Py.enumerate (requirements doc)) g).

Definition _create_nodes (documents : list Doc) (g : Graph) : Graph :=
  (fold_left create_doc_nodes documents (∅, g)).2.

(** The dictionary [clause_lookup]: from [clause_id] to node id, over all
    Clause nodes with a non-empty [clause_id]; a later node overwrites. *)
Definition clause_lookup (g : Graph) : gmap string string :=
  fold_left (fun (m : gmap string string) (nd : string * Attrs) =>
               if is_type "Clause" nd.2 && truthy (get_str "clause_id" nd.2)
               then <[default EmptyString (get_str "clause_id" nd.2) := nd.1]> m else m)
            (nodes g) ∅.

(** [parent_id and parent_id in clause_lookup], giving [clause_lookup[parent_id]] *)
Definition resolve_parent (lookup : gmap string string) (data : Attrs) : option string :=
  match get_str "parent_id" data with
  | Some p => if truthy (Some p) then lookup !! p else None
  | None => None
  end.

(** Body of [for sibling_id in children]. *)
Definition link_sibling (lookup : gmap string string) (node_id clause_id : string)
    (g : Graph) (sibling_id : string) : Graph :=
  if bool_decide (sibling_id ≠ clause_id) then
    match lookup !! sibling_id with
    | Some sibling_node_id =>
        if has_edge_key node_id sibling_node_id 0 g then g
        else add_edge node_id sibling_node_id SIBLING_OF structural g
    | None => g
    end
  else g.

(** Body of the loop of [_create_structural_links] over the nodes. *)
Definition structural_step (lookup : gmap string string) (g : Graph) (nd : string * Attrs) : Graph :=
  let '(node_id, data) := nd in
  if is_type "Clause" data then
    match resolve_parent lookup data with
    | Some parent_node_id =>
        let g := if has_edge parent_node_id node_id g then g
                 else add_edge parent_node_id node_id PARENT_OF structural g in
        let children := get_list "children_ids" (default ∅ (node_data parent_node_id g)) in
        match get_str "clause_id" data with
        | Some clause_id =>
            if bool_decide (clause_id ∈ children)
            then fold_left (link_sibling lookup node_id clause_id) children g
            else g
        | None => g
        end
    | None => g
    end
  else g.

(** The loop runs over the node view of the graph; no node is added while
    it runs (every edge joins existing nodes), so the view is the node list
    at entry. *)
Definition _create_structural_links (g : Graph) : Graph :=
  fold_left (structural_step (clause_lookup g)) (nodes g) g.

(** Body of [for ref_clause_id in internal_refs]. *)
Definition link_reference (lookup : gmap string string) (node_id : string)
    (g : Graph) (ref_clause_id : string) : Graph :=
  match lookup !! ref_clause_id with
  | Some ref_node_id =>
      if has_edge node_id ref_node_id g then g
      else add_edge node_id ref_node_id REFERENCES reference g
  | None => g
  end.

Definition external_attrs (std_ref : string) : Attrs :=
  {[ "node_type" := VStr "ExternalStandard"; "standard_name" := VStr std_ref ]}.

(** Body of [for std_ref in std_refs]. *)
Definition link_standard (node_id : string) (g : Graph) (std_ref : string) : Graph :=
  let std_node_id := "EXT::" ++ std_ref in
  let g := if has_node std_node_id g then g
           else add_node std_node_id (external_attrs std_ref) g in
  if has_edge node_id std_node_id g then g
  else add_edge node_id std_node_id CITES_STANDARD reference g.

(** Body of the loop of [_create_reference_links] over [nodes_list]. *)
Definition reference_step (lookup : gmap string string) (g : Graph) (nd : string * Attrs) : Graph :=
  let '(node_id, data) := nd in
  if is_type "Clause" data then
    let refs := get_refs "references" data in
    let g := fold_left (link_reference lookup node_id) (internal_resolved refs) g in
    fold_left (link_standard node_id) (standards refs) g
  else g.

Definition _create_reference_links (g : Graph) : Graph :=
  fold_left (reference_step (clause_lookup g)) (nodes g) g.

Record Stats := mkStats {
  st_nodes : nat;
  st_edges : nat;
  st_standards : nat;
  st_clauses : nat;
  st_requirements : nat;
  st_external_standards : nat }.

Definition count_type (t : string) (g : Graph) : nat :=
  length (filter (fun nd : string * Attrs => is_type t nd.2 = true) (nodes g)).

Definition _compute_statistics (g : Graph) : Stats :=
  mkStats (number_of_nodes g) (number_of_edges g)
          (count_type "Standard" g) (count_type "Clause" g)
          (count_type "Requirement" g) (count_type "ExternalStandard" g).

(** The dictionary [graph_repr] that is serialised and hashed.  The
    checksum is [sha256(json.dumps(graph_repr, sort_keys=True))], a function
    of this record alone; the record stands for its digest. *)
Record GraphRepr := mkRepr {
  repr_nodes : nat;
  repr_edges : nat;
  repr_node_ids : list string }.

Definition _compute_checksum (g : Graph) : GraphRepr :=
  mkRepr (number_of_nodes g) (number_of_edges g)
         (take 10 (Py.sorted String.ltb (node_ids g))).

(** The dictionary a build returns.  The early return carries the
    statistics and no checksum; the full return carries the checksum and
    not the count of external standards. *)
Record BuildResult := mkResult {
  res_nodes : nat;
  res_edges : nat;
  res_standards : nat;
  res_clauses : nat;
  res_requirements : nat;
  res_external_standards : option nat;
  graph_checksum : option GraphRepr;
  new_files_processed : nat }.

(** The files whose provenance key is not yet in [processed_files]. *)
Definition new_files (json_files : list File) (b : State) : list File :=
  filter (fun f => rel_path f ∉ processed_files b) json_files.

(** The loading loop: a file that loads yields a document and has its key
    marked; a file that raises is logged and skipped. *)
Definition load_file (acc : list Doc * gset string) (f : File) : list Doc * gset string :=
  match load f with
  | Some data => ((acc.1 ++ [data])%list, {[rel_path f]} ∪ acc.2)
  | None => acc
  end.

Definition link_passes (enable_structural enable_reference : bool) (g : Graph) : Graph :=
  let g := if enable_structural then _create_structural_links g else g in
  if enable_reference then _create_reference_links g else g.

(** [build_from_directory]; [data_dir] is the sorted listing of the
    [*.json] files below the directory, [None] when the directory does not
    exist ([FileNotFoundError]). *)
Definition build_from_directory (data_dir : option (list File))
    (enable_structural enable_reference : bool) (b : State) : option (State * BuildResult) :=
  match data_dir with
  | None => None
  | Some json_files =>
      let new := new_files json_files b in
      match new with
      | [] =>
          let stats := _compute_statistics (graph b) in
          Some (b, mkResult (st_nodes stats) (st_edges stats) (st_standards stats)
                            (st_clauses stats) (st_requirements stats)
                            (Some (st_external_standards stats)) None 0)
      | _ =>
          let '(documents, processed) := fold_left load_file new ([], processed_files b) in
          let g := link_passes enable_structural enable_reference
                     (_create_nodes documents (graph b)) in
          let stats := _compute_statistics g in
          Some (mkState g processed,
                mkResult (st_nodes stats) (st_edges stats) (st_standards stats)
                         (st_clauses stats) (st_requirements stats)
                         None (Some (_compute_checksum g)) (length new))
      end
  end.

(** The values of a lookup are nodes of the graph. *)
Definition lookup_ok (lookup : gmap string string) (g : Graph) : Prop :=
  forall k n, lookup !! k = Some n -> has_node n g = true.

(** What a link pass relies on. *)
Definition pass_ready (lookup : gmap string string) (g : Graph) : Prop :=
  key0_ok g /\ lookup_ok lookup g.

(** Every [has_edge] test of the structural pass at the node [nd] finds
    its edge in [g]. *)
Definition structural_sat (lookup : gmap string string) (g : Graph)
    (nd : string * Attrs) : Prop :=
  is_type "Clause" nd.2 = true ->
  forall p, resolve_parent lookup nd.2 = Some p ->
    has_edge p nd.1 g = true /\
    forall c, get_str "clause_id" nd.2 = Some c ->
      let children := get_list "children_ids" (default ∅ (node_data p g)) in
      c ∈ children ->
      forall s sn, s ∈ children -> s <> c -> lookup !! s = Some sn ->
        has_edge_key nd.1 sn 0 g = true.

(** Every [has_node] and [has_edge] test of the reference pass at the node
    [nd] finds its node or edge in [g]. *)
Definition reference_sat (lookup : gmap string string) (g : Graph)
    (nd : string * Attrs) : Prop :=
  is_type "Clause" nd.2 = true ->
  let refs := get_refs "references" nd.2 in
  (forall r m, r ∈ internal_resolved refs -> lookup !! r = Some m ->
     has_edge nd.1 m g = true) /\
  (forall s, s ∈ standards refs ->
     has_node ("EXT::" ++ s) g = true /\ has_edge nd.1 ("EXT::" ++ s) g = true).

(** The documents [_create_nodes] does not skip. *)
Definition has_ids (doc : Doc) : bool :=
  negb (bool_decide (chunk_id doc = EmptyString)) && negb (bool_decide (document_id doc = EmptyString)).

(** The states a builder goes through: a fresh builder, then any builds. *)
Inductive built : State -> Prop :=
| built_init : built init
| built_step data_dir enable_structural enable_reference b b' r :
    built b ->
    build_from_directory data_dir enable_structural enable_reference b = Some (b', r) ->
    built b'.

End Builder.

(** ** [query_knowledge_graph]: hybrid merge, scoring and ranking *)

Module Retrieval.
Import Nx.

Open Scope Q_scope.

(** Comparisons of scores, and the two-argument [min] of Python, which
    returns its second argument only when it is strictly smaller. *)
Definition Qlt_bool (x y : Q) : bool := negb (Qle_bool y x).

Definition py_min (a b : Q) : Q := if Qlt_bool b a then b else a.

(** [round(x, 0)]: to the nearest integer, a half going to the even one. *)
Definition round_half_even (q : Q) : Z :=
  let n := Qnum q in
  let d := Zpos (Qden q) in
  let f := (n / d)%Z in
  match (2 * (n mod d) ?= d)%Z with
  | Lt => f
  | Gt => (f + 1)%Z
  | Eq => if Z.even f then f else (f + 1)%Z
  end.

(** [round(x, 3)] *)
Definition round3 (q : Q) : Q := inject_Z (round_half_even (q * 1000)) / 1000.

(** [list(set([t.lower() for t in search_terms if len(t) > 2]))].  The
    order in which a Python set is listed is not specified; the listing
    chosen here keeps each term at its last occurrence. *)
Definition clean_terms (search_terms : list string) : list string :=
  remove_dups (map Str.lower
                   (filter (fun t => (2 < String.length t)%nat) search_terms)).

(** An entry of [combined_results]. (Its constant fields [node_type] and
    [retrieval_method], and [requirement_id], a copy of [node_id], are left
    out.) *)
Record Candidate := mkCandidate {
  node_id : string;
  requirement_type : string;
  text : string;
  keyword : string;
  parent_clause : string;
  semantic_score : Q;
  keyword_score : Q;
  matched_terms : list string }.

(** An entry once the final loop has stored its [relevance_score]. *)
Record Scored := mkScored {
  candidate : Candidate;
  relevance_score : Q }.

(** [d[k] = v] on a dictionary in insertion order. *)
Fixpoint dict_set {A} (k : string) (v : A) (l : list (string * A)) : list (string * A) :=
  match l with
  | [] => [(k, v)]
  | (k', v') :: l' =>
      if decide (k' = k) then (k, v) :: l' else (k', v') :: dict_set k v l'
  end.

(** [semantic_results], filled from the hits [(node_id, relevance_score)]
    of the semantic search. *)
Definition semantic_results (sem_hits : list (string * Q)) : list (string * Q) :=
  fold_left (fun m hit => dict_set hit.1 hit.2 m) sem_hits [].

Definition new_result (node_id : string) (node_data : Attrs) : Candidate :=
  mkCandidate node_id
    (default "mandatory" (get_str "requirement_type" node_data))
    (default EmptyString (get_str "text" node_data))
    (default "shall" (get_str "keyword" node_data))
    (default EmptyString (get_str "parent_clause" node_data))
    0 0 [].

(** [get_or_create_result]: the dictionary after the call; the entry
    returned is the one at [node_id]. *)
Definition get_or_create_result (node_id : string) (node_data : Attrs)
    (combined : list (string * Candidate)) : list (string * Candidate) :=
  match assoc node_id combined with
  | Some _ => combined
  | None => (combined ++ [(node_id, new_result node_id node_data)])%list
  end.

(** Assignment to fields of the entry at [node_id]. *)
Definition update (node_id : string) (f : Candidate -> Candidate)
    (combined : list (string * Candidate)) : list (string * Candidate) :=
  map (fun kr : string * Candidate =>
         if decide (kr.1 = node_id) then (kr.1, f kr.2) else kr) combined.

Definition set_semantic (s : Q) (c : Candidate) : Candidate :=
  mkCandidate (node_id c) (requirement_type c) (text c) (keyword c) (parent_clause c)
              s (keyword_score c) (matched_terms c).

Definition set_keyword (k : Q) (terms : list string) (c : Candidate) : Candidate :=
  mkCandidate (node_id c) (requirement_type c) (text c) (keyword c) (parent_clause c)
              (semantic_score c) k terms.

(** Body of the loop over [semantic_results.items()]. *)
Definition process_semantic (g : Graph) (combined : list (string * Candidate))
    (item : string * Q) : list (string * Candidate) :=
  if has_node item.1 g then
    update item.1 (set_semantic item.2)
           (get_or_create_result item.1 (default ∅ (node_data item.1 g)) combined)
  else combined.

(** The terms of [search_terms] found in the requirement text, in order. *)
Definition curr_matched_terms (search_terms : list string) (req_text : string) : list string :=
  filter (fun term => Str.contains term req_text = true) search_terms.

(** [min(1.0, matches / 6.0)] and the boost of mandatory requirements. *)
Definition k_score (matches : nat) (mandatory : bool) : Q :=
  let k := py_min 1 (inject_Z (Z.of_nat matches) / 6) in
  if mandatory then py_min 1 (k * 1.2) else k.

(** What the keyword scan computes for one node: nothing for a node that
    is not a Requirement, has an empty text or matches no term (the scan
    moves on), else the keyword score and the matched terms. *)
Definition lexical_match (search_terms : list string) (node_data : Attrs)
    : option (Q * list string) :=
  if negb (is_type "Requirement" node_data) then None
  else
    let req_text := Str.lower (default EmptyString (get_str "text" node_data)) in
    if bool_decide (req_text = EmptyString) then None
    else
      let curr := curr_matched_terms search_terms req_text in
      let matches := length curr in
      if (0 <? matches)%nat then
        Some (k_score matches
                (bool_decide (node_data !! "requirement_type" = Some (VStr "mandatory"))),
              curr)
      else None.

(** Body of the keyword scan over all nodes of the graph. *)
Definition process_keyword (search_terms : list string)
    (combined : list (string * Candidate)) (nd : string * Attrs) : list (string * Candidate) :=
  match lexical_match search_terms nd.2 with
  | Some (k, curr) =>
      update nd.1 (set_keyword k curr) (get_or_create_result nd.1 nd.2 combined)
  | None => combined
  end.

(** [combined_results] after both loops. *)
Definition combined_results (g : Graph) (sem_hits : list (string * Q))
    (search_terms : list string) : list (string * Candidate) :=
  fold_left (process_keyword search_terms) (nodes g)
            (fold_left (process_semantic g) (semantic_results sem_hits) []).

(** The fusion of a semantic and a keyword score, capped at 1. *)
Definition fuse (s_score k_score : Q) : Q :=
  py_min 1
    (if Qlt_bool 0 s_score && Qlt_bool 0 k_score
     then 0.6 * s_score + 0.4 * k_score + 0.1
     else if Qlt_bool 0 s_score then s_score * 0.9
     else if Qlt_bool 0 k_score then k_score * 0.8
     else 0).

(** The fused score [final_score] of an entry, before rounding. *)
Definition final_score (res : Candidate) : Q :=
  fuse (semantic_score res) (keyword_score res).

(** The final loop: every entry of [combined_results.values()], in
    insertion order, gets its rounded [relevance_score]; those whose
    unrounded [final_score] reaches [min_confidence] are kept. *)
Definition score_all (combined : list (string * Candidate)) : list Scored :=
  map (fun kr : string * Candidate => mkScored kr.2 (round3 (final_score kr.2))) combined.

Definition final_list (min_confidence : Q) (combined : list (string * Candidate)) : list Scored :=
  filter (fun r => Qle_bool min_confidence (final_score (candidate r)) = true)
         (score_all combined).

(** [final_list.sort(key=lambda x: x['relevance_score'], reverse=True)] *)
Definition sort_by_relevance (l : list Scored) : list Scored :=
  Py.sorted (fun x y => Qlt_bool (relevance_score y) (relevance_score x)) l.

(** [[candidates_to_rerank[i] for i in ranked_indices]]; an index out of
    range raises [IndexError]. *)
Definition reorder (candidates : list Scored) (ranked_indices : list nat) : option (list Scored) :=
  mapM (fun i => candidates !! i) ranked_indices.

(** The ranking part of the endpoint, from the hybrid merge on.
    Inputs: the graph; [sem_hits], the hits of the semantic search (empty
    when no search engine is set up or the search raised); [search_terms],
    the list assembled from the component profile before it is cleaned;
    [reranker], present when reranking is enabled and a reranker is loaded,
    mapping the candidate texts to [search_engine.rerank(query_text, texts,
    top_k=len(texts))].  [None] is the failure of the request (HTTP 500). *)
Definition query (g : Graph) (sem_hits : list (string * Q)) (search_terms : list string)
    (reranker : option (list string -> list nat))
    (min_confidence : Q) (max_results : Z) : option (list Scored) :=
  let search_terms := clean_terms search_terms in
  let combined := combined_results g sem_hits search_terms in
  let final := sort_by_relevance (final_list min_confidence combined) in
  let final :=
    match reranker, final with
    | Some rerank, _ :: _ => reorder final (rerank (map (fun c => text (candidate c)) final))
    | _, _ => Some final
    end in
  Py.slice_to max_results <$> final.

End Retrieval.


(** ** Sample inputs, used to run the definitions *)

Module Sample.
Import Nx Builder Retrieval.

Definition no_refs : References := mkReferences [] [].

(** A standard with one clause and two requirements. *)
Definition clause_4_2 : Doc :=
  mkDoc "std_4.2" "STD" "4.2" "Mechanical tests" None [] no_refs
        [mkReq "mandatory" "shall" "shall withstand vibration";
         mkReq "recommended" "should" "should resist humidity"].

Definition dir_4_2 : list File := [mkFile "std/4.2.json" (Some clause_4_2)].

(** Two clauses, ingested in the order of their file names, whose only
    requirements have the same type and the same text. *)
Definition clause_b : Doc :=
  mkDoc "b" "STD" "1" "First" None [] no_refs
        [mkReq "recommended" "should" "vibration level"].
Definition clause_a : Doc :=
  mkDoc "a" "STD" "2" "Second" None [] no_refs
        [mkReq "recommended" "should" "vibration level"].

Definition dir_ties : list File :=
  [mkFile "1.json" (Some clause_b); mkFile "2.json" (Some clause_a)].

(** A clause A that is the parent of a clause B and also refers to it. *)
Definition clause_A : Doc :=
  mkDoc "A" "STD" "5" "General" None ["5.1"] (mkReferences ["5.1"] []) [].
Definition clause_B : Doc :=
  mkDoc "B" "STD" "5.1" "Detail" (Some "5") [] no_refs [].

Definition dir_parent_ref : list File :=
  [mkFile "5.json" (Some clause_A); mkFile "5_1.json" (Some clause_B)].

(** The same clause with one requirement, delivered in two files. *)
Definition clause_c1 : Doc :=
  mkDoc "c1" "STD" "7" "Marking" None [] no_refs
        [mkReq "mandatory" "shall" "shall be marked"].

Definition dir_c1 : list File := [mkFile "7.json" (Some clause_c1)].
Definition dir_c1_twice : list File :=
  [mkFile "7.json" (Some clause_c1); mkFile "7_copy.json" (Some clause_c1)].

(** The graph of [dir_parent_ref] as the reference pass finds it: after
    node creation and the structural pass. *)
Definition graph_before_references : Graph :=
  _create_structural_links (_create_nodes [clause_A; clause_B] Nx.empty).

(** The same graph had the structural pass been disabled. *)
Definition graph_without_structure : Graph :=
  _create_nodes [clause_A; clause_B] Nx.empty.

(** A directory with a file that does not load and a document without
    [chunk_id]. *)
Definition anonymous : Doc :=
  mkDoc EmptyString "STD" "9" "Untitled" None [] no_refs
        [mkReq "mandatory" "shall" "shall be ignored"].

Definition dir_faulty : list File :=
  [mkFile "4.2.json" (Some clause_4_2);
   mkFile "broken.json" None;
   mkFile "nameless.json" (Some anonymous)].

(** A fresh builder after one build with both link passes, and its graph. *)
Definition built_state (json_files : list File) : State :=
  match build_from_directory (Some json_files) true true init with
  | Some (b, _) => b
  | None => init
  end.

Definition built_graph (json_files : list File) : Graph := graph (built_state json_files).

(** The same builder after a second build, over [json_files']. *)
Definition rebuilt_state (json_files json_files' : list File) : State :=
  match build_from_directory (Some json_files') true true (built_state json_files) with
  | Some (b, _) => b
  | None => init
  end.

(** The search terms of a profile with [test_categories = ["mechanical"]]
    and empty type and application: the category and its expansion. *)
Definition mechanical_terms : list string :=
  ["mechanical"; "vibration"; "shock"; "mechanical"; "force"; "stress"; "impact"; "drop"].

End Sample.

(** ** Further parts of the sources

    [KnowledgeGraphBuilder.__init__], [save_graph] and [load_graph] with the
    graph-level entry [processed_files]; [run_startup_automation];
    [SemanticSearchEngine.rerank]; and
    the vocabulary their properties are stated in. *)

From Stdlib Require OrderedTypeEx.

Module Persist.
Import Nx Builder.

(** What [pickle] stores of the [MultiDiGraph]: nodes and edges, and of
    the graph-level dictionary [graph.graph] the entry [processed_files]
    (absent until a build writes it; the entry [last_updated], a time
    stamp, is left out). *)
Record Pickled := mkPickled {
  pickled_graph : Graph;
  pickled_processed_files : option (list string) }.

(** The builder object together with [self.graph.graph]. *)
Record Handle := mkHandle {
  state : State;
  graph_processed_files : option (list string) }.

(** [KnowledgeGraphBuilder(existing_graph)]: the processed files are read
    from the graph-level dictionary, [[]] when the entry is absent. *)
Definition __init__ (existing_graph : option Pickled) : Handle :=
  match existing_graph with
  | None => mkHandle init None
  | Some p =>
      mkHandle (mkState (pickled_graph p)
                        (list_to_set (default [] (pickled_processed_files p))))
               (pickled_processed_files p)
  end.

(** [build_from_directory] on the handle: the full path of a build ends
    with [self.graph.graph['processed_files'] = list(self.processed_files)];
    the early return writes nothing. *)
Definition build (data_dir : option (list File)) (enable_structural enable_reference : bool)
    (h : Handle) : option (Handle * BuildResult) :=
  match build_from_directory data_dir enable_structural enable_reference (state h) with
  | None => None
  | Some (b', r) =>
      Some (mkHandle b'
              (match new_files (default [] data_dir) (state h) with
               | [] => graph_processed_files h
               | _ => Some (elements (processed_files b'))
               end), r)
  end.

(** [save_graph]: the pickle of [self.graph]. *)
Definition save_graph (h : Handle) : Pickled :=
  mkPickled (graph (state h)) (graph_processed_files h).

(** [load_graph]: [self.graph] is replaced by the unpickled graph;
    [self.processed_files] is not touched. *)
Definition load_graph (p : Pickled) (h : Handle) : Handle :=
  mkHandle (mkState (pickled_graph p) (processed_files (state h)))
           (pickled_processed_files p).

(** The handles a program goes through: a constructor call, then builds. *)
Inductive reached : Handle -> Prop :=
| reached_init existing_graph : reached (__init__ existing_graph)
| reached_build data_dir enable_structural enable_reference h h' r :
    reached h ->
    build data_dir enable_structural enable_reference h = Some (h', r) ->
    reached h'.

(** What [run_startup_automation] does to the semantic index. *)
Inductive IndexAction :=
| index_graph
| incremental_index (new_file_count : nat)
| no_index_update.

(** [run_startup_automation] of [utils/startup.py], with semantic search
    enabled.  [input_json_dir] is the listing of the input directory, [None]
    when it does not exist; [latest] is the graph unpickled from the newest
    [*.pkl] file, [None] when there is none or it does not load.  The result
    is the builder returned, the action on the index, and the graph pickled
    to [startup.pkl]; [None] when the function returns [None, None]. *)
Definition run_startup_automation (input_json_dir : option (list File))
    (latest : option Pickled) : option (Handle * IndexAction * Pickled) :=
  match input_json_dir with
  | None => None
  | Some json_files =>
      match build (Some json_files) true true (__init__ latest) with
      | None => None
      | Some (builder, stats) =>
          let new_files_count := new_files_processed stats in
          let action :=
            match latest with
            | None => index_graph
            | Some _ =>
                if (0 <? new_files_count)%nat then incremental_index new_files_count
                else no_index_update
            end in
          Some (builder, action, save_graph builder)
      end
  end.

End Persist.

Module Search.

(** [SemanticSearchEngine.rerank(query, candidates, top_k)].  [reranker] is
    absent when no cross-encoder is loaded; when present it stands for
    [np.argsort(self.reranker.predict(pairs))[::-1]] on the pairs of the
    query with each candidate, [None] when that raises. *)
Definition rerank (reranker : option (list string -> option (list nat)))
    (candidates : list string) (top_k : Z) : list nat :=
  let fallback := seq 0 (Z.to_nat (Z.min (Z.of_nat (length candidates)) top_k)) in
  match reranker, candidates with
  | Some sorted_indices, _ :: _ =>
      match sorted_indices candidates with
      | Some indices => Py.slice_to top_k indices
      | None => fallback
      end
  | _, _ => fallback
  end.

(** The argument [reranker] of [Retrieval.query] when reranking is enabled
    and a cross-encoder is loaded: the call
    [search_engine.rerank(query_text, candidate_texts, top_k=len(candidates_to_rerank))]. *)
Definition endpoint_reranker (sorted_indices : list string -> option (list nat))
    : list string -> list nat :=
  fun candidate_texts =>
    rerank (Some sorted_indices) candidate_texts (Z.of_nat (length candidate_texts)).

End Search.

Module Vocabulary.
Import Nx Builder.

(** Number of occurrences of a character in a string. *)
Fixpoint count_char (c : ascii) (s : string) : nat :=
  match s with
  | EmptyString => 0
  | String c' s' => (if Ascii.eqb c' c then 1 else 0) + count_char c s'
  end.

(** The attribute dictionary carries one of the four node types. *)
Definition typed (a : Attrs) : Prop :=
  exists t, a !! "node_type" = Some (VStr t) /\
            t ∈ ["Standard"; "Clause"; "Requirement"; "ExternalStandard"].

(** Every node of the graph carries a node type. *)
Definition all_typed (g : Graph) : Prop :=
  Forall (fun nd : string * Attrs => typed nd.2) (nodes g).

(** The directory [Sample.dir_ties] with its documents under exchanged
    file names. *)
Definition dir_ties_swapped : list File :=
  [mkFile "1.json" (Some Sample.clause_a); mkFile "2.json" (Some Sample.clause_b)].

(** A clause that cites two standards, one of them twice. *)
Definition clause_citing : Doc :=
  mkDoc "C" "STD" "8" "Normative references" None []
        (mkReferences [] ["ISO 16750"; "IEC 60068"; "ISO 16750"])
        [mkReq "mandatory" "shall" "shall comply"].

Definition dir_citing : list File := [mkFile "8.json" (Some clause_citing)].

(** A fresh builder object after one build over [json_files]. *)
Definition built_handle (json_files : list File) : Persist.Handle :=
  match Persist.build (Some json_files) true true (Persist.__init__ None) with
  | Some (h, _) => h
  | None => Persist.__init__ None
  end.

(** A clause of an annex. *)
Definition clause_annex : Doc :=
  mkDoc "AX" "STD" "Annex B.2.1" "Test severities" None [] Sample.no_refs [].

End Vocabulary.

(** * Properties of the list built-ins *)

Module PyProps.
Import Py.
Local Open Scope list_scope.

Section Sorting.
Context {A : Type} (lt : A -> A -> bool).

Lemma elem_of_insert_sorted a s x :
  x ∈ insert_sorted lt a s <-> x = a \/ x ∈ s.
Proof.
  induction s as [| y s IH]; simpl.
  - set_solver.
  - destruct (lt y a); rewrite !elem_of_cons; [rewrite IH |]; tauto.
Qed.

Lemma elem_of_sorted l x : x ∈ sorted lt l <-> x ∈ l.
Proof.
  induction l as [| a l IH]; simpl; [done |].
  rewrite elem_of_insert_sorted, IH, elem_of_cons. tauto.
Qed.

(** Insertion cuts the list in two: the part the new element moved
    past, each element of which had to precede it, and the rest. *)
Lemma insert_sorted_split a s :
  exists s1 s2, s = s1 ++ s2 /\ insert_sorted lt a s = s1 ++ a :: s2 /\
                Forall (fun z => lt z a = true) s1.
Proof.
  induction s as [| y s (s1 & s2 & -> & Hins & Hall)]; simpl.
  - by exists [], [].
  - destruct (lt y a) eqn:E.
    + exists (y :: s1), s2. rewrite Hins. split_and!; [done | done | by constructor].
    + by exists [], (y :: s1 ++ s2).
Qed.

Lemma before_cons_head (a : A) l y : y ∈ l -> before (a :: l) a y.
Proof.
  intros [j Hj]%list_elem_of_lookup. exists 0, (S j). split_and!; [lia | done | done].
Qed.

Lemma before_cons_tail (a : A) l x y : before l x y -> before (a :: l) x y.
Proof.
  intros (i & j & Hij & Hi & Hj). exists (S i), (S j). split_and!; [lia | done | done].
Qed.

Lemma before_app_cons_inv l1 (a : A) l2 x y :
  before (l1 ++ a :: l2) x y ->
  before (l1 ++ l2) x y \/ (x = a /\ y ∈ l2) \/ (y = a /\ x ∈ l1).
Proof.
  intros (i & j & Hij & Hi & Hj).
  destruct (decide (i < length l1)) as [Hi1 | Hi1].
  - rewrite lookup_app_l in Hi by done.
    destruct (decide (j < length l1)) as [Hj1 | Hj1].
    + rewrite lookup_app_l in Hj by done.
      left. exists i, j. rewrite !lookup_app_l by done. done.
    + rewrite lookup_app_r in Hj by lia.
      destruct (j - length l1) as [| n] eqn:En; simpl in Hj.
      * right; right. split; [congruence |]. by eapply list_elem_of_lookup_2.
      * left. exists i, (length l1 + n). rewrite lookup_app_l by done.
        rewrite lookup_app_r by lia.
        replace (length l1 + n - length l1) with n by lia.
        split_and!; [lia | done | done].
  - rewrite lookup_app_r in Hi, Hj by lia.
    destruct (i - length l1) as [| n] eqn:En; simpl in Hi;
      destruct (j - length l1) as [| m] eqn:Em; simpl in Hj; try lia.
    + right; left. split; [congruence |]. by eapply list_elem_of_lookup_2.
    + left. exists (length l1 + n), (length l1 + m).
      rewrite !lookup_app_r by lia.
      replace (length l1 + n - length l1) with n by lia.
      replace (length l1 + m - length l1) with m by lia.
      split_and!; [lia | done | done].
Qed.

Lemma before_sublist (l1 l2 : list A) x y :
  l1 `sublist_of` l2 -> before l1 x y -> before l2 x y.
Proof.
  induction 1 as [| a l1 l2 Hsub IH | a l1 l2 Hsub IH]; intros Hb.
  - done.
  - destruct Hb as (i & j & Hij & Hi & Hj).
    destruct j as [| j]; [lia |]. simpl in Hj.
    destruct i as [| i]; simpl in Hi.
    + injection Hi as <-. apply before_cons_head.
      eapply sublist_subseteq; [done |]. by eapply list_elem_of_lookup_2.
    + apply before_cons_tail, IH. exists i, j. split_and!; [lia | done | done].
  - by apply before_cons_tail, IH.
Qed.

(** Stability: two elements of which the first need not precede the
    second stand in the sorted list in the order they had. *)
Lemma sorted_stable l x y :
  before (sorted lt l) x y -> lt x y = false -> before l x y.
Proof.
  revert x y. induction l as [| a l IH]; intros x y Hb Hxy; simpl in Hb.
  - destruct Hb as (i & j & _ & Hi & _). by rewrite lookup_nil in Hi.
  - destruct (insert_sorted_split a (sorted lt l)) as (s1 & s2 & Hs & Hins & Hall).
    rewrite Hins in Hb.
    apply before_app_cons_inv in Hb as [Hb | [[-> Hy] | [-> Hx]]].
    + rewrite <- Hs in Hb. by apply before_cons_tail, IH.
    + apply before_cons_head, elem_of_sorted. rewrite Hs, elem_of_app. by right.
    + rewrite Forall_forall in Hall. apply Hall in Hx. congruence.
Qed.

(** The sorted list is ordered, for a comparison that is asymmetric and
    whose negation is transitive (a strict weak order). *)
Hypothesis lt_asym : forall x y, lt x y = true -> lt y x = false.
Hypothesis lt_negtrans : forall x y z, lt x y = false -> lt y z = false -> lt x z = false.

Lemma insert_sorted_ordered a s :
  StronglySorted (fun x y => lt y x = false) s ->
  StronglySorted (fun x y => lt y x = false) (insert_sorted lt a s).
Proof.
  induction 1 as [| y s Hs IH Hy]; simpl.
  - repeat constructor.
  - destruct (lt y a) eqn:E.
    + constructor; [done |].
      apply Forall_forall. intros z [-> | Hz]%elem_of_insert_sorted.
      * by apply lt_asym.
      * rewrite Forall_forall in Hy. by apply Hy.
    + constructor; [by constructor |].
      constructor; [done |].
      eapply Forall_impl; [exact Hy |]. intros z Hz. simpl in Hz.
      by apply lt_negtrans with y.
Qed.

Lemma sorted_ordered l : StronglySorted (fun x y => lt y x = false) (sorted lt l).
Proof.
  induction l as [| a l IH]; simpl; [constructor | by apply insert_sorted_ordered].
Qed.

Lemma sorted_before l x y : before (sorted lt l) x y -> lt y x = false.
Proof.
  generalize (sorted_ordered l). generalize (sorted lt l). clear l.
  intros l Hs. revert x y. induction Hs as [| a l Hs IH Ha]; intros x y (i & j & Hij & Hi & Hj).
  - by rewrite lookup_nil in Hi.
  - destruct j as [| j]; [lia |]. simpl in Hj.
    destruct i as [| i]; simpl in Hi.
    + injection Hi as <-. rewrite Forall_forall in Ha.
      apply Ha. by eapply list_elem_of_lookup_2.
    + apply IH. exists i, j. split_and!; [lia | done | done].
Qed.

End Sorting.

Lemma before_slice_to {A} n (l : list A) x y : before (slice_to n l) x y -> before l x y.
Proof.
  unfold slice_to. destruct (0 <=? n)%Z; apply before_sublist, sublist_take.
Qed.

Lemma elem_of_slice_to {A} n (l : list A) x : x ∈ slice_to n l -> x ∈ l.
Proof.
  unfold slice_to. destruct (0 <=? n)%Z; apply subseteq_take.
Qed.

End PyProps.

(** * Properties of the retrieval engine *)

Module RetrievalProps.
Import Nx Retrieval.
Local Open Scope list_scope.
Local Open Scope Q_scope.

(** ** Scores *)

Lemma Qlt_bool_true x y : Qlt_bool x y = true <-> x < y.
Proof.
  unfold Qlt_bool. rewrite negb_true_iff, <- not_true_iff_false, Qle_bool_iff.
  split; [apply Qnot_le_lt | apply Qlt_not_le].
Qed.

Lemma Qlt_bool_false x y : Qlt_bool x y = false <-> y <= x.
Proof.
  unfold Qlt_bool. rewrite negb_false_iff, Qle_bool_iff. tauto.
Qed.

Lemma py_min_Qmin a b : py_min a b == Qmin a b.
Proof.
  unfold py_min. destruct (Qlt_bool b a) eqn:E.
  - apply Qlt_bool_true in E. symmetry. apply Q.min_r. by apply Qlt_le_weak.
  - apply Qlt_bool_false in E. symmetry. by apply Q.min_l.
Qed.

Lemma py_min_mono a x y : x <= y -> py_min a x <= py_min a y.
Proof.
  intros H. rewrite !py_min_Qmin. apply Q.min_le_compat_l. exact H.
Qed.

(** The three branches of the fusion. *)
Lemma fuse_both s k :
  0 < s -> 0 < k -> fuse s k = py_min 1 (0.6 * s + 0.4 * k + 0.1).
Proof.
  intros Hs Hk. unfold fuse.
  apply Qlt_bool_true in Hs, Hk. by rewrite Hs, Hk.
Qed.

Lemma fuse_semantic_only s k :
  0 < s -> ~ 0 < k -> fuse s k = py_min 1 (s * 0.9).
Proof.
  intros Hs Hk. unfold fuse.
  apply Qlt_bool_true in Hs. rewrite <- Qlt_bool_true, not_true_iff_false in Hk.
  by rewrite Hs, Hk.
Qed.

Lemma fuse_keyword_only s k :
  ~ 0 < s -> 0 < k -> fuse s k = py_min 1 (k * 0.8).
Proof.
  intros Hs Hk. unfold fuse.
  apply Qlt_bool_true in Hk. rewrite <- Qlt_bool_true, not_true_iff_false in Hs.
  by rewrite Hs, Hk.
Qed.

Lemma fuse_neither s k :
  ~ 0 < s -> ~ 0 < k -> fuse s k = py_min 1 0.
Proof.
  intros Hs Hk. unfold fuse.
  rewrite <- Qlt_bool_true, not_true_iff_false in Hs, Hk.
  by rewrite Hs, Hk.
Qed.

(** Within one branch the fused score grows with either score. *)
Lemma fuse_mono_semantic s1 s2 k :
  s1 <= s2 -> (0 < s1 \/ ~ 0 < k) -> fuse s1 k <= fuse s2 k.
Proof.
  intros Hle Hcase.
  destruct (Qlt_le_dec 0 k) as [Hk | Hk].
  - destruct Hcase as [Hs1 | Hnk]; [| contradiction].
    assert (Hs2 : 0 < s2) by (by apply Qlt_le_trans with s1).
    rewrite (fuse_both s1 k), (fuse_both s2 k) by done.
    apply py_min_mono. lra.
  - apply Qle_not_lt in Hk.
    destruct (Qlt_le_dec 0 s1) as [Hs1 | Hs1].
    + assert (Hs2 : 0 < s2) by (by apply Qlt_le_trans with s1).
      rewrite (fuse_semantic_only s1 k), (fuse_semantic_only s2 k) by done.
      apply py_min_mono. lra.
    + apply Qle_not_lt in Hs1. rewrite (fuse_neither s1 k) by done.
      destruct (Qlt_le_dec 0 s2) as [Hs2 | Hs2].
      * rewrite (fuse_semantic_only s2 k) by done. apply py_min_mono. lra.
      * apply Qle_not_lt in Hs2. rewrite (fuse_neither s2 k) by done. apply Qle_refl.
Qed.

Lemma fuse_mono_keyword s k1 k2 :
  k1 <= k2 -> (0 < k1 \/ ~ 0 < s) -> fuse s k1 <= fuse s k2.
Proof.
  intros Hle Hcase.
  destruct (Qlt_le_dec 0 s) as [Hs | Hs].
  - destruct Hcase as [Hk1 | Hns]; [| contradiction].
    assert (Hk2 : 0 < k2) by (by apply Qlt_le_trans with k1).
    rewrite (fuse_both s k1), (fuse_both s k2) by done.
    apply py_min_mono. lra.
  - apply Qle_not_lt in Hs.
    destruct (Qlt_le_dec 0 k1) as [Hk1 | Hk1].
    + assert (Hk2 : 0 < k2) by (by apply Qlt_le_trans with k1).
      rewrite (fuse_keyword_only s k1), (fuse_keyword_only s k2) by done.
      apply py_min_mono. lra.
    + apply Qle_not_lt in Hk1. rewrite (fuse_neither s k1) by done.
      destruct (Qlt_le_dec 0 k2) as [Hk2 | Hk2].
      * rewrite (fuse_keyword_only s k2) by done. apply py_min_mono. lra.
      * apply Qle_not_lt in Hk2. rewrite (fuse_neither s k2) by done. apply Qle_refl.
Qed.


(** ** The hybrid merge *)

Lemma elem_of_update id f (combined : list (string * Candidate)) k c :
  (k, c) ∈ update id f combined ->
  exists c0, (k, c0) ∈ combined /\ (c = c0 \/ (k = id /\ c = f c0)).
Proof.
  unfold update. rewrite list_elem_of_In, in_map_iff.
  intros ([k0 c0] & Heq & Hin%list_elem_of_In). simpl in Heq.
  destruct (decide (k0 = id)); simplify_eq; eauto.
Qed.

Lemma elem_of_get_or_create id data (combined : list (string * Candidate)) k c :
  (k, c) ∈ get_or_create_result id data combined ->
  (k, c) ∈ combined \/ (k = id /\ c = new_result id data).
Proof.
  unfold get_or_create_result. destruct (assoc id combined); [by left |].
  rewrite elem_of_app, list_elem_of_singleton. intros [H | H]; [by left |].
  right. by injection H.
Qed.

Lemma fold_left_Forall {X Y} (f : list Y -> X -> list Y) (P : Y -> Prop) (R : X -> Prop) :
  (forall acc a, R a -> Forall P acc -> Forall P (f acc a)) ->
  forall l acc, Forall R l -> Forall P acc -> Forall P (fold_left f l acc).
Proof.
  intros Hstep l. induction l as [| a l IH]; intros acc Hl Hacc; simpl; [done |].
  inversion Hl; subst. apply IH; [done |]. by apply Hstep.
Qed.

Lemma dict_set_keys {X} k (v : X) m : (dict_set k v m).*1 ⊆ k :: m.*1.
Proof.
  induction m as [| [k' v'] m IH]; simpl; [done |].
  destruct (decide (k' = k)) as [-> | Hne]; simpl.
  - intros x. rewrite !elem_of_cons. tauto.
  - intros x. rewrite !elem_of_cons. intros [-> | Hx]; [tauto |].
    apply IH in Hx. rewrite elem_of_cons in Hx. tauto.
Qed.

Lemma semantic_results_keys hits : (semantic_results hits).*1 ⊆ hits.*1.
Proof.
  unfold semantic_results.
  assert (G : forall m : list (string * Q),
             (fold_left (fun m hit => dict_set hit.1 hit.2 m) hits m).*1 ⊆ hits.*1 ++ m.*1).
  { induction hits as [| h hits IH]; intros m; simpl; [done |].
    intros x Hx. apply IH in Hx. rewrite elem_of_app in Hx.
    rewrite elem_of_cons, elem_of_app.
    destruct Hx as [Hx | Hx]; [tauto |].
    apply dict_set_keys in Hx. rewrite elem_of_cons in Hx. tauto. }
  specialize (G []). simpl in G. by rewrite app_nil_r in G.
Qed.

(** After the semantic loop no entry has a keyword score, and every
    entry is a semantic hit. *)
Lemma semantic_loop_entries g hits :
  Forall (fun kc : string * Candidate => keyword_score kc.2 = 0 /\ kc.1 ∈ hits.*1)
         (fold_left (process_semantic g) (semantic_results hits) []).
Proof.
  apply fold_left_Forall with (R := fun item : string * Q => item.1 ∈ hits.*1); [| | done].
  - intros acc item Hitem Hacc. unfold process_semantic.
    destruct (has_node item.1 g); [| done].
    apply Forall_forall. intros [k c] (c0 & Hin & Hc)%elem_of_update.
    apply elem_of_get_or_create in Hin. rewrite Forall_forall in Hacc. simpl.
    destruct Hin as [Hin | [-> ->]].
    + apply Hacc in Hin as [? ?]. destruct Hc as [-> | [-> ->]]; by simpl in *.
    + destruct Hc as [-> | [_ ->]]; by simpl.
  - apply Forall_forall. intros [k v] Hin. simpl.
    apply semantic_results_keys. by apply (list_elem_of_fmap_2 fst) in Hin.
Qed.

(** After both loops, a score that has no source is 0. *)
Lemma combined_results_entries g hits search_terms :
  Forall (fun kc : string * Candidate =>
            (kc.1 ∉ hits.*1 -> semantic_score kc.2 = 0) /\
            ((forall data, (kc.1, data) ∈ nodes g -> lexical_match search_terms data = None) ->
             keyword_score kc.2 = 0))
         (combined_results g hits search_terms).
Proof.
  unfold combined_results.
  apply fold_left_Forall with (R := fun nd : string * Attrs => nd ∈ nodes g).
  - intros acc [id data] Hnd Hacc. unfold process_keyword. simpl.
    destruct (lexical_match search_terms data) as [[k curr] |] eqn:Hlex; [| done].
    apply Forall_forall. intros [k' c] (c0 & Hin & Hc)%elem_of_update.
    apply elem_of_get_or_create in Hin. rewrite Forall_forall in Hacc. simpl.
    destruct Hin as [Hin | [-> ->]].
    + apply Hacc in Hin as [Hs Hk]. simpl in *.
      destruct Hc as [-> | [-> ->]]; [done |]. split; [done |].
      intros Hnone. apply Hnone in Hnd. congruence.
    + destruct Hc as [-> | [_ ->]]; simpl; (split; [done |]).
      * done.
      * intros Hnone. apply Hnone in Hnd. congruence.
  - by apply Forall_forall.
  - eapply Forall_impl; [apply semantic_loop_entries |].
    intros [k c] [Hk Hin]; simpl in *. split; [| done]. by intros [].
Qed.

(** C1. For every entry of [combined_results] the fused score
    [final_score] is the minimum of 1 and
    [0.6*semantic + 0.4*keyword + 0.1] when both scores are positive,
    [0.9*semantic] when only the semantic score is, [0.8*keyword] when only
    the keyword score is; the semantic score of an entry that is not a
    semantic hit is 0, and so is the keyword score of an entry without a
    lexical match. *)
Theorem fused_score_of_candidate g sem_hits search_terms id c :
  (id, c) ∈ combined_results g sem_hits search_terms ->
  let s := semantic_score c in
  let k := keyword_score c in
  (0 < s -> 0 < k -> final_score c == Qmin 1 (0.6 * s + 0.4 * k + 0.1)) /\
  (0 < s -> ~ 0 < k -> final_score c == Qmin 1 (0.9 * s)) /\
  (~ 0 < s -> 0 < k -> final_score c == Qmin 1 (0.8 * k)) /\
  (id ∉ sem_hits.*1 -> s = 0) /\
  ((forall data, (id, data) ∈ nodes g -> lexical_match search_terms data = None) -> k = 0).
Proof.
  intros Hin s k. unfold final_score. fold s k.
  pose proof (combined_results_entries g sem_hits search_terms) as Hall.
  rewrite Forall_forall in Hall. apply Hall in Hin as [Hs Hk]. simpl in Hs, Hk.
  split_and!; [| | | done | done].
  - intros H1 H2. rewrite fuse_both by done. apply py_min_Qmin.
  - intros H1 H2. rewrite fuse_semantic_only by done.
    rewrite py_min_Qmin. apply Q.min_compat; [reflexivity | ring].
  - intros H1 H2. rewrite fuse_keyword_only by done.
    rewrite py_min_Qmin. apply Q.min_compat; [reflexivity | ring].
Qed.


Lemma fused_score_of_candidate_witness :
  exists c,
    ("std_4.2::req_0", c) ∈
      combined_results (Sample.built_graph Sample.dir_4_2)
                       [("std_4.2::req_0", 0.5)] (clean_terms Sample.mechanical_terms) /\
    final_score c == 0.48.
Proof.
  let r := eval vm_compute in
    (combined_results (Sample.built_graph Sample.dir_4_2)
                      [("std_4.2::req_0", 0.5)] (clean_terms Sample.mechanical_terms) !! 0%nat) in
  match r with Some (_, ?c) => exists c end.
  match goal with
  | |- ?P /\ _ =>
      assert (Hin : P) by (apply (list_elem_of_lookup_2 _ 0%nat); by vm_compute)
  end.
  split; [exact Hin |].
  destruct (fused_score_of_candidate _ _ _ _ _ Hin) as (Hboth & _).
  rewrite Hboth; reflexivity.
Defined.

(** C4, as stated, fails: with keyword score 1, raising the semantic score
    from 0 to 0.1 lowers the fused score from 0.8 to 0.56. *)
Lemma fusion_not_monotone :
  ~ (forall k s1 s2, 0 <= k <= 1 -> 0 <= s1 -> s1 <= s2 -> s2 <= 1 ->
                     fuse s1 k <= fuse s2 k).
Proof.
  intros H. specialize (H 1 0 0.1).
  assert (Hlt : fuse 0.1 1 < fuse 0 1) by reflexivity.
  apply Qlt_not_le in Hlt. apply Hlt, H; [split | | |]; discriminate.
Qed.

(** C4, amended. For a fixed other score [z], raising a score from [x] to
    [y] never lowers the fused score when [x] is already positive or [z] is
    not positive, in either argument of the fusion. *)
Theorem fusion_monotone_same_branch x y z :
  x <= y -> (0 < x \/ ~ 0 < z) ->
  fuse x z <= fuse y z /\ fuse z x <= fuse z y.
Proof.
  intros Hle Hcase. split; [by apply fuse_mono_semantic | by apply fuse_mono_keyword].
Qed.

Lemma fusion_monotone_same_branch_witness :
  fuse 0.2 0.5 <= fuse 0.7 0.5 /\ fuse 0.5 0.2 <= fuse 0.5 0.7.
Proof.
  apply (fusion_monotone_same_branch 0.2 0.7 0.5); [discriminate | left; reflexivity].
Defined.

(** ** The lexical matcher *)

Lemma clean_terms_NoDup raw : NoDup (clean_terms raw).
Proof. apply NoDup_remove_dups. Qed.

Lemma k_score_Qmin matches mandatory :
  k_score matches mandatory ==
  if mandatory then Qmin 1 (Qmin 1 (inject_Z (Z.of_nat matches) / 6) * 1.2)
  else Qmin 1 (inject_Z (Z.of_nat matches) / 6).
Proof.
  unfold k_score. destruct mandatory; [| apply py_min_Qmin].
  etransitivity; [apply py_min_Qmin |].
  apply Q.min_compat; [reflexivity |].
  apply Qmult_comp; [apply py_min_Qmin | reflexivity].
Qed.

(** C7. For a Requirement node with a non-empty text, [matches] being the
    number of distinct cleaned query terms that occur in the lower-cased
    text: without a match the node yields no lexical candidate and the scan
    leaves [combined_results] as it is; with a match the keyword score is
    [min(1, matches/6)], times 1.2 and capped at 1 again for a mandatory
    requirement; 6 matches give 1 and 3 matches give 1/2 before that boost. *)
Theorem lexical_score_spec raw data :
  let terms := clean_terms raw in
  let req_text := Str.lower (default EmptyString (get_str "text" data)) in
  let matches :=
    size (list_to_set (C := gset string)
            (filter (fun t => Str.contains t req_text = true) terms)) in
  let base := Qmin 1 (inject_Z (Z.of_nat matches) / 6) in
  is_type "Requirement" data = true -> req_text <> EmptyString ->
  (matches = 0%nat ->
     lexical_match terms data = None /\
     forall id combined, process_keyword terms combined (id, data) = combined) /\
  ((0 < matches)%nat ->
     exists k, lexical_match terms data = Some (k, curr_matched_terms terms req_text) /\
       k == if bool_decide (data !! "requirement_type" = Some (VStr "mandatory"))
            then Qmin 1 (base * 1.2) else base) /\
  (matches = 6%nat -> base == 1) /\
  (matches = 3%nat -> base == 1 / 2).
Proof.
  intros terms req_text matches base Hty Htext.
  assert (Hm : matches = length (curr_matched_terms terms req_text)).
  { unfold matches, curr_matched_terms. apply size_list_to_set.
    apply NoDup_filter, clean_terms_NoDup. }
  assert (Hlex : lexical_match terms data =
                 if (0 <? matches)%nat
                 then Some (k_score matches
                              (bool_decide (data !! "requirement_type" = Some (VStr "mandatory"))),
                            curr_matched_terms terms req_text)
                 else None).
  { unfold lexical_match. rewrite Hty. simpl. fold req_text.
    rewrite bool_decide_eq_false_2 by done. by rewrite <- Hm. }
  split_and!.
  - intros H0. rewrite H0 in Hlex. simpl in Hlex. split; [done |].
    intros id combined. unfold process_keyword. simpl. by rewrite Hlex.
  - intros Hpos. apply Nat.ltb_lt in Hpos. rewrite Hpos in Hlex.
    eexists. split; [exact Hlex |]. apply k_score_Qmin.
  - intros H6. unfold base. by rewrite H6.
  - intros H3. unfold base. by rewrite H3.
Qed.

Lemma lexical_score_spec_witness :
  let data := Builder.requirement_attrs "std_4.2" "std_4.2::req_0"
                (Builder.mkReq "mandatory" "shall" "shall withstand vibration") in
  exists k, lexical_match (clean_terms Sample.mechanical_terms) data =
              Some (k, ["vibration"]) /\ k == 0.2.
Proof.
  intros data.
  destruct (lexical_score_spec Sample.mechanical_terms data) as (_ & Hpos & _);
    [by vm_compute | by vm_compute |].
  destruct Hpos as (k & Hk & Hv); [vm_compute; lia |].
  exists k. split; [exact Hk |]. rewrite Hv. by vm_compute.
Defined.

(** ** Filtering and ranking *)

Lemma elem_of_reorder candidates ranked_indices l x :
  reorder candidates ranked_indices = Some l -> x ∈ l -> x ∈ candidates.
Proof.
  unfold reorder. intros Hm%mapM_Some_1 Hx.
  induction Hm as [| i y idx l Hy Hm IH]; [by apply elem_of_nil in Hx |].
  apply elem_of_cons in Hx as [-> | Hx]; [by eapply list_elem_of_lookup_2 | by apply IH].
Qed.

Lemma elem_of_final_list min_confidence combined r :
  r ∈ final_list min_confidence combined ->
  min_confidence <= final_score (candidate r).
Proof.
  unfold final_list. rewrite list_elem_of_filter. intros [H _]. by apply Qle_bool_iff.
Qed.

(** Without a reranker the request always succeeds. *)
Lemma query_without_reranker g sem_hits search_terms min_confidence max_results :
  query g sem_hits search_terms None min_confidence max_results =
  Some (Py.slice_to max_results
          (sort_by_relevance
             (final_list min_confidence
                (combined_results g sem_hits (clean_terms search_terms))))).
Proof. reflexivity. Qed.

(** C8. No result of a query has a fused score below [min_confidence],
    with or without reranking. *)
Theorem results_reach_min_confidence g sem_hits search_terms reranker
    min_confidence max_results results :
  query g sem_hits search_terms reranker min_confidence max_results = Some results ->
  forall r, r ∈ results -> min_confidence <= final_score (candidate r).
Proof.
  unfold query. intros Hq r Hr.
  set (final := sort_by_relevance _) in Hq.
  assert (Hfinal : forall x, x ∈ final -> min_confidence <= final_score (candidate x)).
  { intros x Hx. apply PyProps.elem_of_sorted in Hx. by apply elem_of_final_list in Hx. }
  apply fmap_Some in Hq as (l & Hl & ->).
  apply PyProps.elem_of_slice_to in Hr. apply Hfinal.
  destruct reranker as [rerank |]; [destruct final as [| c final'] eqn:E |].
  - by injection Hl as <-.
  - by eapply elem_of_reorder.
  - by injection Hl as <-.
Qed.

Lemma results_reach_min_confidence_witness :
  exists results,
    query (Sample.built_graph Sample.dir_4_2) [("std_4.2::req_1", 0.3)]
          Sample.mechanical_terms (Some (fun texts => reverse (seq 0 (length texts))))
          0.1 10 = Some results /\
    length results = 2%nat /\
    forall r, r ∈ results -> 0.1 <= final_score (candidate r).
Proof.
  eexists. split; [by vm_compute |]. split; [reflexivity |].
  apply (results_reach_min_confidence (Sample.built_graph Sample.dir_4_2)
           [("std_4.2::req_1", 0.3)] Sample.mechanical_terms
           (Some (fun texts => reverse (seq 0 (length texts)))) 0.1 10).
  by vm_compute.
Defined.

(** C3, as stated, fails: the two requirements of [Sample.dir_ties] get
    the same fused score, and the one with the greater node id comes first. *)
Lemma ties_not_ordered_by_node_id :
  ~ (forall g sem_hits search_terms reranker min_confidence max_results results,
       query g sem_hits search_terms reranker min_confidence max_results = Some results ->
       forall x y, Py.before results x y ->
         final_score (candidate y) <= final_score (candidate x) /\
         (final_score (candidate x) == final_score (candidate y) ->
          String.ltb (node_id (candidate x)) (node_id (candidate y)) = true)).
Proof.
  intros H.
  specialize (H (Sample.built_graph Sample.dir_ties) [] Sample.mechanical_terms None 0.1 10%Z).
  rewrite query_without_reranker in H.
  specialize (H _ eq_refl).
  remember (Py.slice_to _ _) as results eqn:Hres in H. vm_compute in Hres.
  subst results.
  match type of H with
  | forall x y, Py.before (?a :: ?b :: nil) x y -> _ =>
      destruct (H a b) as [_ Htie];
        [exists 0%nat, 1%nat; split_and!; [lia | done | done] |]
  end.
  by specialize (Htie eq_refl).
Qed.

(** C3, amended. When no reranker is applied, the results are in
    descending order of the reported [relevance_score] (the fused score
    rounded to 3 decimals), and two results with equal [relevance_score]
    stand in the order in which their entries were created in
    [combined_results]. *)
Theorem results_ranked_by_relevance g sem_hits search_terms min_confidence max_results :
  exists results,
    query g sem_hits search_terms None min_confidence max_results = Some results /\
    forall x y, Py.before results x y ->
      relevance_score y <= relevance_score x /\
      relevance_score x = round3 (final_score (candidate x)) /\
      (relevance_score x == relevance_score y ->
       Py.before (score_all (combined_results g sem_hits (clean_terms search_terms))) x y).
Proof.
  eexists. split; [apply query_without_reranker |].
  intros x y Hb%PyProps.before_slice_to. unfold sort_by_relevance in Hb.
  split_and!.
  - apply PyProps.sorted_before in Hb.
    + by apply Qlt_bool_false in Hb.
    + intros a b Hab%Qlt_bool_true. apply Qlt_bool_false. by apply Qlt_le_weak.
    + intros a b c Hab%Qlt_bool_false Hbc%Qlt_bool_false. apply Qlt_bool_false.
      by apply Qle_trans with (relevance_score b).
  - destruct Hb as (i & _ & _ & Hi%list_elem_of_lookup_2 & _).
    apply PyProps.elem_of_sorted in Hi. unfold final_list in Hi.
    apply list_elem_of_filter in Hi as [_ Hi]. unfold score_all in Hi.
    apply list_elem_of_In, in_map_iff in Hi as (kr & <- & _). done.
  - intros Heq. apply PyProps.sorted_stable in Hb.
    + unfold final_list in Hb. eapply PyProps.before_sublist; [| exact Hb].
      apply sublist_filter.
    + apply Qlt_bool_false. rewrite Heq. apply Qle_refl.
Qed.

End RetrievalProps.

(** * Properties of the graph store *)

Module NxProps.
Import Nx.
Local Open Scope list_scope.

Lemma between_true u v e : between u v e = true <-> src e = u /\ dst e = v.
Proof.
  unfold between. rewrite andb_true_iff, !bool_decide_eq_true. tauto.
Qed.

Lemma elem_of_keys u v k g :
  k ∈ keys u v g <-> exists e, e ∈ edges g /\ src e = u /\ dst e = v /\ key e = k.
Proof.
  unfold keys. rewrite list_elem_of_In, in_map_iff. split.
  - intros (e & Hk & He%list_elem_of_In). apply list_elem_of_filter in He as [Hb He].
    apply between_true in Hb as [? ?]. by exists e.
  - intros (e & He & Hu & Hv & Hk). exists e. split; [done |].
    apply list_elem_of_In, list_elem_of_filter. split; [| done]. by apply between_true.
Qed.

Lemma has_edge_true u v g :
  has_edge u v g = true <-> exists e, e ∈ edges g /\ src e = u /\ dst e = v.
Proof.
  unfold has_edge. rewrite bool_decide_eq_true. split.
  - intros Hne. destruct (keys u v g) as [| k ks] eqn:E; [done |].
    assert (Hk : k ∈ keys u v g) by (rewrite E; left).
    apply elem_of_keys in Hk as (e & ? & ? & ? & _). by exists e.
  - intros (e & He & Hu & Hv) Hnil.
    assert (Hk : key e ∈ keys u v g) by (apply elem_of_keys; by exists e).
    rewrite Hnil in Hk. by apply elem_of_nil in Hk.
Qed.

Lemma has_edge_false u v g :
  has_edge u v g = false <-> forall e, e ∈ edges g -> ~ (src e = u /\ dst e = v).
Proof.
  rewrite <- not_true_iff_false, has_edge_true. split.
  - intros H e He Huv. apply H. by exists e.
  - intros H (e & He & Huv). by apply (H e).
Qed.

Lemma has_edge_key_true u v k g :
  has_edge_key u v k g = true <->
  exists e, e ∈ edges g /\ src e = u /\ dst e = v /\ key e = k.
Proof. unfold has_edge_key. by rewrite bool_decide_eq_true, elem_of_keys. Qed.

Lemma has_typed_edge_true u v ty g :
  has_typed_edge u v ty g = true <->
  exists e, e ∈ edges g /\ src e = u /\ dst e = v /\ edge_type e = ty.
Proof.
  unfold has_typed_edge. rewrite existsb_exists. split.
  - intros (e & He%list_elem_of_In & Hb). apply andb_true_iff in Hb as [Hb Ht].
    apply between_true in Hb as [? ?]. apply bool_decide_eq_true in Ht. by exists e.
  - intros (e & He & Hu & Hv & Ht). exists e. split; [by apply list_elem_of_In |].
    apply andb_true_iff. split; [by apply between_true | by apply bool_decide_eq_true].
Qed.

Lemma has_node_true n g : has_node n g = true <-> n ∈ node_ids g.
Proof. unfold has_node. by rewrite bool_decide_eq_true. Qed.

(** *** Growth *)

Lemma more_edges_refl g : more_edges g g.
Proof. exists []. by rewrite app_nil_r. Qed.

Lemma more_edges_trans g1 g2 g3 : more_edges g1 g2 -> more_edges g2 g3 -> more_edges g1 g3.
Proof. intros [es1 H1] [es2 H2]. exists (es1 ++ es2). by rewrite H2, H1, app_assoc. Qed.

Lemma more_edges_elem_of g g' e : more_edges g g' -> e ∈ edges g -> e ∈ edges g'.
Proof. intros [es ->] He. apply elem_of_app. by left. Qed.

Lemma has_edge_mono g g' u v :
  more_edges g g' -> has_edge u v g = true -> has_edge u v g' = true.
Proof.
  rewrite !has_edge_true. intros Hg (e & He & Huv). exists e.
  split; [by eapply more_edges_elem_of | done].
Qed.

Lemma has_edge_key_mono g g' u v k :
  more_edges g g' -> has_edge_key u v k g = true -> has_edge_key u v k g' = true.
Proof.
  rewrite !has_edge_key_true. intros Hg (e & He & Huv). exists e.
  split; [by eapply more_edges_elem_of | done].
Qed.

Lemma has_typed_edge_mono g g' u v ty :
  more_edges g g' -> has_typed_edge u v ty g = true -> has_typed_edge u v ty g' = true.
Proof.
  rewrite !has_typed_edge_true. intros Hg (e & He & Huv). exists e.
  split; [by eapply more_edges_elem_of | done].
Qed.

Lemma more_nodes_refl g : more_nodes g g.
Proof. exists []. by rewrite app_nil_r. Qed.

Lemma more_nodes_trans g1 g2 g3 : more_nodes g1 g2 -> more_nodes g2 g3 -> more_nodes g1 g3.
Proof.
  intros (ns1 & H1 & F1) (ns2 & H2 & F2). exists (ns1 ++ ns2).
  split; [by rewrite H2, H1, app_assoc | by apply Forall_app].
Qed.

Lemma has_node_mono g g' n : more_nodes g g' -> has_node n g = true -> has_node n g' = true.
Proof.
  rewrite !has_node_true. unfold node_ids. intros (ns & -> & _) Hn.
  rewrite fmap_app. apply elem_of_app. by left.
Qed.

Lemma assoc_app_l {X} n (l1 l2 : list (string * X)) :
  n ∈ l1.*1 -> assoc n (l1 ++ l2) = assoc n l1.
Proof.
  induction l1 as [| [k a] l1 IH]; simpl; intros Hn; [by apply elem_of_nil in Hn |].
  destruct (decide (k = n)); [done |].
  apply IH. apply elem_of_cons in Hn as [-> | Hn]; done.
Qed.

Lemma node_data_mono g g' n :
  more_nodes g g' -> has_node n g = true -> node_data n g' = node_data n g.
Proof.
  rewrite has_node_true. unfold node_data, node_ids. intros (ns & -> & _) Hn.
  by apply assoc_app_l.
Qed.

(** *** The insertions *)

Lemma edges_add_node n a g : edges (add_node n a g) = edges g.
Proof. unfold add_node. by destruct (has_node n g). Qed.

Lemma edges_ensure_node n g : edges (ensure_node n g) = edges g.
Proof. unfold ensure_node. by destruct (has_node n g). Qed.

Lemma edges_add_edge u v ty lm g :
  edges (add_edge u v ty lm g) = edges g ++ [mkEdge u v (new_edge_key u v g) ty lm].
Proof. unfold add_edge. simpl. by rewrite !edges_ensure_node. Qed.

Lemma more_edges_add_edge u v ty lm g : more_edges g (add_edge u v ty lm g).
Proof. eexists. apply edges_add_edge. Qed.

Lemma more_edges_add_node n a g : more_edges g (add_node n a g).
Proof. exists []. by rewrite edges_add_node, app_nil_r. Qed.

Lemma has_edge_add_edge u v ty lm g : has_edge u v (add_edge u v ty lm g) = true.
Proof.
  apply has_edge_true. eexists. rewrite edges_add_edge, elem_of_app.
  split; [right; by left | done].
Qed.

Lemma has_typed_edge_add_edge u v ty lm g :
  has_typed_edge u v ty (add_edge u v ty lm g) = true.
Proof.
  apply has_typed_edge_true. eexists. rewrite edges_add_edge, elem_of_app.
  split; [right; by left | done].
Qed.

(** The first edge between two nodes gets key 0. *)
Lemma new_edge_key_first u v g : has_edge u v g = false -> new_edge_key u v g = 0.
Proof.
  unfold has_edge, new_edge_key. intros H%bool_decide_eq_false.
  destruct (keys u v g); [done |]. by destruct H.
Qed.

Lemma nodes_ensure_node n g : has_node n g = true -> ensure_node n g = g.
Proof. unfold ensure_node. by intros ->. Qed.

(** Joining two nodes of the graph adds no node. *)
Lemma nodes_add_edge u v ty lm g :
  has_node u g = true -> has_node v g = true -> nodes (add_edge u v ty lm g) = nodes g.
Proof. intros Hu Hv. unfold add_edge. simpl. by rewrite (nodes_ensure_node u), nodes_ensure_node. Qed.

Lemma node_ids_add_node_new n a g :
  has_node n g = false -> nodes (add_node n a g) = nodes g ++ [(n, a)].
Proof. unfold add_node. by intros ->. Qed.

Lemma node_ids_add_node n a g :
  node_ids (add_node n a g) = if has_node n g then node_ids g else node_ids g ++ [n].
Proof.
  unfold add_node, node_ids. destruct (has_node n g); simpl.
  - induction (nodes g) as [| [k b] l IH]; [done |].
    rewrite map_cons, !fmap_cons, IH. by destruct (decide (k = n)).
  - by rewrite fmap_app.
Qed.

Lemma has_node_add_node n a g : has_node n (add_node n a g) = true.
Proof.
  apply has_node_true. rewrite node_ids_add_node.
  destruct (has_node n g) eqn:E; [by apply has_node_true |].
  apply elem_of_app. right. by left.
Qed.

Lemma has_node_add_node_mono n a m g :
  has_node m g = true -> has_node m (add_node n a g) = true.
Proof.
  rewrite !has_node_true, node_ids_add_node. intros Hm.
  destruct (has_node n g); [done |]. apply elem_of_app. by left.
Qed.

Lemma node_ids_ensure_node n g :
  node_ids (ensure_node n g) = if has_node n g then node_ids g else node_ids g ++ [n].
Proof.
  unfold ensure_node, node_ids. destruct (has_node n g); simpl; [done |]. by rewrite fmap_app.
Qed.

Lemma has_node_add_edge_mono u v ty lm m g :
  has_node m g = true -> has_node m (add_edge u v ty lm g) = true.
Proof.
  rewrite !has_node_true. unfold add_edge, node_ids at 2. simpl.
  fold (node_ids (ensure_node v (ensure_node u g))).
  rewrite !node_ids_ensure_node. intros Hm.
  destruct (has_node u g); destruct (has_node v _); rewrite ?elem_of_app; tauto.
Qed.

Lemma node_data_elem_of n g :
  has_node n g = true -> (n, default ∅ (node_data n g)) ∈ nodes g.
Proof.
  rewrite has_node_true. unfold node_data, node_ids.
  induction (nodes g) as [| [k a] l IH]; intros Hn; [by apply elem_of_nil in Hn |].
  simpl. destruct (decide (k = n)) as [-> | Hne]; simpl; [by left |].
  right. apply IH. rewrite fmap_cons in Hn. apply elem_of_cons in Hn as [-> | Hn]; done.
Qed.

End NxProps.

(** * Properties of the builder *)

Module BuilderProps.
Import Nx Builder NxProps.
Local Open Scope list_scope.

Lemma fold_left_preserves {X} (I : Graph -> Prop) (f : Graph -> X -> Graph) l g :
  (forall g x, I g -> I (f g x)) -> I g -> I (fold_left f l g).
Proof.
  intros Hf. revert g. induction l as [| x l IH]; intros g Hg; simpl; [done |].
  by apply IH, Hf.
Qed.

(** ** An induction principle over the insertions of a build

    A property of graphs that survives the four kinds of insertion the
    builder performs survives a whole build. *)
Section Stable.
Variable I : Graph -> Prop.
Hypothesis I_add_node : forall n a g, I g -> I (add_node n a g).
Hypothesis I_first : forall u v ty lm g,
  ty <> CONTAINS_REQUIREMENT -> has_edge u v g = false -> I g -> I (add_edge u v ty lm g).
Hypothesis I_sibling : forall u v g,
  has_edge_key u v 0 g = false -> I g -> I (add_edge u v SIBLING_OF structural g).
Hypothesis I_requirement : forall u v g,
  I g -> I (add_edge u v CONTAINS_REQUIREMENT structural g).

Lemma stable_add_requirement c g ir : I g -> I (add_requirement c g ir).
Proof. intros Hg. unfold add_requirement. by apply I_requirement, I_add_node. Qed.

Lemma stable_create_doc_nodes st doc : I st.2 -> I (create_doc_nodes st doc).2.
Proof.
  destruct st as [stds g]. simpl. intros Hg. unfold create_doc_nodes.
  destruct (_ || _); [done |].
  destruct (bool_decide (document_id doc ∈ stds)); simpl.
  - apply fold_left_preserves; [apply stable_add_requirement |].
    destruct (has_edge _ _ _) eqn:E; [by apply I_add_node |].
    apply I_first; [done | done | by apply I_add_node].
  - apply fold_left_preserves; [apply stable_add_requirement |].
    destruct (has_edge _ _ _) eqn:E; [by do 2 apply I_add_node |].
    apply I_first; [done | done | by do 2 apply I_add_node].
Qed.

Lemma stable_create_nodes documents g : I g -> I (_create_nodes documents g).
Proof.
  unfold _create_nodes. intros Hg.
  assert (G : forall st, I st.2 -> I (fold_left create_doc_nodes documents st).2).
  { induction documents as [| doc documents IH]; intros st Hst; simpl; [done |].
    by apply IH, stable_create_doc_nodes. }
  by apply G.
Qed.

Lemma stable_link_sibling lookup n c g s : I g -> I (link_sibling lookup n c g s).
Proof.
  intros Hg. unfold link_sibling. destruct (bool_decide _); [| done].
  destruct (lookup !! s); [| done].
  destruct (has_edge_key _ _ _ _) eqn:E; [done | by apply I_sibling].
Qed.

Lemma stable_structural_step lookup g nd : I g -> I (structural_step lookup g nd).
Proof.
  intros Hg. destruct nd as [n data]. unfold structural_step.
  destruct (is_type _ _); [| done].
  destruct (resolve_parent _ _) as [p |]; [| done].
  assert (Hg1 : I (if has_edge p n g then g else add_edge p n PARENT_OF structural g)).
  { destruct (has_edge p n g) eqn:E; [done | by apply I_first]. }
  destruct (get_str _ _); [| done].
  destruct (bool_decide _); [| done].
  apply fold_left_preserves; [apply stable_link_sibling | done].
Qed.

Lemma stable_structural_links g : I g -> I (_create_structural_links g).
Proof. apply fold_left_preserves, stable_structural_step. Qed.

Lemma stable_link_reference lookup n g r : I g -> I (link_reference lookup n g r).
Proof.
  intros Hg. unfold link_reference. destruct (lookup !! r); [| done].
  destruct (has_edge _ _ _) eqn:E; [done | by apply I_first].
Qed.

Lemma stable_link_standard n g s : I g -> I (link_standard n g s).
Proof.
  intros Hg. unfold link_standard.
  set (g1 := if has_node _ g then g else _).
  assert (Hg1 : I g1) by (unfold g1; destruct (has_node _ g); [done | by apply I_add_node]).
  destruct (has_edge _ _ _) eqn:E; [done | by apply I_first].
Qed.

Lemma stable_reference_step lookup g nd : I g -> I (reference_step lookup g nd).
Proof.
  intros Hg. destruct nd as [n data]. unfold reference_step.
  destruct (is_type _ _); [| done].
  apply fold_left_preserves; [apply stable_link_standard |].
  apply fold_left_preserves; [apply stable_link_reference | done].
Qed.

Lemma stable_reference_links g : I g -> I (_create_reference_links g).
Proof. apply fold_left_preserves, stable_reference_step. Qed.

Lemma stable_link_passes es er g : I g -> I (link_passes es er g).
Proof.
  intros Hg. unfold link_passes.
  destruct es, er; auto using stable_structural_links, stable_reference_links.
Qed.

Lemma stable_build data_dir es er b b' r :
  build_from_directory data_dir es er b = Some (b', r) -> I (graph b) -> I (graph b').
Proof.
  unfold build_from_directory. destruct data_dir as [json_files |]; [| done].
  destruct (new_files json_files b) as [| f fs]; [by intros [= <- _] |].
  destruct (fold_left load_file _ _) as [documents processed].
  intros [= <- _] Hg. simpl. by apply stable_link_passes, stable_create_nodes.
Qed.

Lemma stable_built b : I Nx.empty -> built b -> I (graph b).
Proof.
  intros H0. induction 1 as [| d es er b b' r Hb IH Hbuild]; [done |].
  by eapply stable_build.
Qed.
End Stable.


(** ** Edges between two nodes *)

Lemma has_edge_add_node n a u v g : has_edge u v (add_node n a g) = has_edge u v g.
Proof. unfold has_edge, keys. by rewrite edges_add_node. Qed.

Lemma has_edge_key_add_node n a u v k g :
  has_edge_key u v k (add_node n a g) = has_edge_key u v k g.
Proof. unfold has_edge_key, keys. by rewrite edges_add_node. Qed.

Lemma other_links_add_node n a u v g : other_links u v (add_node n a g) = other_links u v g.
Proof. unfold other_links. by rewrite edges_add_node. Qed.

Lemma key0_ok_add_edge u v ty lm g : key0_ok g -> key0_ok (add_edge u v ty lm g).
Proof.
  intros Hg u' v' (e & He & Hu & Hv)%has_edge_true.
  rewrite edges_add_edge, elem_of_app, list_elem_of_singleton in He.
  destruct (has_edge u' v' g) eqn:E.
  - eapply has_edge_key_mono; [apply more_edges_add_edge | by apply Hg].
  - destruct He as [He | ->].
    + assert (has_edge u' v' g = true) by (apply has_edge_true; by exists e). congruence.
    + simpl in Hu, Hv. subst u' v'. apply has_edge_key_true. eexists.
      rewrite edges_add_edge, elem_of_app, list_elem_of_singleton.
      split; [by right |]. simpl. by rewrite new_edge_key_first.
Qed.

Lemma other_links_no_edge u v g : has_edge u v g = false -> other_links u v g = [].
Proof.
  intros Hno. destruct (other_links u v g) as [| e l] eqn:E; [done |].
  assert (He : e ∈ other_links u v g) by (rewrite E; left).
  unfold other_links in He. apply list_elem_of_filter in He as [[Hb _] He].
  apply between_true in Hb. rewrite has_edge_false in Hno. by destruct (Hno e He).
Qed.

Lemma other_links_add_edge u v ty lm g u' v' :
  other_links u' v' (add_edge u v ty lm g) =
  other_links u' v' g ++
  (if decide (between u' v' (mkEdge u v (new_edge_key u v g) ty lm) = true
              /\ ty <> CONTAINS_REQUIREMENT)
   then [mkEdge u v (new_edge_key u v g) ty lm] else []).
Proof.
  unfold other_links. by rewrite edges_add_edge, filter_app.
Qed.

Lemma link_inv_add_node n a g : link_inv g -> link_inv (add_node n a g).
Proof.
  intros [Hk Hl]. split.
  - intros u v. rewrite has_edge_add_node, has_edge_key_add_node. apply Hk.
  - intros u v. by rewrite other_links_add_node.
Qed.

Lemma link_inv_first u v ty lm g :
  has_edge u v g = false -> link_inv g -> link_inv (add_edge u v ty lm g).
Proof.
  intros Hno [Hk Hl]. split; [by apply key0_ok_add_edge |].
  intros u' v'. rewrite other_links_add_edge.
  destruct (decide _) as [[Hb _] |]; [| rewrite app_nil_r; apply Hl].
  apply between_true in Hb as [<- <-]. simpl.
  by rewrite other_links_no_edge.
Qed.

Lemma link_inv_requirement u v lm g :
  link_inv g -> link_inv (add_edge u v CONTAINS_REQUIREMENT lm g).
Proof.
  intros [Hk Hl]. split; [by apply key0_ok_add_edge |].
  intros u' v'. rewrite other_links_add_edge.
  destruct (decide _) as [[_ Hne] |]; [done |]. rewrite app_nil_r. apply Hl.
Qed.

Lemma link_inv_sibling u v g :
  has_edge_key u v 0 g = false -> link_inv g -> link_inv (add_edge u v SIBLING_OF structural g).
Proof.
  intros Hno Hg. apply link_inv_first; [| done].
  destruct Hg as [Hk _]. destruct (has_edge u v g) eqn:E; [| done].
  apply Hk in E. congruence.
Qed.

Lemma link_inv_empty : link_inv Nx.empty.
Proof. split; [intros u v H; by vm_compute in H | intros u v; simpl; lia]. Qed.

(** Every graph a builder goes through satisfies the invariant. *)
Lemma link_inv_built b : built b -> link_inv (graph b).
Proof.
  apply stable_built; auto using link_inv_add_node, link_inv_first, link_inv_sibling,
    link_inv_requirement, link_inv_empty.
Qed.

Lemma two_links_exceed u v ty1 ty2 g :
  ty1 <> ty2 -> ty1 <> CONTAINS_REQUIREMENT -> ty2 <> CONTAINS_REQUIREMENT ->
  has_typed_edge u v ty1 g = true -> has_typed_edge u v ty2 g = true ->
  2 <= length (other_links u v g).
Proof.
  intros Hne H1 H2 (e1 & He1 & Hu1 & Hv1 & Ht1)%has_typed_edge_true
         (e2 & He2 & Hu2 & Hv2 & Ht2)%has_typed_edge_true.
  assert (Hin1 : e1 ∈ other_links u v g).
  { apply list_elem_of_filter. split; [| done]. split; [by apply between_true | congruence]. }
  assert (Hin2 : e2 ∈ other_links u v g).
  { apply list_elem_of_filter. split; [| done]. split; [by apply between_true | congruence]. }
  destruct (other_links u v g) as [| x [| y l]]; simpl; [| | lia].
  - by apply elem_of_nil in Hin1.
  - apply list_elem_of_singleton in Hin1, Hin2. congruence.
Qed.

Lemma built_state_built json_files : built (Sample.built_state json_files).
Proof.
  unfold Sample.built_state.
  destruct (build_from_directory _ _ _ _) as [[b r] |] eqn:E; [| apply built_init].
  eapply built_step; [apply built_init | exact E].
Qed.

Lemma rebuilt_state_built json_files json_files' :
  built (Sample.rebuilt_state json_files json_files').
Proof.
  unfold Sample.rebuilt_state.
  destruct (build_from_directory _ _ _ _) as [[b r] |] eqn:E; [| apply built_init].
  eapply built_step; [apply built_state_built | exact E].
Qed.

(** C5 fails on the code. The clause of [Sample.dir_c1] is ingested, then
    ingested again from a second file: the builder now holds two
    [CONTAINS_REQUIREMENT] edges from the clause to its requirement; so it
    does when both files arrive in one build. *)
Theorem requirement_edge_duplicated :
  count_typed "c1" "c1::req_0" CONTAINS_REQUIREMENT
    (graph (Sample.rebuilt_state Sample.dir_c1 Sample.dir_c1_twice)) = 2 /\
  count_typed "c1" "c1::req_0" CONTAINS_REQUIREMENT
    (Sample.built_graph Sample.dir_c1_twice) = 2 /\
  built (Sample.rebuilt_state Sample.dir_c1 Sample.dir_c1_twice).
Proof.
  split_and!; [by vm_compute | by vm_compute | apply rebuilt_state_built].
Qed.

(** C6, as stated, fails: no build of a fresh builder yields a [PARENT_OF]
    and a [REFERENCES] edge between the same two nodes; for clause A,
    parent of B and referring to B, the build yields the [PARENT_OF] edge
    alone. *)
Lemma parent_and_reference_exclusive :
  (has_typed_edge "A" "B" PARENT_OF (Sample.built_graph Sample.dir_parent_ref) = true /\
   has_typed_edge "A" "B" REFERENCES (Sample.built_graph Sample.dir_parent_ref) = false) /\
  ~ (exists json_files a b,
       has_typed_edge a b PARENT_OF (Sample.built_graph json_files) = true /\
       has_typed_edge a b REFERENCES (Sample.built_graph json_files) = true).
Proof.
  split; [by vm_compute |].
  intros (json_files & a & b & Hp & Hr).
  destruct (link_inv_built _ (built_state_built json_files)) as [_ Hl].
  specialize (Hl a b).
  unfold Sample.built_graph in Hp, Hr.
  pose proof (two_links_exceed a b PARENT_OF REFERENCES
                (graph (Sample.built_state json_files))) as H2.
  specialize (H2 ltac:(done) ltac:(done) ltac:(done) Hp Hr). lia.
Qed.

(** C6, amended. In every graph a builder goes through, two nodes are
    joined by at most one edge that is not a [CONTAINS_REQUIREMENT] edge; in
    particular a [PARENT_OF] and a [REFERENCES] edge never join the same
    ordered pair. *)
Theorem one_link_between_nodes b :
  built b ->
  forall u v,
    length (other_links u v (graph b)) <= 1 /\
    ~ (has_typed_edge u v PARENT_OF (graph b) = true /\
       has_typed_edge u v REFERENCES (graph b) = true).
Proof.
  intros Hb u v. destruct (link_inv_built b Hb) as [_ Hl]. split; [apply Hl |].
  intros [Hp Hr]. specialize (Hl u v).
  pose proof (two_links_exceed u v PARENT_OF REFERENCES (graph b)) as H2.
  specialize (H2 ltac:(done) ltac:(done) ltac:(done) Hp Hr). lia.
Qed.

Lemma one_link_between_nodes_witness :
  length (other_links "A" "B" (Sample.built_graph Sample.dir_parent_ref)) <= 1 /\
  ~ (has_typed_edge "A" "B" PARENT_OF (Sample.built_graph Sample.dir_parent_ref) = true /\
     has_typed_edge "A" "B" REFERENCES (Sample.built_graph Sample.dir_parent_ref) = true).
Proof.
  apply (one_link_between_nodes (Sample.built_state Sample.dir_parent_ref)).
  apply built_state_built.
Defined.


(** ** Files and documents of a build *)

(** The loading loop: the documents of the files that load, in order, and
    their keys added to the processed files. *)
Lemma load_loop new documents processed :
  fold_left load_file new (documents, processed) =
  (documents ++ omap load new,
   list_to_set (rel_path <$> filter (fun f => is_Some (load f)) new) ∪ processed).
Proof.
  revert documents processed.
  induction new as [| f new IH]; intros documents processed; simpl.
  - rewrite app_nil_r. f_equal. by rewrite (left_id_L ∅ (∪)).
  - unfold load_file at 2. rewrite filter_cons. destruct (load f) as [d |] eqn:E; simpl.
    + rewrite IH, <- app_assoc. simpl. f_equal.
      apply set_eq. intros x. rewrite !elem_of_union. tauto.
    + by rewrite IH.
Qed.

(** A document without [chunk_id] or [document_id] is skipped by node
    creation. *)
Lemma create_nodes_skips documents g :
  _create_nodes documents g = _create_nodes (filter (fun d => has_ids d = true) documents) g.
Proof.
  unfold _create_nodes. generalize (∅ : gset string, g).
  induction documents as [| d documents IH]; intros st; [done |].
  rewrite filter_cons. simpl. destruct (decide (has_ids d = true)) as [Hd | Hd]; simpl.
  - apply IH.
  - rewrite <- IH. f_equal. unfold create_doc_nodes. destruct st as [stds g0].
    unfold has_ids in Hd. apply not_true_is_false in Hd.
    rewrite <- negb_orb, negb_false_iff in Hd. by rewrite Hd.
Qed.

Lemma NoDup_fmap_eq {X Y} (f : X -> Y) (l : list X) x y :
  NoDup (f <$> l) -> x ∈ l -> y ∈ l -> f x = f y -> x = y.
Proof.
  induction l as [| a l IH]; simpl; intros Hnd Hx Hy Hf; [by apply elem_of_nil in Hx |].
  apply NoDup_cons in Hnd as [Ha Hnd].
  apply elem_of_cons in Hx as [-> | Hx]; apply elem_of_cons in Hy as [-> | Hy].
  - done.
  - destruct Ha. rewrite Hf. by apply list_elem_of_fmap_2.
  - destruct Ha. rewrite <- Hf. by apply list_elem_of_fmap_2.
  - by apply IH.
Qed.

(** What a build over an existing directory does to the builder. *)
Lemma build_no_new json_files es er b :
  new_files json_files b = [] ->
  exists r, build_from_directory (Some json_files) es er b = Some (b, r) /\
            new_files_processed r = 0.
Proof. intros E. unfold build_from_directory. rewrite E. by eexists. Qed.

Lemma build_new json_files es er b :
  new_files json_files b <> [] ->
  exists r,
    build_from_directory (Some json_files) es er b =
    Some (mkState
            (link_passes es er
               (_create_nodes (omap load (new_files json_files b)) (graph b)))
            (list_to_set
               (rel_path <$> filter (fun f => is_Some (load f)) (new_files json_files b))
               ∪ processed_files b), r) /\
    new_files_processed r = length (new_files json_files b).
Proof.
  intros E. unfold build_from_directory.
  destruct (new_files json_files b) as [| f fs]; [done |].
  rewrite load_loop. simpl. by eexists.
Qed.

(** A file that does not load, in a directory of files with distinct
    keys, is not among the keys the build marks. *)
Lemma failed_not_marked json_files b f :
  NoDup (rel_path <$> json_files) ->
  f ∈ new_files json_files b -> load f = None ->
  rel_path f ∉ list_to_set (C := gset string)
                 (rel_path <$> filter (fun f => is_Some (load f)) (new_files json_files b))
               ∪ processed_files b.
Proof.
  intros Hnd Hf Hload. unfold new_files in Hf at 1.
  apply list_elem_of_filter in Hf as [Hnew Hin].
  rewrite elem_of_union, elem_of_list_to_set. intros [Hk | Hk]; [| done].
  apply list_elem_of_fmap in Hk as (f' & Heq & Hf').
  apply list_elem_of_filter in Hf' as [[d Hd] Hf'].
  unfold new_files in Hf'. apply list_elem_of_filter in Hf' as [_ Hin'].
  assert (f = f') by (by eapply NoDup_fmap_eq). congruence.
Qed.

(** C10. A build over a directory of files with distinct keys reports as
    [new_files_processed] the number of files not processed before, whether
    they load or not.  A file that does not load is not marked as processed
    and is again a new file for the next build; a file that loads is marked,
    with or without [chunk_id] and [document_id]; the graph is built from
    the loaded documents that carry both, the others add nothing to it. *)
Theorem new_files_counted json_files es er b :
  NoDup (rel_path <$> json_files) ->
  exists b' r,
    build_from_directory (Some json_files) es er b = Some (b', r) /\
    let new := new_files json_files b in
    new_files_processed r = length new /\
    (forall f, f ∈ new -> load f = None ->
       (rel_path f ∉ processed_files b') /\ f ∈ new_files json_files b') /\
    (forall f d, f ∈ new -> load f = Some d -> rel_path f ∈ processed_files b') /\
    (new <> [] ->
       graph b' = link_passes es er
                    (_create_nodes (filter (fun d => has_ids d = true) (omap load new))
                                   (graph b))) /\
    (new = [] -> b' = b).
Proof.
  intros Hnd. destruct (decide (new_files json_files b = [])) as [E | E].
  - destruct (build_no_new json_files es er b E) as (r & Hr & Hcount).
    exists b, r. split; [exact Hr |]. cbv zeta. rewrite E.
    split_and!; [done | intros f Hf | intros f d Hf | done | done];
      by apply elem_of_nil in Hf.
  - destruct (build_new json_files es er b E) as (r & Hr & Hcount).
    eexists _, r. split; [exact Hr |]. cbv zeta.
    split_and!; [done | | | | done].
    + intros f Hf Hload. cbn [processed_files].
      split; [by apply failed_not_marked |].
      unfold new_files at 1. cbn [processed_files]. apply list_elem_of_filter.
      split; [by apply failed_not_marked |].
      unfold new_files in Hf. by apply list_elem_of_filter in Hf as [_ ?].
    + intros f d Hf Hload. cbn [processed_files].
      rewrite elem_of_union, elem_of_list_to_set. left.
      apply list_elem_of_fmap_2, list_elem_of_filter. split; [by exists d | done].
    + intros _. cbn [graph]. by rewrite <- create_nodes_skips.
Qed.

Lemma new_files_counted_witness :
  exists b' r,
    build_from_directory (Some Sample.dir_faulty) true true init = Some (b', r) /\
    new_files_processed r = 3 /\
    ("broken.json" ∉ processed_files b') /\
    "nameless.json" ∈ processed_files b'.
Proof.
  destruct (new_files_counted Sample.dir_faulty true true init)
    as (b' & r & Hb & Hcount & Hfail & Hload & _).
  { apply (bool_decide_unpack _). by vm_compute. }
  exists b', r. split; [exact Hb |]. split; [exact Hcount |]. split.
  - apply (Hfail (mkFile "broken.json" None)); [| done].
    apply (list_elem_of_lookup_2 _ 1). by vm_compute.
  - apply (Hload (mkFile "nameless.json" (Some Sample.anonymous)) Sample.anonymous); [| done].
    apply (list_elem_of_lookup_2 _ 2). by vm_compute.
Defined.

(** ** The reference pass *)

(** A build only ever appends edges. *)
Section MoreEdges.
Variable g0 : Graph.

Let I (g : Graph) : Prop := more_edges g0 g.

Lemma more_edges_after_add_node n a g : I g -> I (add_node n a g).
Proof. intros H. eapply more_edges_trans; [exact H | apply more_edges_add_node]. Qed.

Lemma more_edges_after_add_edge u v ty lm g : I g -> I (add_edge u v ty lm g).
Proof. intros H. eapply more_edges_trans; [exact H | apply more_edges_add_edge]. Qed.
End MoreEdges.

Lemma more_edges_link_reference lookup n g r : more_edges g (link_reference lookup n g r).
Proof.
  apply (stable_link_reference (more_edges g)); [| apply more_edges_refl].
  intros; by apply more_edges_after_add_edge.
Qed.

Lemma more_edges_link_standard n g s : more_edges g (link_standard n g s).
Proof.
  apply (stable_link_standard (more_edges g)); [| | apply more_edges_refl].
  - intros; by apply more_edges_after_add_node.
  - intros; by apply more_edges_after_add_edge.
Qed.

Lemma more_edges_fold {X} (f : Graph -> X -> Graph) l g :
  (forall g x, more_edges g (f g x)) -> more_edges g (fold_left f l g).
Proof.
  intros Hf. apply (fold_left_preserves (more_edges g)); [| apply more_edges_refl].
  intros g1 x H. eapply more_edges_trans; [exact H | apply Hf].
Qed.

Lemma more_edges_reference_step lookup g nd : more_edges g (reference_step lookup g nd).
Proof.
  apply (stable_reference_step (more_edges g)); [| | apply more_edges_refl].
  - intros; by apply more_edges_after_add_node.
  - intros; by apply more_edges_after_add_edge.
Qed.

(** The edges a step of the reference pass adds leave the node of the step. *)
Lemma link_reference_src lookup n g r e :
  e ∈ edges (link_reference lookup n g r) ->
  e ∈ edges g \/ (src e = n /\ edge_type e = REFERENCES).
Proof.
  unfold link_reference. destruct (lookup !! r) as [m |]; [| by left].
  destruct (has_edge n m g); [by left |].
  rewrite edges_add_edge, elem_of_app, list_elem_of_singleton.
  intros [H | ->]; [by left | by right].
Qed.

Lemma link_standard_src n g s e :
  e ∈ edges (link_standard n g s) -> e ∈ edges g \/ src e = n.
Proof.
  unfold link_standard. set (g1 := if has_node _ g then g else _).
  assert (H1 : edges g1 = edges g).
  { unfold g1. destruct (has_node _ g); [done | apply edges_add_node]. }
  destruct (has_edge _ _ g1); [rewrite H1; by left |].
  rewrite edges_add_edge, elem_of_app, list_elem_of_singleton, H1.
  intros [H | ->]; [by left | by right].
Qed.

Lemma fold_src {X} (f : Graph -> X -> Graph) n l g e :
  (forall g x e, e ∈ edges (f g x) -> e ∈ edges g \/ src e = n) ->
  e ∈ edges (fold_left f l g) -> e ∈ edges g \/ src e = n.
Proof.
  intros Hf. revert g. induction l as [| x l IH]; intros g He; simpl in He; [by left |].
  apply IH in He as [He | He]; [| by right]. by apply Hf in He.
Qed.

Lemma reference_step_src lookup g n data e :
  e ∈ edges (reference_step lookup g (n, data)) -> e ∈ edges g \/ src e = n.
Proof.
  unfold reference_step. destruct (is_type _ _); [| by left].
  intros He. apply (fold_src _ n) in He as [He | He]; [| by right | apply link_standard_src].
  apply (fold_src _ n) in He as [He | He]; [by left | by right |].
  intros g1 x e1 H. apply link_reference_src in H. tauto.
Qed.

(** While every edge from [n] to [m] is a [REFERENCES] edge, the loop over
    the internal references of [n] leaves such an edge for each reference
    that resolves to [m]. *)
Lemma internal_loop_links lookup n m r refs g :
  (forall e, e ∈ edges g -> src e = n -> dst e = m -> edge_type e = REFERENCES) ->
  r ∈ refs -> lookup !! r = Some m ->
  has_typed_edge n m REFERENCES (fold_left (link_reference lookup n) refs g) = true.
Proof.
  revert g. induction refs as [| r' refs IH]; intros g HK Hr Hm; [by apply elem_of_nil in Hr |].
  simpl. apply elem_of_cons in Hr as [<- | Hr].
  - eapply has_typed_edge_mono; [apply more_edges_fold, more_edges_link_reference |].
    unfold link_reference. rewrite Hm.
    destruct (has_edge n m g) eqn:E; [| apply has_typed_edge_add_edge].
    apply has_edge_true in E as (e & He & Hu & Hv).
    apply has_typed_edge_true. exists e. split_and!; [done | done | done | by apply HK].
  - apply IH; [| done | done].
    intros e [He | [_ Ht]]%link_reference_src Hu Hv; [by apply HK | done].
Qed.

(** A resolved internal reference between two nodes that no edge joins
    yet gets its [REFERENCES] edge. *)
Lemma reference_added g n data r m :
  NoDup (node_ids g) -> (n, data) ∈ nodes g -> is_type "Clause" data = true ->
  r ∈ internal_resolved (get_refs "references" data) ->
  clause_lookup g !! r = Some m ->
  has_edge n m g = false ->
  has_typed_edge n m REFERENCES (_create_reference_links g) = true.
Proof.
  intros Hnd Hin Hty Hr Hm Hno. unfold _create_reference_links.
  generalize dependent (clause_lookup g). intros lookup Hm.
  apply list_elem_of_split in Hin as (l1 & l2 & Hl).
  unfold node_ids in Hnd. rewrite Hl in *. rewrite fold_left_app. simpl fold_left.
  eapply has_typed_edge_mono; [apply more_edges_fold, more_edges_reference_step |].
  set (g1 := fold_left (reference_step lookup) l1 g).
  assert (HK : forall e, e ∈ edges g1 -> src e = n -> dst e = m -> edge_type e = REFERENCES).
  { intros e He Hu Hv. exfalso.
    assert (Hn1 : n ∉ l1.*1).
    { rewrite fmap_app, fmap_cons in Hnd. apply NoDup_app in Hnd as (_ & Hd & _).
      intros Hn. apply (Hd n Hn). simpl. by left. }
    assert (G : forall l g', (forall e, e ∈ edges g' -> ~ (src e = n /\ dst e = m)) ->
                n ∉ l.*1 ->
                forall e, e ∈ edges (fold_left (reference_step lookup) l g') ->
                          ~ (src e = n /\ dst e = m)).
    { clear. induction l as [| [k d] l IH]; intros g' Hg' Hn e He; simpl in He; [by apply Hg' |].
      rewrite fmap_cons, not_elem_of_cons in Hn. destruct Hn as [Hk Hn].
      eapply IH; [| exact Hn | exact He].
      intros e' [He' | He']%reference_step_src; [by apply Hg' |].
      simpl in Hk. intros [? _]. congruence. }
    apply (G l1 g (proj1 (has_edge_false n m g) Hno) Hn1 e He). done. }
  unfold reference_step. rewrite Hty.
  eapply has_typed_edge_mono; [apply more_edges_fold, more_edges_link_standard |].
  by apply internal_loop_links with r.
Qed.

(** A resolved internal reference between two nodes that some edge joins
    already gets no [REFERENCES] edge. *)
Lemma reference_skipped g n m :
  has_edge n m g = true ->
  count_typed n m REFERENCES (_create_reference_links g) = count_typed n m REFERENCES g.
Proof.
  intros Hyes.
  set (I := fun g' => has_edge n m g' = true /\
                      count_typed n m REFERENCES g' = count_typed n m REFERENCES g).
  assert (Hnode : forall k a g', I g' -> I (add_node k a g')).
  { intros k a g' [H1 H2]. split; [by rewrite has_edge_add_node |].
    unfold count_typed in *. by rewrite edges_add_node. }
  assert (Hedge : forall u v ty lm g', ty <> CONTAINS_REQUIREMENT ->
                    has_edge u v g' = false -> I g' -> I (add_edge u v ty lm g')).
  { intros u v ty lm g' _ Hno [H1 H2]. split.
    - eapply has_edge_mono; [apply more_edges_add_edge | done].
    - unfold count_typed in *. rewrite edges_add_edge, filter_app, length_app, H2.
      rewrite filter_cons, filter_nil. simpl.
      destruct (decide _) as [Hb |]; [| simpl; lia].
      apply andb_true_iff in Hb as [Hb _]. apply between_true in Hb. simpl in Hb.
      destruct Hb as [-> ->]. congruence. }
  assert (HI : I (_create_reference_links g)); [| by destruct HI].
  unfold _create_reference_links. apply fold_left_preserves; [| by split].
  intros g' [k d] Hg'. unfold reference_step. destruct (is_type _ _); [| done].
  apply fold_left_preserves.
  - intros g1 s Hg1. unfold link_standard.
    set (g2 := if has_node _ g1 then g1 else _).
    assert (Hg2 : I g2) by (unfold g2; destruct (has_node _ g1); [done | by apply Hnode]).
    destruct (has_edge _ _ g2) eqn:E; [done | by apply Hedge].
  - apply fold_left_preserves; [| done].
    intros g1 r Hg1. unfold link_reference. destruct (_ !! r); [| done].
    destruct (has_edge _ _ g1) eqn:E; [done | by apply Hedge].
Qed.

(** C9, as stated, fails: clause A of [Sample.dir_parent_ref] refers to
    "5.1", which resolves to B, and the reference pass adds no [REFERENCES]
    edge from A to B, since the structural pass joined them already. *)
Lemma resolved_reference_without_edge :
  ~ (forall g n data r m,
       NoDup (node_ids g) -> (n, data) ∈ nodes g -> is_type "Clause" data = true ->
       r ∈ internal_resolved (get_refs "references" data) ->
       clause_lookup g !! r = Some m ->
       has_typed_edge n m REFERENCES (_create_reference_links g) = true).
Proof.
  intros H.
  assert (Hf : has_typed_edge "A" "B" REFERENCES
                 (_create_reference_links Sample.graph_before_references) = false)
    by (by vm_compute).
  rewrite (H Sample.graph_before_references "A"
             (default ∅ (node_data "A" Sample.graph_before_references)) "5.1" "B") in Hf.
  - done.
  - apply (bool_decide_unpack _). by vm_compute.
  - apply node_data_elem_of. by vm_compute.
  - by vm_compute.
  - apply (bool_decide_unpack _). by vm_compute.
  - by vm_compute.
Qed.

(** C9, amended. In the reference pass over a graph whose node ids are
    distinct, an entry of a Clause's internal references that resolves via
    the clause_id lookup gets a [REFERENCES] edge from the clause to the
    resolved node when no edge of any type joins them yet, and gets none
    when one does; either way an edge joins them after the pass. *)
Theorem reference_edge_unless_linked g n data r m :
  NoDup (node_ids g) -> (n, data) ∈ nodes g -> is_type "Clause" data = true ->
  r ∈ internal_resolved (get_refs "references" data) ->
  clause_lookup g !! r = Some m ->
  let g' := _create_reference_links g in
  (has_edge n m g = false -> has_typed_edge n m REFERENCES g' = true) /\
  (has_edge n m g = true ->
     count_typed n m REFERENCES g' = count_typed n m REFERENCES g) /\
  has_edge n m g' = true.
Proof.
  intros Hnd Hin Hty Hr Hm g'. split_and!.
  - intros Hno. by eapply reference_added.
  - apply reference_skipped.
  - destruct (has_edge n m g) eqn:E.
    + eapply has_edge_mono; [| exact E].
      apply more_edges_fold, more_edges_reference_step.
    + assert (Ht : has_typed_edge n m REFERENCES g' = true) by (by eapply reference_added).
      apply has_typed_edge_true in Ht as (e & He & Hu & Hv & _).
      apply has_edge_true. by exists e.
Qed.

Lemma reference_edge_unless_linked_witness :
  has_typed_edge "A" "B" REFERENCES
    (_create_reference_links Sample.graph_without_structure) = true /\
  has_edge "A" "B" (_create_reference_links Sample.graph_without_structure) = true.
Proof.
  destruct (reference_edge_unless_linked Sample.graph_without_structure "A"
              (default ∅ (node_data "A" Sample.graph_without_structure)) "5.1" "B")
    as (Hadd & _ & Hedge).
  - apply (bool_decide_unpack _). by vm_compute.
  - apply node_data_elem_of. by vm_compute.
  - by vm_compute.
  - apply (bool_decide_unpack _). by vm_compute.
  - by vm_compute.
  - split; [apply Hadd; by vm_compute | exact Hedge].
Defined.

(** ** Running the link passes again *)

Lemma grows_refl g : grows g g.
Proof. split; [apply more_edges_refl | apply more_nodes_refl]. Qed.

Lemma grows_trans g1 g2 g3 : grows g1 g2 -> grows g2 g3 -> grows g1 g3.
Proof.
  intros [E1 N1] [E2 N2].
  split; [by eapply more_edges_trans | by eapply more_nodes_trans].
Qed.

Lemma grows_add_edge u v ty lm g :
  has_node u g = true -> has_node v g = true -> grows g (add_edge u v ty lm g).
Proof.
  intros Hu Hv. split; [apply more_edges_add_edge |].
  exists []. by rewrite nodes_add_edge, app_nil_r.
Qed.

Lemma grows_add_node_new n a g :
  has_node n g = false -> is_type "Clause" a = false -> grows g (add_node n a g).
Proof.
  intros Hn Ha. split; [apply more_edges_add_node |].
  exists [(n, a)]. rewrite node_ids_add_node_new by done. split; [done |]. by constructor.
Qed.

Lemma lookup_ok_grows lookup g g' : grows g g' -> lookup_ok lookup g -> lookup_ok lookup g'.
Proof. intros [_ Hn] Hl k n Hk. eapply has_node_mono; [done | by eapply Hl]. Qed.

Lemma key0_ok_add_node n a g : key0_ok g -> key0_ok (add_node n a g).
Proof. intros Hg u v. rewrite has_edge_add_node, has_edge_key_add_node. apply Hg. Qed.

Lemma fold_left_grows {X} (ok : Graph -> Prop) (f : Graph -> X -> Graph) l g :
  (forall g x, ok g -> grows g (f g x) /\ ok (f g x)) ->
  ok g -> grows g (fold_left f l g) /\ ok (fold_left f l g).
Proof.
  intros Hf. revert g. induction l as [| x l IH]; intros g Hg; simpl.
  - split; [apply grows_refl | done].
  - destruct (Hf g x Hg) as [Hgr Hok]. destruct (IH _ Hok) as [Hgr' Hok'].
    split; [by eapply grows_trans | done].
Qed.

Lemma fold_left_noop {X} (f : Graph -> X -> Graph) l g :
  (forall x, x ∈ l -> f g x = g) -> fold_left f l g = g.
Proof.
  induction l as [| x l IH]; intros H; simpl; [done |].
  rewrite H by left. apply IH. intros y Hy. apply H. by right.
Qed.

(** *** The lookup *)

Lemma clause_lookup_ok g : lookup_ok (clause_lookup g) g.
Proof.
  unfold clause_lookup, lookup_ok. setoid_rewrite has_node_true. unfold node_ids.
  assert (G : forall (l : list (string * Attrs)) (X : list string) (m : gmap string string),
             (forall k n, m !! k = Some n -> n ∈ X) -> l.*1 ⊆ X ->
             forall k n,
               fold_left (fun (m : gmap string string) (nd : string * Attrs) =>
                            if is_type "Clause" nd.2 && truthy (get_str "clause_id" nd.2)
                            then <[default EmptyString (get_str "clause_id" nd.2) := nd.1]> m else m)
                         l m !! k = Some n -> n ∈ X).
  { induction l as [| [id data] l IH]; intros X m Hm Hl k n; simpl; [apply Hm |].
    apply IH.
    - destruct (_ && _); [| done]. intros k' n'. rewrite lookup_insert.
      case_decide; [| apply Hm]. intros [= <-]. apply Hl. by left.
    - intros x Hx. apply Hl. by right. }
  apply G; [intros k n; by rewrite lookup_empty | done].
Qed.

Lemma clause_lookup_more_nodes g g' : more_nodes g g' -> clause_lookup g' = clause_lookup g.
Proof.
  intros (ns & Hn & Hns). unfold clause_lookup. rewrite Hn, fold_left_app.
  generalize (fold_left
    (fun (m : gmap string string) (nd : string * Attrs) =>
       if is_type "Clause" nd.2 && truthy (get_str "clause_id" nd.2)
       then <[default EmptyString (get_str "clause_id" nd.2) := nd.1]> m else m) (nodes g) ∅).
  clear Hn. induction Hns as [| nd ns Hnd Hns IH]; intros m; simpl; [done |].
  rewrite Hnd. simpl. apply IH.
Qed.

Lemma resolve_parent_node lookup g data p :
  lookup_ok lookup g -> resolve_parent lookup data = Some p -> has_node p g = true.
Proof.
  unfold resolve_parent. intros Hl. destruct (get_str _ _) as [pid |]; [| done].
  destruct (truthy _); [| done]. apply Hl.
Qed.

(** *** The structural pass *)

Lemma pass_ready_grows lookup g g' :
  grows g g' -> key0_ok g' -> pass_ready lookup g -> pass_ready lookup g'.
Proof. intros Hgr Hk [_ Hl]. split; [done | by eapply lookup_ok_grows]. Qed.

Lemma link_sibling_grows lookup n c g s :
  pass_ready lookup g -> has_node n g = true ->
  grows g (link_sibling lookup n c g s) /\ key0_ok (link_sibling lookup n c g s).
Proof.
  intros [Hk Hl] Hn. unfold link_sibling.
  destruct (bool_decide _); [| split; [apply grows_refl | done]].
  destruct (lookup !! s) as [sn |] eqn:E; [| split; [apply grows_refl | done]].
  destruct (has_edge_key _ _ _ _); [split; [apply grows_refl | done] |].
  split; [apply grows_add_edge; [done | by eapply Hl] | by apply key0_ok_add_edge].
Qed.

Lemma fold_link_sibling_grows lookup n c l g :
  pass_ready lookup g -> has_node n g = true ->
  grows g (fold_left (link_sibling lookup n c) l g) /\
  key0_ok (fold_left (link_sibling lookup n c) l g).
Proof.
  intros Hr Hn.
  destruct (fold_left_grows (fun g => pass_ready lookup g /\ has_node n g = true)
              (link_sibling lookup n c) l g) as [Hgr [[Hk _] _]]; [| done | done].
  intros g1 x [Hr1 Hn1]. destruct (link_sibling_grows lookup n c g1 x Hr1 Hn1) as [Hgr Hk].
  split; [done |]. split; [by eapply pass_ready_grows |].
  destruct Hgr as [_ Hnodes]. by eapply has_node_mono.
Qed.

Lemma link_sibling_key0 lookup n c g s sn :
  key0_ok g -> s <> c -> lookup !! s = Some sn ->
  has_edge_key n sn 0 (link_sibling lookup n c g s) = true.
Proof.
  intros Hk Hne Hs. unfold link_sibling.
  rewrite bool_decide_eq_true_2 by done. rewrite Hs.
  destruct (has_edge_key n sn 0 g) eqn:E; [done |].
  assert (Hno : has_edge n sn g = false).
  { destruct (has_edge n sn g) eqn:E'; [| done]. apply Hk in E'. congruence. }
  apply has_edge_key_true. eexists. rewrite edges_add_edge, elem_of_app, list_elem_of_singleton.
  split; [by right |]. simpl. by rewrite new_edge_key_first.
Qed.

Lemma fold_link_sibling_sat lookup n c l g s sn :
  pass_ready lookup g -> has_node n g = true ->
  s ∈ l -> s <> c -> lookup !! s = Some sn ->
  has_edge_key n sn 0 (fold_left (link_sibling lookup n c) l g) = true.
Proof.
  revert g. induction l as [| x l IH]; intros g Hr Hn Hs Hne Hlk; [by apply elem_of_nil in Hs |].
  simpl. destruct (link_sibling_grows lookup n c g x Hr Hn) as [Hgr Hk].
  apply elem_of_cons in Hs as [<- | Hs].
  - destruct (fold_link_sibling_grows lookup n c l (link_sibling lookup n c g s))
      as [[He _] _].
    + by eapply pass_ready_grows.
    + destruct Hgr as [_ Hnodes]. by eapply has_node_mono.
    + eapply has_edge_key_mono; [exact He |]. apply link_sibling_key0; [by destruct Hr | done | done].
  - apply IH; [by eapply pass_ready_grows | | done | done | done].
    destruct Hgr as [_ Hnodes]. by eapply has_node_mono.
Qed.

Lemma structural_step_grows lookup g nd :
  pass_ready lookup g -> has_node nd.1 g = true ->
  grows g (structural_step lookup g nd) /\ key0_ok (structural_step lookup g nd).
Proof.
  destruct nd as [n data]. simpl. intros Hr Hn. unfold structural_step.
  destruct (is_type _ _); [| split; [apply grows_refl | by destruct Hr]].
  destruct (resolve_parent _ _) as [p |] eqn:Hp; [| split; [apply grows_refl | by destruct Hr]].
  assert (Hpn : has_node p g = true) by (destruct Hr; by eapply resolve_parent_node).
  set (g1 := if has_edge p n g then g else add_edge p n PARENT_OF structural g).
  assert (H1 : grows g g1 /\ key0_ok g1).
  { unfold g1. destruct (has_edge p n g); [split; [apply grows_refl | by destruct Hr] |].
    split; [by apply grows_add_edge | apply key0_ok_add_edge; by destruct Hr]. }
  destruct H1 as [Hgr Hk].
  destruct (get_str _ _) as [c |]; [| done].
  destruct (bool_decide _); [| done].
  destruct (fold_link_sibling_grows lookup n c
              (get_list "children_ids" (default ∅ (node_data p g1))) g1) as [Hgr' Hk'].
  - by eapply pass_ready_grows.
  - destruct Hgr as [_ Hnodes]. by eapply has_node_mono.
  - split; [by eapply grows_trans | done].
Qed.

Lemma structural_step_sat lookup g nd :
  pass_ready lookup g -> has_node nd.1 g = true ->
  structural_sat lookup (structural_step lookup g nd) nd.
Proof.
  destruct nd as [n data]. intros Hr Hn Hty p Hp. simpl in *.
  unfold structural_step. rewrite Hty, Hp.
  assert (Hpn : has_node p g = true) by (destruct Hr; by eapply resolve_parent_node).
  set (g1 := if has_edge p n g then g else add_edge p n PARENT_OF structural g).
  assert (H1 : grows g g1 /\ key0_ok g1 /\ has_edge p n g1 = true).
  { unfold g1. destruct (has_edge p n g) eqn:E; [split_and!; [apply grows_refl | by destruct Hr | done] |].
    split_and!; [by apply grows_add_edge | apply key0_ok_add_edge; by destruct Hr |].
    apply has_edge_add_edge. }
  destruct H1 as (Hgr & Hk & He).
  assert (Hr1 : pass_ready lookup g1) by (by eapply pass_ready_grows).
  assert (Hn1 : has_node n g1 = true) by (destruct Hgr as [_ Hnodes]; by eapply has_node_mono).
  assert (Hp1 : has_node p g1 = true) by (destruct Hgr as [_ Hnodes]; by eapply has_node_mono).
  destruct (get_str "clause_id" data) as [c |] eqn:Hc; [| by split].
  destruct (bool_decide _) eqn:Hb.
  - destruct (fold_link_sibling_grows lookup n c
                (get_list "children_ids" (default ∅ (node_data p g1))) g1 Hr1 Hn1)
      as [[He' Hn'] _].
    split; [by eapply has_edge_mono |].
    intros c' [= <-]. rewrite (node_data_mono g1) by done.
    intros Hin s sn Hs Hne Hlk. by apply fold_link_sibling_sat with s.
  - split; [done |]. intros c' [= <-] Hin. apply bool_decide_eq_false in Hb. done.
Qed.

Lemma structural_sat_mono lookup g g' nd :
  grows g g' -> pass_ready lookup g -> structural_sat lookup g nd -> structural_sat lookup g' nd.
Proof.
  intros [He Hn] [_ Hl] Hsat Hty p Hp. destruct (Hsat Hty p Hp) as [Hpe Hs].
  split; [by eapply has_edge_mono |].
  intros c Hc. cbv zeta. rewrite (node_data_mono g) by (done || by eapply resolve_parent_node).
  intros Hin s sn Hs' Hne Hlk. eapply has_edge_key_mono; [done |]. by eapply Hs.
Qed.

Lemma structural_noop lookup g nd :
  structural_sat lookup g nd -> structural_step lookup g nd = g.
Proof.
  destruct nd as [n data]. intros Hsat. unfold structural_step.
  destruct (is_type "Clause" data) eqn:Hty; [| done].
  destruct (resolve_parent lookup data) as [p |] eqn:Hp; [| done].
  destruct (Hsat Hty p Hp) as [He Hs]. simpl in *. rewrite He.
  destruct (get_str "clause_id" data) as [c |]; [| done].
  destruct (bool_decide _) eqn:Hb; [| done]. apply bool_decide_eq_true in Hb.
  apply fold_left_noop. intros s Hin. unfold link_sibling.
  destruct (bool_decide (s <> c)) eqn:Hne; [| done]. apply bool_decide_eq_true in Hne.
  destruct (lookup !! s) as [sn |] eqn:Hlk; [| done].
  by rewrite (Hs c eq_refl Hb s sn Hin Hne Hlk).
Qed.

(** *** The reference pass *)

Lemma external_not_clause s : is_type "Clause" (external_attrs s) = false.
Proof.
  unfold is_type, external_attrs. rewrite lookup_insert_eq. by apply bool_decide_eq_false.
Qed.

Lemma link_reference_grows lookup n g r :
  pass_ready lookup g -> has_node n g = true ->
  grows g (link_reference lookup n g r) /\ key0_ok (link_reference lookup n g r).
Proof.
  intros [Hk Hl] Hn. unfold link_reference.
  destruct (lookup !! r) as [m |] eqn:E; [| split; [apply grows_refl | done]].
  destruct (has_edge _ _ _); [split; [apply grows_refl | done] |].
  split; [apply grows_add_edge; [done | by eapply Hl] | by apply key0_ok_add_edge].
Qed.

Lemma link_standard_spec n g s :
  key0_ok g -> has_node n g = true ->
  grows g (link_standard n g s) /\ key0_ok (link_standard n g s) /\
  has_node ("EXT::" ++ s)%string (link_standard n g s) = true /\
  has_edge n ("EXT::" ++ s)%string (link_standard n g s) = true.
Proof.
  intros Hk Hn. unfold link_standard.
  set (id := ("EXT::" ++ s)%string).
  set (g1 := if has_node id g then g else add_node id (external_attrs s) g).
  assert (H1 : grows g g1 /\ key0_ok g1 /\ has_node id g1 = true).
  { unfold g1. destruct (has_node id g) eqn:E; [split_and!; [apply grows_refl | done | done] |].
    split_and!; [apply grows_add_node_new; [done | apply external_not_clause] | |].
    - by apply key0_ok_add_node.
    - apply has_node_add_node. }
  destruct H1 as (Hgr & Hk1 & Hid).
  assert (Hn1 : has_node n g1 = true) by (destruct Hgr as [_ Hnodes]; by eapply has_node_mono).
  destruct (has_edge n id g1) eqn:E; [done |].
  split_and!.
  - eapply grows_trans; [exact Hgr | by apply grows_add_edge].
  - by apply key0_ok_add_edge.
  - by apply has_node_add_edge_mono.
  - apply has_edge_add_edge.
Qed.

Lemma reference_step_grows lookup g nd :
  pass_ready lookup g -> has_node nd.1 g = true ->
  grows g (reference_step lookup g nd) /\ key0_ok (reference_step lookup g nd).
Proof.
  destruct nd as [n data]. simpl. intros Hr Hn. unfold reference_step.
  destruct (is_type _ _); [| split; [apply grows_refl | by destruct Hr]].
  set (ok := fun g => pass_ready lookup g /\ has_node n g = true).
  destruct (fold_left_grows ok (link_reference lookup n)
              (internal_resolved (get_refs "references" data)) g) as [Hgr Hok]; [| done |].
  { intros g1 r [Hr1 Hn1]. destruct (link_reference_grows lookup n g1 r Hr1 Hn1) as [Hg Hk].
    split; [done |]. split; [by eapply pass_ready_grows |].
    destruct Hg as [_ Hnodes]. by eapply has_node_mono. }
  destruct (fold_left_grows ok (link_standard n)
              (standards (get_refs "references" data))
              (fold_left (link_reference lookup n)
                         (internal_resolved (get_refs "references" data)) g))
    as [Hgr' [[Hk' _] _]]; [| done |].
  { intros g1 s [[Hk1 Hl1] Hn1]. destruct (link_standard_spec n g1 s Hk1 Hn1) as (Hg & Hk & _).
    split; [done |]. split; [by eapply pass_ready_grows |].
    destruct Hg as [_ Hnodes]. by eapply has_node_mono. }
  split; [by eapply grows_trans | done].
Qed.

Lemma fold_link_reference_sat lookup n l g r m :
  r ∈ l -> lookup !! r = Some m ->
  has_edge n m (fold_left (link_reference lookup n) l g) = true.
Proof.
  revert g. induction l as [| x l IH]; intros g Hr Hm; [by apply elem_of_nil in Hr |].
  simpl. apply elem_of_cons in Hr as [<- | Hr]; [| by apply IH].
  eapply has_edge_mono; [apply more_edges_fold, more_edges_link_reference |].
  unfold link_reference. rewrite Hm.
  destruct (has_edge n m g) eqn:E; [done | apply has_edge_add_edge].
Qed.

Lemma fold_link_standard_sat n l g s :
  key0_ok g -> has_node n g = true -> s ∈ l ->
  has_node ("EXT::" ++ s)%string (fold_left (link_standard n) l g) = true /\
  has_edge n ("EXT::" ++ s)%string (fold_left (link_standard n) l g) = true.
Proof.
  revert g. induction l as [| x l IH]; intros g Hk Hn Hs; [by apply elem_of_nil in Hs |].
  simpl. destruct (link_standard_spec n g x Hk Hn) as (Hgr & Hk1 & Hid & He).
  assert (Hn1 : has_node n (link_standard n g x) = true)
    by (destruct Hgr as [_ Hnodes]; by eapply has_node_mono).
  apply elem_of_cons in Hs as [<- | Hs]; [| by apply IH].
  destruct (fold_left_grows (fun g => key0_ok g /\ has_node n g = true)
              (link_standard n) l (link_standard n g s)) as [[Hes Hns] _]; [| done |].
  { intros g1 y [Hk2 Hn2]. destruct (link_standard_spec n g1 y Hk2 Hn2) as (Hg & Hk3 & _).
    split; [done |]. split; [done |]. destruct Hg as [_ Hnodes]. by eapply has_node_mono. }
  split; [by eapply has_node_mono | by eapply has_edge_mono].
Qed.

Lemma reference_step_sat lookup g nd :
  pass_ready lookup g -> has_node nd.1 g = true ->
  reference_sat lookup (reference_step lookup g nd) nd.
Proof.
  destruct nd as [n data]. intros Hr Hn Hty. simpl in *.
  unfold reference_step. rewrite Hty.
  set (ok := fun g => pass_ready lookup g /\ has_node n g = true).
  destruct (fold_left_grows ok (link_reference lookup n)
              (internal_resolved (get_refs "references" data)) g) as [Hgr [[Hk _] Hn1]];
    [| done |].
  { intros g1 r [Hr1 Hn1]. destruct (link_reference_grows lookup n g1 r Hr1 Hn1) as [Hg Hk].
    split; [done |]. split; [by eapply pass_ready_grows |].
    destruct Hg as [_ Hnodes]. by eapply has_node_mono. }
  split.
  - intros r m Hin Hm.
    eapply has_edge_mono; [apply more_edges_fold, more_edges_link_standard |].
    by apply fold_link_reference_sat with r.
  - intros s Hs. by apply fold_link_standard_sat.
Qed.

Lemma reference_sat_mono lookup g g' nd :
  grows g g' -> reference_sat lookup g nd -> reference_sat lookup g' nd.
Proof.
  intros [He Hn] Hsat Hty. destruct (Hsat Hty) as [Hi Hs]. split.
  - intros r m Hr Hm. eapply has_edge_mono; [done | by eapply Hi].
  - intros s Hin. destruct (Hs s Hin) as [H1 H2].
    split; [by eapply has_node_mono | by eapply has_edge_mono].
Qed.

Lemma reference_noop lookup g nd :
  reference_sat lookup g nd -> reference_step lookup g nd = g.
Proof.
  destruct nd as [n data]. intros Hsat. unfold reference_step.
  destruct (is_type "Clause" data) eqn:Hty; [| done].
  destruct (Hsat Hty) as [Hi Hs]. simpl in *.
  rewrite (fold_left_noop (link_reference lookup n)).
  - apply fold_left_noop. intros s Hin. unfold link_standard.
    destruct (Hs s Hin) as [-> ->]. done.
  - intros r Hin. unfold link_reference. destruct (lookup !! r) as [m |] eqn:Hm; [| done].
    by rewrite (Hi r m Hin Hm).
Qed.

(** *** A pass, and the pass again *)

(** A pass whose steps establish their tests, and whose tests stay
    established while the graph grows, ends with all of them established. *)
Lemma fold_establishes lookup (step : Graph -> string * Attrs -> Graph)
    (sat : Graph -> string * Attrs -> Prop) :
  (forall g nd, pass_ready lookup g -> has_node nd.1 g = true ->
     grows g (step g nd) /\ key0_ok (step g nd) /\ sat (step g nd) nd) ->
  (forall g g' nd, grows g g' -> pass_ready lookup g -> sat g nd -> sat g' nd) ->
  forall l g,
    pass_ready lookup g -> Forall (fun nd => has_node nd.1 g = true) l ->
    grows g (fold_left step l g) /\ key0_ok (fold_left step l g) /\
    Forall (sat (fold_left step l g)) l.
Proof.
  intros Hstep Hmono. induction l as [| nd l IH]; intros g Hr Hl; simpl.
  - split_and!; [apply grows_refl | by destruct Hr | done].
  - apply Forall_cons in Hl as [Hnd Hl].
    destruct (Hstep g nd Hr Hnd) as (Hgr & Hk & Hsat).
    assert (Hr1 : pass_ready lookup (step g nd)) by (by eapply pass_ready_grows).
    destruct (IH (step g nd) Hr1) as (Hgr' & Hk' & Hall).
    { eapply Forall_impl; [exact Hl |]. intros x Hx. simpl in Hx.
      destruct Hgr as [_ Hnodes]. by eapply has_node_mono. }
    split_and!; [by eapply grows_trans | done |].
    apply Forall_cons. split; [by eapply Hmono | done].
Qed.

Lemma nodes_have_node g : Forall (fun nd : string * Attrs => has_node nd.1 g = true) (nodes g).
Proof.
  apply Forall_forall. intros nd Hnd. apply has_node_true. by apply list_elem_of_fmap_2.
Qed.

Lemma structural_links_spec g :
  key0_ok g ->
  grows g (_create_structural_links g) /\ key0_ok (_create_structural_links g) /\
  Forall (structural_sat (clause_lookup g) (_create_structural_links g)) (nodes g).
Proof.
  intros Hk. unfold _create_structural_links.
  apply (fold_establishes (clause_lookup g)).
  - intros g1 nd Hr Hn. destruct (structural_step_grows _ g1 nd Hr Hn) as [Hgr Hk1].
    split_and!; [done | done | by apply structural_step_sat].
  - intros g1 g2 nd. apply structural_sat_mono.
  - split; [done | apply clause_lookup_ok].
  - apply nodes_have_node.
Qed.

Lemma reference_links_spec g :
  key0_ok g ->
  grows g (_create_reference_links g) /\ key0_ok (_create_reference_links g) /\
  Forall (reference_sat (clause_lookup g) (_create_reference_links g)) (nodes g).
Proof.
  intros Hk. unfold _create_reference_links.
  apply (fold_establishes (clause_lookup g)).
  - intros g1 nd Hr Hn. destruct (reference_step_grows _ g1 nd Hr Hn) as [Hgr Hk1].
    split_and!; [done | done | by apply reference_step_sat].
  - intros g1 g2 nd Hgr _. by apply reference_sat_mono.
  - split; [done | apply clause_lookup_ok].
  - apply nodes_have_node.
Qed.

(** On a graph in which every test of the structural pass finds its
    edge, the pass changes nothing. *)
Lemma structural_links_noop g g' :
  more_nodes g g' ->
  Forall (structural_sat (clause_lookup g) g') (nodes g) ->
  _create_structural_links g' = g'.
Proof.
  intros Hmore Hsat. unfold _create_structural_links.
  rewrite (clause_lookup_more_nodes g g') by done.
  destruct Hmore as (ns & Hn & Hns).
  apply fold_left_noop. intros nd Hnd. rewrite Hn, elem_of_app in Hnd.
  rewrite Forall_forall in Hsat, Hns. destruct Hnd as [Hnd | Hnd].
  - by apply structural_noop, Hsat.
  - destruct nd as [n data]. unfold structural_step.
    pose proof (Hns _ Hnd) as Hx. simpl in Hx. by rewrite Hx.
Qed.

Lemma reference_links_noop g g' :
  more_nodes g g' ->
  Forall (reference_sat (clause_lookup g) g') (nodes g) ->
  _create_reference_links g' = g'.
Proof.
  intros Hmore Hsat. unfold _create_reference_links.
  rewrite (clause_lookup_more_nodes g g') by done.
  destruct Hmore as (ns & Hn & Hns).
  apply fold_left_noop. intros nd Hnd. rewrite Hn, elem_of_app in Hnd.
  rewrite Forall_forall in Hsat, Hns. destruct Hnd as [Hnd | Hnd].
  - by apply reference_noop, Hsat.
  - destruct nd as [n data]. unfold reference_step.
    pose proof (Hns _ Hnd) as Hx. simpl in Hx. by rewrite Hx.
Qed.

(** The link passes, run again with the same switches, change nothing. *)
Lemma link_passes_again es er g :
  key0_ok g -> link_passes es er (link_passes es er g) = link_passes es er g.
Proof.
  intros Hk. unfold link_passes. destruct es, er; [| | | done].
  - destruct (structural_links_spec g Hk) as (Hgr1 & Hk1 & Hs1).
    destruct (reference_links_spec _ Hk1) as (Hgr2 & Hk2 & Hs2).
    rewrite (structural_links_noop g).
    + by apply (reference_links_noop (_create_structural_links g)); [apply Hgr2 |].
    + destruct Hgr1, Hgr2. by eapply more_nodes_trans.
    + eapply Forall_impl; [exact Hs1 |]. intros nd. apply structural_sat_mono; [done |].
      split; [done |]. eapply lookup_ok_grows; [exact Hgr1 | apply clause_lookup_ok].
  - destruct (structural_links_spec g Hk) as (Hgr1 & Hk1 & Hs1).
    apply (structural_links_noop g); [apply Hgr1 | done].
  - destruct (reference_links_spec g Hk) as (Hgr1 & Hk1 & Hs1).
    apply (reference_links_noop g); [apply Hgr1 | done].
Qed.

Lemma key0_ok_create_nodes documents g : key0_ok g -> key0_ok (_create_nodes documents g).
Proof.
  apply stable_create_nodes.
  - intros; by apply key0_ok_add_node.
  - intros; by apply key0_ok_add_edge.
  - intros; by apply key0_ok_add_edge.
Qed.

Lemma filter_agree {X} (P Q : X -> Prop) `{!forall x, Decision (P x)} `{!forall x, Decision (Q x)}
    (l : list X) :
  (forall x, x ∈ l -> (P x <-> Q x)) -> filter P l = filter Q l.
Proof.
  induction l as [| x l IH]; intros Hpq; [done |].
  rewrite !filter_cons.
  rewrite IH by (intros y Hy; apply Hpq; by right).
  destruct (decide (P x)) as [Hp | Hp], (decide (Q x)) as [Hq | Hq]; try done.
  - destruct Hq. apply Hpq; [by left | done].
  - destruct Hp. apply Hpq; [by left | done].
Qed.

Lemma omap_load_failed (l : list File) : omap load (filter (fun f => load f = None) l) = [].
Proof.
  induction l as [| f l IH]; [done |]. rewrite filter_cons.
  destruct (decide (load f = None)) as [Hf | Hf]; [| done]. simpl. by rewrite Hf.
Qed.

(** The new files of the build that follows a build over the same
    directory: those that did not load. *)
Lemma new_files_again json_files es er b b1 r1 :
  NoDup (rel_path <$> json_files) ->
  build_from_directory (Some json_files) es er b = Some (b1, r1) ->
  new_files json_files b1 = filter (fun f => load f = None) (new_files json_files b).
Proof.
  intros Hnd Hb. unfold new_files at 2. rewrite list_filter_filter.
  unfold new_files at 1. apply filter_agree. intros f Hf.
  destruct (decide (new_files json_files b = [])) as [E | E].
  - destruct (build_no_new json_files es er b E) as (r & Hr & _).
    rewrite Hr in Hb. injection Hb as <- _.
    assert (Hall : filter (fun f => rel_path f ∉ processed_files b) json_files = []) by done.
    split; [| tauto]. intros Hnew. exfalso.
    assert (Hin : f ∈ filter (fun f => rel_path f ∉ processed_files b) json_files)
      by (by apply list_elem_of_filter).
    rewrite Hall in Hin. by apply elem_of_nil in Hin.
  - destruct (build_new json_files es er b E) as (r & Hr & _).
    rewrite Hr in Hb. injection Hb as <- _. cbn [processed_files]. split.
    + intros Hnew. rewrite not_elem_of_union in Hnew. destruct Hnew as [Hmark Hold].
      split; [| done]. destruct (load f) as [d |] eqn:Hload; [| done].
      destruct Hmark. apply elem_of_list_to_set, list_elem_of_fmap_2, list_elem_of_filter.
      split; [by exists d |]. unfold new_files. by apply list_elem_of_filter.
    + intros [Hload Hold]. apply failed_not_marked; [done | | done].
      unfold new_files. by apply list_elem_of_filter.
Qed.

(** C2, as stated, fails: [Sample.dir_faulty] holds a file that does not
    load; the second build over the directory tries it again and reports
    [new_files_processed = 1]. *)
Lemma second_build_counts_failed_file :
  ~ (forall json_files es er b b1 r1 b2 r2,
       built b ->
       build_from_directory (Some json_files) es er b = Some (b1, r1) ->
       build_from_directory (Some json_files) es er b1 = Some (b2, r2) ->
       new_files_processed r2 = 0 /\
       _compute_checksum (graph b2) = _compute_checksum (graph b1)).
Proof.
  intros H.
  destruct (build_new Sample.dir_faulty true true init) as (r1 & H1 & _); [by vm_compute |].
  match type of H1 with _ = Some (?b, _) => set (b1 := b) in * end.
  assert (Hnew : new_files Sample.dir_faulty b1 = [mkFile "broken.json" None]).
  { rewrite (new_files_again Sample.dir_faulty true true init b1 r1); [by vm_compute | | done].
    apply (bool_decide_unpack _). by vm_compute. }
  destruct (build_new Sample.dir_faulty true true b1) as (r2 & H2 & Hcount);
    [by rewrite Hnew |].
  destruct (H _ _ _ _ _ _ _ _ built_init H1 H2) as [H0 _].
  rewrite Hnew in Hcount. simpl in Hcount. congruence.
Qed.

(** C2, amended. A second build over an unchanged directory of files with
    distinct keys, with the same switches, leaves the graph and its checksum
    as they are, and reports as [new_files_processed] the number of files
    that did not load in the first build: 0 when every file loads. *)
Theorem second_build_changes_nothing json_files es er b :
  built b -> NoDup (rel_path <$> json_files) ->
  exists b1 r1 b2 r2,
    build_from_directory (Some json_files) es er b = Some (b1, r1) /\
    build_from_directory (Some json_files) es er b1 = Some (b2, r2) /\
    new_files_processed r2 =
      length (filter (fun f => load f = None) (new_files json_files b)) /\
    ((forall f, f ∈ json_files -> is_Some (load f)) -> new_files_processed r2 = 0) /\
    graph b2 = graph b1 /\
    _compute_checksum (graph b2) = _compute_checksum (graph b1).
Proof.
  intros Hb Hnd.
  assert (Hk : key0_ok (graph b)) by (by destruct (link_inv_built b Hb)).
  assert (Hzero : (forall f, f ∈ json_files -> is_Some (load f)) ->
                  filter (fun f => load f = None) (new_files json_files b) = []).
  { intros Hall. destruct (filter _ _) as [| f l] eqn:E; [done |].
    assert (Hf : f ∈ filter (fun f => load f = None) (new_files json_files b))
      by (rewrite E; left).
    apply list_elem_of_filter in Hf as [Hnone Hf].
    unfold new_files in Hf. apply list_elem_of_filter in Hf as [_ Hf].
    destruct (Hall f Hf) as [d Hd]. congruence. }
  destruct (decide (new_files json_files b = [])) as [E | E].
  - destruct (build_no_new json_files es er b E) as (r & Hr & Hcount).
    exists b, r, b, r. rewrite E. by split_and!.
  - destruct (build_new json_files es er b E) as (r1 & Hr1 & _).
    match type of Hr1 with _ = Some (?s, _) => set (b1 := s) in * end.
    pose proof (new_files_again json_files es er b b1 r1 Hnd Hr1) as Hagain.
    destruct (decide (new_files json_files b1 = [])) as [E1 | E1].
    + destruct (build_no_new json_files es er b1 E1) as (r2 & Hr2 & Hcount).
      exists b1, r1, b1, r2. rewrite <- Hagain, E1. by split_and!.
    + destruct (build_new json_files es er b1 E1) as (r2 & Hr2 & Hcount).
      eexists b1, r1, _, r2. rewrite <- Hagain.
      split_and!; [done | exact Hr2 | done | | |].
      * intros Hall. rewrite Hcount, Hagain, Hzero; done.
      * cbn [graph]. rewrite Hagain, omap_load_failed.
        apply link_passes_again. by apply key0_ok_create_nodes.
      * cbn [graph]. rewrite Hagain, omap_load_failed.
        f_equal. apply link_passes_again. by apply key0_ok_create_nodes.
Qed.

Lemma second_build_changes_nothing_witness :
  exists b1 r1 b2 r2,
    build_from_directory (Some Sample.dir_faulty) true true init = Some (b1, r1) /\
    build_from_directory (Some Sample.dir_faulty) true true b1 = Some (b2, r2) /\
    new_files_processed r1 = 3 /\ new_files_processed r2 = 1 /\
    _compute_checksum (graph b2) = _compute_checksum (graph b1).
Proof.
  destruct (second_build_changes_nothing Sample.dir_faulty true true init)
    as (b1 & r1 & b2 & r2 & H1 & H2 & Hcount & _ & _ & Hsum).
  - apply built_init.
  - apply (bool_decide_unpack _). by vm_compute.
  - exists b1, r1, b2, r2. split_and!; [done | done | | done | done].
    destruct (build_new Sample.dir_faulty true true init) as (r & Hr & Hc); [by vm_compute |].
    rewrite Hr in H1. by injection H1 as _ <-.
Defined.

End BuilderProps.

(** * Further properties of the builder *)

Module BuilderExtra.
Import Nx Builder NxProps BuilderProps Vocabulary.
Local Open Scope list_scope.

(** ** What a build keeps *)

Lemma has_node_add_edge_dst u v ty lm g : has_node v (add_edge u v ty lm g) = true.
Proof.
  apply has_node_true. unfold add_edge, node_ids. simpl.
  fold (node_ids (ensure_node v (ensure_node u g))). rewrite node_ids_ensure_node.
  destruct (has_node v (ensure_node u g)) eqn:E; [by apply has_node_true |].
  apply elem_of_app. right. by left.
Qed.

Lemma node_ids_add_edge u v ty lm g :
  node_ids (add_edge u v ty lm g) = node_ids (ensure_node v (ensure_node u g)).
Proof. done. Qed.

Lemma NoDup_node_ids_ensure_node n g : NoDup (node_ids g) -> NoDup (node_ids (ensure_node n g)).
Proof.
  intros Hnd. rewrite node_ids_ensure_node. destruct (has_node n g) eqn:E; [done |].
  apply NoDup_app. split_and!; [done | | apply NoDup_singleton].
  intros x Hx ->%list_elem_of_singleton. apply has_node_true in Hx. congruence.
Qed.

Lemma NoDup_node_ids_add_node n a g : NoDup (node_ids g) -> NoDup (node_ids (add_node n a g)).
Proof.
  intros Hnd. rewrite node_ids_add_node. destruct (has_node n g) eqn:E; [done |].
  apply NoDup_app. split_and!; [done | | apply NoDup_singleton].
  intros x Hx ->%list_elem_of_singleton. apply has_node_true in Hx. congruence.
Qed.

Lemma NoDup_node_ids_add_edge u v ty lm g :
  NoDup (node_ids g) -> NoDup (node_ids (add_edge u v ty lm g)).
Proof.
  intros Hnd. rewrite node_ids_add_edge. by do 2 apply NoDup_node_ids_ensure_node.
Qed.

(** X1. In every graph a builder goes through, the node ids are pairwise
    distinct. *)
Theorem node_ids_distinct b : built b -> NoDup (node_ids (graph b)).
Proof.
  apply (stable_built (fun g => NoDup (node_ids g)));
    auto using NoDup_node_ids_add_node, NoDup_node_ids_add_edge.
  apply NoDup_nil_2.
Qed.

Lemma node_ids_distinct_witness :
  NoDup (node_ids (Sample.built_graph Sample.dir_c1_twice)).
Proof. apply (node_ids_distinct (Sample.built_state Sample.dir_c1_twice)), built_state_built. Defined.

Lemma build_total json_files es er b :
  exists b' r, build_from_directory (Some json_files) es er b = Some (b', r).
Proof.
  destruct (decide (new_files json_files b = [])) as [E | E].
  - destruct (build_no_new json_files es er b E) as (r & Hr & _). by exists b, r.
  - destruct (build_new json_files es er b E) as (r & Hr & _). by eexists _, r.
Qed.




(** ** Nodes and their types *)

(** Every node that exists stays, whatever a build inserts. *)
Section NodeKept.
Variable m : string.

Let I (g : Graph) : Prop := has_node m g = true.

Lemma kept_add_node n a g : I g -> I (add_node n a g).
Proof. apply has_node_add_node_mono. Qed.

Lemma kept_add_edge u v ty lm g : I g -> I (add_edge u v ty lm g).
Proof. apply has_node_add_edge_mono. Qed.

Lemma kept_add_requirement c g ir : I g -> I (add_requirement c g ir).
Proof. intros H. unfold add_requirement. by apply kept_add_edge, kept_add_node. Qed.

Lemma kept_link_sibling lookup n c g s : I g -> I (link_sibling lookup n c g s).
Proof. apply stable_link_sibling. intros; by apply kept_add_edge. Qed.

Lemma kept_structural_step lookup g nd : I g -> I (structural_step lookup g nd).
Proof. apply stable_structural_step; intros; by apply kept_add_edge. Qed.

Lemma kept_link_reference lookup n g r : I g -> I (link_reference lookup n g r).
Proof. apply stable_link_reference. intros; by apply kept_add_edge. Qed.

Lemma kept_link_standard n g s : I g -> I (link_standard n g s).
Proof.
  apply stable_link_standard; [intros; by apply kept_add_node | intros; by apply kept_add_edge].
Qed.

Lemma kept_reference_step lookup g nd : I g -> I (reference_step lookup g nd).
Proof.
  apply stable_reference_step; [intros; by apply kept_add_node | intros; by apply kept_add_edge].
Qed.

Lemma kept_create_doc_nodes st doc : I st.2 -> I (create_doc_nodes st doc).2.
Proof.
  apply stable_create_doc_nodes;
    [intros; by apply kept_add_node | intros; by apply kept_add_edge
    | intros; by apply kept_add_edge].
Qed.

Lemma kept_link_passes es er g : I g -> I (link_passes es er g).
Proof.
  apply stable_link_passes;
    [intros; by apply kept_add_node | intros; by apply kept_add_edge
    | intros; by apply kept_add_edge].
Qed.
End NodeKept.

Lemma lookup_ok_kept lookup (f : Graph -> Graph) g :
  (forall m, has_node m g = true -> has_node m (f g) = true) ->
  lookup_ok lookup g -> lookup_ok lookup (f g).
Proof. intros Hf Hl k n Hk. by eapply Hf, Hl. Qed.

(** An induction principle for properties of the nodes: a property that
    survives the insertion of a node with a node type, and the insertion of
    an edge between two nodes of the graph, survives a build. *)
Section Endpoints.
Variable I : Graph -> Prop.
Hypothesis I_node : forall n a g, typed a -> I g -> I (add_node n a g).
Hypothesis I_edge : forall u v ty lm g,
  has_node u g = true -> has_node v g = true -> I g -> I (add_edge u v ty lm g).

Lemma typed_standard_attrs doc : typed (standard_attrs doc).
Proof.
  exists "Standard". split; [by apply lookup_insert_eq |]. set_solver.
Qed.

Lemma typed_clause_attrs doc : typed (clause_attrs doc).
Proof.
  exists "Clause". split; [by apply lookup_insert_eq |]. set_solver.
Qed.

Lemma typed_requirement_attrs c rid req : typed (requirement_attrs c rid req).
Proof.
  exists "Requirement". split; [by apply lookup_insert_eq |]. set_solver.
Qed.

Lemma typed_external_attrs s : typed (external_attrs s).
Proof.
  exists "ExternalStandard". split; [by apply lookup_insert_eq |]. set_solver.
Qed.

Lemma endpoints_add_requirement c g ir :
  has_node c g = true -> I g -> I (add_requirement c g ir).
Proof.
  intros Hc Hg. unfold add_requirement. apply I_edge.
  - by apply has_node_add_node_mono.
  - apply has_node_add_node.
  - apply I_node; [apply typed_requirement_attrs | done].
Qed.

Lemma endpoints_requirements c l g :
  has_node c g = true -> I g -> I (fold_left (add_requirement c) l g).
Proof.
  revert g. induction l as [| ir l IH]; intros g Hc Hg; simpl; [done |].
  apply IH; [by apply kept_add_requirement | by apply endpoints_add_requirement].
Qed.

Lemma endpoints_create_doc_nodes st doc :
  (forall d, d ∈ st.1 -> has_node d st.2 = true) -> I st.2 ->
  I (create_doc_nodes st doc).2 /\
  (forall d, d ∈ (create_doc_nodes st doc).1 -> has_node d (create_doc_nodes st doc).2 = true).
Proof.
  destruct st as [stds g]. simpl. intros Hstds Hg.
  pose proof (kept_create_doc_nodes) as Hkept.
  split.
  - unfold create_doc_nodes. destruct (_ || _); [done |].
    destruct (bool_decide (document_id doc ∈ stds)) eqn:Hin; simpl.
    + apply bool_decide_eq_true in Hin. apply Hstds in Hin.
      set (g1 := add_node (chunk_id doc) (clause_attrs doc) g).
      assert (Hg1 : I g1) by (apply I_node; [apply typed_clause_attrs | done]).
      assert (Hc1 : has_node (chunk_id doc) g1 = true) by apply has_node_add_node.
      assert (Hd1 : has_node (document_id doc) g1 = true)
        by (by apply has_node_add_node_mono).
      destruct (has_edge _ _ g1); [by apply endpoints_requirements |].
      apply endpoints_requirements; [by apply has_node_add_edge_mono | by apply I_edge].
    + set (g0 := add_node (document_id doc) (standard_attrs doc) g).
      assert (Hg0 : I g0) by (apply I_node; [apply typed_standard_attrs | done]).
      set (g1 := add_node (chunk_id doc) (clause_attrs doc) g0).
      assert (Hg1 : I g1) by (apply I_node; [apply typed_clause_attrs | done]).
      assert (Hc1 : has_node (chunk_id doc) g1 = true) by apply has_node_add_node.
      assert (Hd1 : has_node (document_id doc) g1 = true)
        by (apply has_node_add_node_mono, has_node_add_node).
      destruct (has_edge _ _ g1); [by apply endpoints_requirements |].
      apply endpoints_requirements; [by apply has_node_add_edge_mono | by apply I_edge].
  - intros d Hd.
    assert (Hcase : d ∈ stds \/
              (d = document_id doc /\
               has_node d (create_doc_nodes (stds, g) doc).2 = true)).
    { revert Hd. unfold create_doc_nodes. destruct (_ || _); [by left |].
      destruct (bool_decide (document_id doc ∈ stds)) eqn:Hin; simpl; [by left |].
      rewrite elem_of_union, elem_of_singleton. intros [-> | Hd]; [| by left].
      right. split; [done |].
      set (g0 := add_node (document_id doc) (standard_attrs doc) g).
      set (g1 := add_node (chunk_id doc) (clause_attrs doc) g0).
      assert (Hd1 : has_node (document_id doc) g1 = true)
        by (apply has_node_add_node_mono, has_node_add_node).
      assert (Hreq : forall g2, has_node (document_id doc) g2 = true ->
                has_node (document_id doc)
                  (fold_left (add_requirement (chunk_id doc))
                             (Py.enumerate (requirements doc)) g2) = true).
      { intros g2. apply (fold_left_preserves (fun g => has_node (document_id doc) g = true)).
        intros g3 x. apply kept_add_requirement. }
      destruct (has_edge _ _ g1); apply Hreq; [done | by apply has_node_add_edge_mono]. }
    destruct Hcase as [Hold | [_ Hnew]]; [| done].
    apply (Hkept d (stds, g) doc). by apply Hstds.
Qed.

Lemma endpoints_create_nodes documents g : I g -> I (_create_nodes documents g).
Proof.
  intros Hg. unfold _create_nodes.
  assert (G : forall st, (forall d, d ∈ st.1 -> has_node d st.2 = true) -> I st.2 ->
                         I (fold_left create_doc_nodes documents st).2).
  { induction documents as [| doc documents IH]; intros st Hst HI; simpl; [done |].
    destruct (endpoints_create_doc_nodes st doc Hst HI) as [H1 H2]. by apply IH. }
  apply G; [| done]. intros d Hd. simpl in Hd. by apply not_elem_of_empty in Hd.
Qed.

Lemma endpoints_link_sibling lookup n c g s :
  lookup_ok lookup g -> has_node n g = true -> I g -> I (link_sibling lookup n c g s).
Proof.
  intros Hl Hn Hg. unfold link_sibling. destruct (bool_decide _); [| done].
  destruct (lookup !! s) as [sn |] eqn:E; [| done].
  destruct (has_edge_key _ _ _ _); [done |]. apply I_edge; [done | by eapply Hl | done].
Qed.

Lemma endpoints_siblings lookup n c l g :
  lookup_ok lookup g -> has_node n g = true -> I g ->
  I (fold_left (link_sibling lookup n c) l g).
Proof.
  revert g. induction l as [| s l IH]; intros g Hl Hn Hg; simpl; [done |].
  apply IH; [| by apply kept_link_sibling | by apply endpoints_link_sibling].
  apply (lookup_ok_kept lookup (fun g => link_sibling lookup n c g s)); [| done].
  intros m. apply kept_link_sibling.
Qed.

Lemma endpoints_structural_step lookup g nd :
  lookup_ok lookup g -> has_node nd.1 g = true -> I g -> I (structural_step lookup g nd).
Proof.
  destruct nd as [n data]. simpl. intros Hl Hn Hg. unfold structural_step.
  destruct (is_type _ _); [| done].
  destruct (resolve_parent _ _) as [p |] eqn:Hp; [| done].
  assert (Hpn : has_node p g = true) by (by eapply resolve_parent_node).
  set (g1 := if has_edge p n g then g else add_edge p n PARENT_OF structural g).
  assert (H1 : I g1 /\ lookup_ok lookup g1 /\ has_node n g1 = true).
  { unfold g1. destruct (has_edge p n g); [done |]. split_and!.
    - by apply I_edge.
    - apply (lookup_ok_kept lookup (add_edge p n PARENT_OF structural)); [| done].
      intros m. apply has_node_add_edge_mono.
    - by apply has_node_add_edge_mono. }
  destruct H1 as (Hg1 & Hl1 & Hn1).
  destruct (get_str _ _) as [c |]; [| done].
  destruct (bool_decide _); [| done]. by apply endpoints_siblings.
Qed.

Lemma endpoints_fold lookup (step : Graph -> string * Attrs -> Graph) l g :
  (forall g nd, lookup_ok lookup g -> has_node nd.1 g = true -> I g -> I (step g nd)) ->
  (forall m g nd, has_node m g = true -> has_node m (step g nd) = true) ->
  lookup_ok lookup g -> Forall (fun nd => has_node nd.1 g = true) l -> I g ->
  I (fold_left step l g).
Proof.
  intros Hstep Hkept. revert g. induction l as [| nd l IH]; intros g Hl Hall Hg; simpl; [done |].
  apply Forall_cons in Hall as [Hnd Hall]. apply IH.
  - intros k n Hk. by eapply Hkept, Hl.
  - eapply Forall_impl; [exact Hall |]. intros x Hx. by apply Hkept.
  - by apply Hstep.
Qed.

Lemma endpoints_structural_links g : I g -> I (_create_structural_links g).
Proof.
  intros Hg. unfold _create_structural_links.
  apply (endpoints_fold (clause_lookup g)); [| | apply clause_lookup_ok | apply nodes_have_node | done].
  - intros g1 nd. apply endpoints_structural_step.
  - intros m g1 nd. apply kept_structural_step.
Qed.

Lemma endpoints_link_reference lookup n g r :
  lookup_ok lookup g -> has_node n g = true -> I g -> I (link_reference lookup n g r).
Proof.
  intros Hl Hn Hg. unfold link_reference. destruct (lookup !! r) as [m |] eqn:E; [| done].
  destruct (has_edge _ _ _); [done |]. apply I_edge; [done | by eapply Hl | done].
Qed.

Lemma endpoints_link_standard n g s :
  has_node n g = true -> I g -> I (link_standard n g s).
Proof.
  intros Hn Hg. unfold link_standard.
  set (id := ("EXT::" ++ s)%string).
  set (g1 := if has_node id g then g else add_node id (external_attrs s) g).
  assert (H1 : I g1 /\ has_node id g1 = true /\ has_node n g1 = true).
  { unfold g1. destruct (has_node id g) eqn:E; [done |]. split_and!.
    - apply I_node; [apply typed_external_attrs | done].
    - apply has_node_add_node.
    - by apply has_node_add_node_mono. }
  destruct H1 as (Hg1 & Hid & Hn1).
  destruct (has_edge _ _ g1); [done | by apply I_edge].
Qed.

Lemma endpoints_reference_step lookup g nd :
  lookup_ok lookup g -> has_node nd.1 g = true -> I g -> I (reference_step lookup g nd).
Proof.
  destruct nd as [n data]. simpl. intros Hl Hn Hg. unfold reference_step.
  destruct (is_type _ _); [| done].
  assert (H1 : forall l g1, lookup_ok lookup g1 -> has_node n g1 = true -> I g1 ->
             I (fold_left (link_reference lookup n) l g1) /\
             has_node n (fold_left (link_reference lookup n) l g1) = true).
  { induction l as [| r l IH]; intros g1 Hl1 Hn1 Hg1; simpl; [done |].
    apply IH; [| by apply kept_link_reference | by apply endpoints_link_reference].
    apply (lookup_ok_kept lookup (fun g => link_reference lookup n g r)); [| done].
    intros m. apply kept_link_reference. }
  destruct (H1 (internal_resolved (get_refs "references" data)) g Hl Hn Hg) as [Hg2 Hn2].
  revert Hg2 Hn2. generalize (fold_left (link_reference lookup n)
                                (internal_resolved (get_refs "references" data)) g).
  induction (standards (get_refs "references" data)) as [| s l IH]; intros g2 Hg2 Hn2;
    simpl; [done |].
  apply IH; [by apply endpoints_link_standard | by apply kept_link_standard].
Qed.

Lemma endpoints_reference_links g : I g -> I (_create_reference_links g).
Proof.
  intros Hg. unfold _create_reference_links.
  apply (endpoints_fold (clause_lookup g)); [| | apply clause_lookup_ok | apply nodes_have_node | done].
  - intros g1 nd. apply endpoints_reference_step.
  - intros m g1 nd. apply kept_reference_step.
Qed.

Lemma endpoints_build data_dir es er b b' r :
  build_from_directory data_dir es er b = Some (b', r) -> I (graph b) -> I (graph b').
Proof.
  unfold build_from_directory. destruct data_dir as [json_files |]; [| done].
  destruct (new_files json_files b) as [| f fs]; [by intros [= <- _] |].
  destruct (fold_left load_file _ _) as [documents processed].
  intros [= <- _] Hg. simpl. unfold link_passes.
  pose proof (endpoints_create_nodes documents (graph b) Hg) as H1.
  destruct es, er; auto using endpoints_structural_links, endpoints_reference_links.
Qed.

Lemma endpoints_built b : I Nx.empty -> built b -> I (graph b).
Proof.
  intros H0. induction 1 as [| d es er b b' r Hb IH Hbuild]; [done |].
  by eapply endpoints_build.
Qed.
End Endpoints.

Lemma typed_union a a0 : typed a -> typed (a ∪ a0).
Proof.
  intros (t & Ht & Hin). exists t. split; [| done]. by apply lookup_union_Some_l.
Qed.

Lemma all_typed_add_node n a g : typed a -> all_typed g -> all_typed (add_node n a g).
Proof.
  unfold all_typed, add_node. intros Ha Hg. destruct (has_node n g); simpl.
  - apply Forall_forall. intros nd Hnd.
    apply list_elem_of_In, in_map_iff in Hnd as ([k a0] & <- & Hin%list_elem_of_In).
    rewrite Forall_forall in Hg. apply Hg in Hin. simpl in Hin.
    destruct (decide (k = n)); simpl; [by apply typed_union | done].
  - apply Forall_app. split; [done |]. by constructor.
Qed.

Lemma all_typed_built b : built b -> all_typed (graph b).
Proof.
  apply endpoints_built.
  - intros; by apply all_typed_add_node.
  - intros u v ty lm g Hu Hv Hg. unfold all_typed. by rewrite nodes_add_edge.
  - by constructor.
Qed.

Lemma count_type_cons t nd l es :
  count_type t (mkGraph (nd :: l) es) =
  (if is_type t nd.2 then 1 else 0) + count_type t (mkGraph l es).
Proof.
  unfold count_type. simpl. rewrite filter_cons.
  destruct (is_type t nd.2); destruct (decide _); simpl; congruence.
Qed.

Lemma typed_counts l es :
  Forall (fun nd : string * Attrs => typed nd.2) l ->
  count_type "Standard" (mkGraph l es) + count_type "Clause" (mkGraph l es) +
  count_type "Requirement" (mkGraph l es) + count_type "ExternalStandard" (mkGraph l es) =
  length l.
Proof.
  induction 1 as [| nd l (t & Ht & Hin) Hl IH]; [done |].
  rewrite !count_type_cons. simpl length. rewrite <- IH. unfold is_type. rewrite Ht.
  repeat (apply elem_of_cons in Hin as [-> | Hin]); [| | | | by apply elem_of_nil in Hin];
    repeat case_bool_decide; simplify_eq; lia.
Qed.

(** X3. Every node of a graph a builder goes through carries one of the
    four node types (no node is created as the mere end point of an edge),
    so the four counts of the statistics add up to the number of nodes. *)
Theorem statistics_partition_nodes b :
  built b ->
  all_typed (graph b) /\
  let stats := _compute_statistics (graph b) in
  st_standards stats + st_clauses stats + st_requirements stats +
  st_external_standards stats = st_nodes stats.
Proof.
  intros Hb. pose proof (all_typed_built b Hb) as Ht. split; [done |].
  simpl. unfold number_of_nodes. destruct (graph b) as [l es]. by apply typed_counts.
Qed.

Lemma statistics_partition_nodes_witness :
  let stats := _compute_statistics (Sample.built_graph Vocabulary.dir_citing) in
  st_nodes stats = 5 /\
  st_standards stats + st_clauses stats + st_requirements stats +
  st_external_standards stats = st_nodes stats.
Proof.
  split; [by vm_compute |].
  apply (statistics_partition_nodes (Sample.built_state Vocabulary.dir_citing)),
    built_state_built.
Defined.

(** ** What a build leaves for each document *)

Lemma more_edges_add_requirement c g ir : more_edges g (add_requirement c g ir).
Proof.
  apply (stable_add_requirement (more_edges g)); [| | apply more_edges_refl].
  - intros; by apply more_edges_after_add_node.
  - intros; by apply more_edges_after_add_edge.
Qed.

Lemma more_edges_create_doc_nodes st doc : more_edges st.2 (create_doc_nodes st doc).2.
Proof.
  apply (stable_create_doc_nodes (more_edges st.2)); [| | | apply more_edges_refl].
  - intros; by apply more_edges_after_add_node.
  - intros; by apply more_edges_after_add_edge.
  - intros; by apply more_edges_after_add_edge.
Qed.

Lemma more_edges_link_passes es er g : more_edges g (link_passes es er g).
Proof.
  apply (stable_link_passes (more_edges g)); [| | | apply more_edges_refl].
  - intros; by apply more_edges_after_add_node.
  - intros; by apply more_edges_after_add_edge.
  - intros; by apply more_edges_after_add_edge.
Qed.

Lemma elem_of_enumerate {X} (l : list X) i x : l !! i = Some x -> (i, x) ∈ Py.enumerate l.
Proof.
  unfold Py.enumerate.
  assert (G : forall s, l !! i = Some x -> (s + i, x) ∈ combine (seq s (length l)) l).
  { revert i. induction l as [| y l IH]; intros i s Hi; [done |].
    destruct i as [| i]; simpl in *.
    - injection Hi as ->. rewrite Nat.add_0_r. by left.
    - right. replace (s + S i) with (S s + i) by lia. by apply IH. }
  apply (G 0).
Qed.

(** The nodes and edges that stand for a document in a graph. *)
Lemma requirements_added c l g i req :
  (i, req) ∈ l ->
  let rid := (c ++ "::req_" ++ Str.of_nat i)%string in
  has_node rid (fold_left (add_requirement c) l g) = true /\
  has_typed_edge c rid CONTAINS_REQUIREMENT (fold_left (add_requirement c) l g) = true.
Proof.
  intros Hin rid. revert g. induction l as [| ir l IH]; intros g; [by apply elem_of_nil in Hin |].
  simpl. apply elem_of_cons in Hin as [<- | Hin]; [| by apply IH].
  split.
  - apply (fold_left_preserves (fun g => has_node rid g = true)).
    + intros g1 x. apply kept_add_requirement.
    + unfold add_requirement. simpl. apply has_node_add_edge_dst.
  - eapply has_typed_edge_mono; [apply more_edges_fold, more_edges_add_requirement |].
    unfold add_requirement. simpl. apply has_typed_edge_add_edge.
Qed.

Lemma document_added st doc :
  (forall d, d ∈ st.1 -> has_node d st.2 = true) ->
  has_ids doc = true ->
  let g := (create_doc_nodes st doc).2 in
  has_node (document_id doc) g = true /\ has_node (chunk_id doc) g = true /\
  has_edge (document_id doc) (chunk_id doc) g = true /\
  forall i req, requirements doc !! i = Some req ->
    has_node (chunk_id doc ++ "::req_" ++ Str.of_nat i)%string g = true /\
    has_typed_edge (chunk_id doc) (chunk_id doc ++ "::req_" ++ Str.of_nat i)%string
                   CONTAINS_REQUIREMENT g = true.
Proof.
  destruct st as [stds g0]. simpl. intros Hstds Hids. unfold create_doc_nodes.
  unfold has_ids in Hids. rewrite <- negb_orb, negb_true_iff in Hids. rewrite Hids.
  set (st1 := if bool_decide (document_id doc ∈ stds) then (stds, g0)
              else ({[document_id doc]} ∪ stds,
                    add_node (document_id doc) (standard_attrs doc) g0)).
  assert (Hd1 : has_node (document_id doc) st1.2 = true).
  { unfold st1. destruct (bool_decide (document_id doc ∈ stds)) eqn:E; simpl;
      [| apply has_node_add_node].
    apply bool_decide_eq_true in E. by apply Hstds. }
  destruct st1 as [stds1 g1]. simpl in *.
  set (g2 := add_node (chunk_id doc) (clause_attrs doc) g1).
  set (g3 := if has_edge (document_id doc) (chunk_id doc) g2 then g2
             else add_edge (document_id doc) (chunk_id doc) CONTAINS_CLAUSE structural g2).
  assert (Hd2 : has_node (document_id doc) g2 = true) by (by apply has_node_add_node_mono).
  assert (Hc2 : has_node (chunk_id doc) g2 = true) by apply has_node_add_node.
  assert (H3 : has_edge (document_id doc) (chunk_id doc) g3 = true /\
               has_node (document_id doc) g3 = true /\ has_node (chunk_id doc) g3 = true).
  { unfold g3. destruct (has_edge _ _ g2) eqn:E; [done |].
    split_and!; [apply has_edge_add_edge | by apply has_node_add_edge_mono
                | by apply has_node_add_edge_mono]. }
  destruct H3 as (He3 & Hd3 & Hc3).
  split_and!.
  - apply (fold_left_preserves (fun g => has_node (document_id doc) g = true)); [| done].
    intros g x. apply kept_add_requirement.
  - apply (fold_left_preserves (fun g => has_node (chunk_id doc) g = true)); [| done].
    intros g x. apply kept_add_requirement.
  - eapply has_edge_mono; [apply more_edges_fold, more_edges_add_requirement | done].
  - intros i req Hi. apply (requirements_added _ _ _ i req). by apply elem_of_enumerate.
Qed.

(** What stands for a document stays while the graph grows. *)
Lemma document_kept doc g g' :
  more_edges g g' -> (forall m, has_node m g = true -> has_node m g' = true) ->
  (has_node (document_id doc) g = true /\ has_node (chunk_id doc) g = true /\
   has_edge (document_id doc) (chunk_id doc) g = true /\
   forall i req, requirements doc !! i = Some req ->
     has_node (chunk_id doc ++ "::req_" ++ Str.of_nat i)%string g = true /\
     has_typed_edge (chunk_id doc) (chunk_id doc ++ "::req_" ++ Str.of_nat i)%string
                    CONTAINS_REQUIREMENT g = true) ->
  has_node (document_id doc) g' = true /\ has_node (chunk_id doc) g' = true /\
  has_edge (document_id doc) (chunk_id doc) g' = true /\
  forall i req, requirements doc !! i = Some req ->
    has_node (chunk_id doc ++ "::req_" ++ Str.of_nat i)%string g' = true /\
    has_typed_edge (chunk_id doc) (chunk_id doc ++ "::req_" ++ Str.of_nat i)%string
                   CONTAINS_REQUIREMENT g' = true.
Proof.
  intros He Hn (H1 & H2 & H3 & H4). split_and!; [by apply Hn | by apply Hn | |].
  - by eapply has_edge_mono.
  - intros i req Hi. destruct (H4 i req Hi) as [H5 H6].
    split; [by apply Hn | by eapply has_typed_edge_mono].
Qed.

Lemma fold_left_inv {A X} (P : A -> Prop) (f : A -> X -> A) l a :
  (forall a x, P a -> P (f a x)) -> P a -> P (fold_left f l a).
Proof.
  intros Hf. revert a. induction l as [| x l IH]; intros a Ha; simpl; [done |].
  by apply IH, Hf.
Qed.

Lemma documents_added documents doc st :
  (forall d, d ∈ st.1 -> has_node d st.2 = true) ->
  doc ∈ documents -> has_ids doc = true ->
  let g := (fold_left create_doc_nodes documents st).2 in
  has_node (document_id doc) g = true /\ has_node (chunk_id doc) g = true /\
  has_edge (document_id doc) (chunk_id doc) g = true /\
  forall i req, requirements doc !! i = Some req ->
    has_node (chunk_id doc ++ "::req_" ++ Str.of_nat i)%string g = true /\
    has_typed_edge (chunk_id doc) (chunk_id doc ++ "::req_" ++ Str.of_nat i)%string
                   CONTAINS_REQUIREMENT g = true.
Proof.
  revert st. induction documents as [| d documents IH]; intros st Hst Hin Hids;
    [by apply elem_of_nil in Hin |].
  simpl.
  destruct (endpoints_create_doc_nodes (fun _ => True) (fun _ _ _ _ _ => I)
              (fun _ _ _ _ _ _ _ _ => I) st d Hst I) as [_ Hst1].
  apply elem_of_cons in Hin as [<- | Hin]; [| by apply IH].
  apply (document_kept doc (create_doc_nodes st doc).2).
  - apply (fold_left_inv (fun p => more_edges (create_doc_nodes st doc).2 p.2));
      [| apply more_edges_refl].
    intros p x Hp. eapply more_edges_trans; [exact Hp | apply more_edges_create_doc_nodes].
  - intros m Hm.
    apply (fold_left_inv (fun p => has_node m p.2 = true)); [| done].
    intros p x. apply kept_create_doc_nodes.
  - by apply document_added.
Qed.

(** X4. After a build, every new document that loaded with a [chunk_id]
    and a [document_id] has its Standard node and its Clause node, joined by
    an edge, and for each of its requirements, at position [i], the node
    [chunk_id::req_i] with a [CONTAINS_REQUIREMENT] edge from the clause. *)
Theorem documents_traceable json_files es er b :
  exists b' r,
    build_from_directory (Some json_files) es er b = Some (b', r) /\
    forall f doc,
      f ∈ new_files json_files b -> load f = Some doc -> has_ids doc = true ->
      has_node (document_id doc) (graph b') = true /\
      has_node (chunk_id doc) (graph b') = true /\
      has_edge (document_id doc) (chunk_id doc) (graph b') = true /\
      forall i req, requirements doc !! i = Some req ->
        has_node (chunk_id doc ++ "::req_" ++ Str.of_nat i)%string (graph b') = true /\
        has_typed_edge (chunk_id doc) (chunk_id doc ++ "::req_" ++ Str.of_nat i)%string
                       CONTAINS_REQUIREMENT (graph b') = true.
Proof.
  destruct (decide (new_files json_files b = [])) as [E | E].
  - destruct (build_no_new json_files es er b E) as (r & Hr & _). exists b, r.
    split; [done |]. intros f doc Hf. rewrite E in Hf. by apply elem_of_nil in Hf.
  - destruct (build_new json_files es er b E) as (r & Hr & _). eexists _, r.
    split; [exact Hr |]. intros f doc Hf Hload Hids. cbn [graph].
    apply (document_kept doc (_create_nodes (omap load (new_files json_files b)) (graph b))).
    + apply more_edges_link_passes.
    + intros m. apply kept_link_passes.
    + unfold _create_nodes. apply documents_added; [| | done].
      * intros d Hd. simpl in Hd. by apply not_elem_of_empty in Hd.
      * apply list_elem_of_omap. by exists f.
Qed.

(** ** What the link passes leave *)

Lemma clause_node_before g g' nd :
  more_nodes g g' -> nd ∈ nodes g' -> is_type "Clause" nd.2 = true -> nd ∈ nodes g.
Proof.
  intros (ns & Hn & Hns) Hin Hty. rewrite Hn, elem_of_app in Hin.
  destruct Hin as [Hin | Hin]; [done |].
  rewrite Forall_forall in Hns. apply Hns in Hin. congruence.
Qed.

Lemma key0_ok_built b : built b -> key0_ok (graph b).
Proof. intros Hb. by destruct (link_inv_built b Hb). Qed.

(** X5. After a build that found a new file and ran the reference pass,
    every Clause node of the graph, old or new, is joined to the node
    [EXT::name] of each standard it cites, which exists, and to the node of
    each of its internal references that the clause_id lookup resolves. *)
Theorem citations_linked json_files es b :
  built b -> new_files json_files b <> [] ->
  exists b' r,
    build_from_directory (Some json_files) es true b = Some (b', r) /\
    forall n data,
      (n, data) ∈ nodes (graph b') -> is_type "Clause" data = true ->
      (forall s, s ∈ standards (get_refs "references" data) ->
         has_node ("EXT::" ++ s)%string (graph b') = true /\
         has_edge n ("EXT::" ++ s)%string (graph b') = true) /\
      (forall r m, r ∈ internal_resolved (get_refs "references" data) ->
         clause_lookup (graph b') !! r = Some m -> has_edge n m (graph b') = true).
Proof.
  intros Hb E. destruct (build_new json_files es true b E) as (r & Hr & _).
  eexists _, r. split; [exact Hr |]. cbn [graph]. unfold link_passes.
  set (g0 := _create_nodes (omap load (new_files json_files b)) (graph b)).
  assert (Hk0 : key0_ok g0) by (apply key0_ok_create_nodes, key0_ok_built, Hb).
  set (g1 := if es then _create_structural_links g0 else g0).
  assert (Hk1 : key0_ok g1).
  { unfold g1. destruct es; [| done]. by destruct (structural_links_spec g0 Hk0) as (_ & ? & _). }
  destruct (reference_links_spec g1 Hk1) as ([_ Hmore] & _ & Hsat).
  intros n data Hin Hty.
  apply (clause_node_before g1) in Hin; [| done | done].
  rewrite Forall_forall in Hsat. destruct (Hsat _ Hin Hty) as [Hi Hs].
  split; [exact Hs |]. intros r0 m Hr0 Hm. apply (Hi r0 m Hr0).
  by rewrite <- (clause_lookup_more_nodes g1 (_create_reference_links g1)).
Qed.

Lemma citations_linked_witness :
  has_node "EXT::IEC 60068" (Sample.built_graph Vocabulary.dir_citing) = true /\
  has_edge "C" "EXT::IEC 60068" (Sample.built_graph Vocabulary.dir_citing) = true.
Proof.
  destruct (citations_linked Vocabulary.dir_citing true init) as (b' & r & Hb & H);
    [apply built_init | by vm_compute |].
  assert (Hg : Sample.built_graph Vocabulary.dir_citing = graph b').
  { unfold Sample.built_graph, Sample.built_state. by rewrite Hb. }
  rewrite Hg.
  destruct (H "C" (default ∅ (node_data "C" (graph b')))) as [Hs _].
  - apply node_data_elem_of. rewrite <- Hg. by vm_compute.
  - rewrite <- Hg. by vm_compute.
  - apply Hs. rewrite <- Hg. apply (list_elem_of_lookup_2 _ 1). by vm_compute.
Defined.

(** X6. After a build that found a new file and ran the structural pass,
    every Clause node of the graph, old or new, whose [parent_id] the
    clause_id lookup resolves has an edge from its parent, and, when the
    parent lists the clause among its children, an edge to every other
    listed child that the lookup resolves. *)
Theorem hierarchy_linked json_files er b :
  built b -> new_files json_files b <> [] ->
  exists b' r,
    build_from_directory (Some json_files) true er b = Some (b', r) /\
    forall n data p,
      (n, data) ∈ nodes (graph b') -> is_type "Clause" data = true ->
      resolve_parent (clause_lookup (graph b')) data = Some p ->
      has_edge p n (graph b') = true /\
      forall c s sn,
        get_str "clause_id" data = Some c ->
        c ∈ get_list "children_ids" (default ∅ (node_data p (graph b'))) ->
        s ∈ get_list "children_ids" (default ∅ (node_data p (graph b'))) ->
        s <> c -> clause_lookup (graph b') !! s = Some sn ->
        has_edge n sn (graph b') = true.
Proof.
  intros Hb E. destruct (build_new json_files true er b E) as (r & Hr & _).
  eexists _, r. split; [exact Hr |]. cbn [graph]. unfold link_passes.
  set (g0 := _create_nodes (omap load (new_files json_files b)) (graph b)).
  assert (Hk0 : key0_ok g0) by (apply key0_ok_create_nodes, key0_ok_built, Hb).
  destruct (structural_links_spec g0 Hk0) as (Hgr1 & Hk1 & Hsat).
  set (g1 := _create_structural_links g0) in *.
  set (g2 := if er then _create_reference_links g1 else g1).
  assert (Hgr2 : grows g1 g2).
  { unfold g2. destruct er; [| apply grows_refl].
    by destruct (reference_links_spec g1 Hk1) as (? & _ & _). }
  assert (Hmore : more_nodes g0 g2).
  { destruct Hgr1, Hgr2. by eapply more_nodes_trans. }
  intros n data p Hin Hty. rewrite (clause_lookup_more_nodes g0 g2) by done. intros Hp.
  apply (clause_node_before g0) in Hin; [| done | done].
  rewrite Forall_forall in Hsat.
  assert (Hsat2 : structural_sat (clause_lookup g0) g2 (n, data)).
  { apply (structural_sat_mono _ g1); [done | | by apply Hsat].
    split; [done |]. eapply lookup_ok_grows; [exact Hgr1 | apply clause_lookup_ok]. }
  destruct (Hsat2 Hty p Hp) as [He Hs]. split; [exact He |].
  intros c s sn Hc Hcin Hsin Hne Hlk.
  specialize (Hs c Hc Hcin s sn Hsin Hne Hlk). simpl in Hs.
  apply has_edge_key_true in Hs as (e & ? & ? & ? & _).
  apply has_edge_true. by exists e.
Qed.

Lemma hierarchy_linked_witness :
  has_edge "A" "B" (Sample.built_graph Sample.dir_parent_ref) = true.
Proof.
  destruct (hierarchy_linked Sample.dir_parent_ref true init) as (b' & r & Hb & H);
    [apply built_init | by vm_compute |].
  assert (Hg : Sample.built_graph Sample.dir_parent_ref = graph b').
  { unfold Sample.built_graph, Sample.built_state. by rewrite Hb. }
  rewrite Hg.
  destruct (H "B" (default ∅ (node_data "B" (graph b'))) "A") as [He _].
  - apply node_data_elem_of. rewrite <- Hg. by vm_compute.
  - rewrite <- Hg. by vm_compute.
  - rewrite <- Hg. by vm_compute.
  - exact He.
Defined.

(** ** Keys of parallel edges *)

Lemma first_free_seq n fuel : first_free (seq 0 n) n fuel = n.
Proof.
  destruct fuel as [| fuel]; simpl; [done |].
  rewrite bool_decide_eq_false_2; [done |]. rewrite elem_of_seq. lia.
Qed.

Lemma keys_add_node n a u v g : keys u v (add_node n a g) = keys u v g.
Proof. unfold keys. by rewrite edges_add_node. Qed.

Lemma keys_add_edge u v ty lm u' v' g :
  keys u' v' (add_edge u v ty lm g) =
  keys u' v' g ++ (if decide (u = u' /\ v = v') then [new_edge_key u v g] else []).
Proof.
  unfold keys. rewrite edges_add_edge, filter_app, map_app. f_equal.
  rewrite filter_cons, filter_nil. unfold between. simpl.
  destruct (decide (u = u' /\ v = v')) as [[-> ->] | Hne].
  - rewrite decide_True; [done |]. by rewrite !bool_decide_eq_true_2.
  - rewrite decide_False; [done |]. intros [Hu Hv]%andb_true_iff.
    apply bool_decide_eq_true in Hu, Hv. by destruct Hne.
Qed.

Lemma keys_contiguous_built b :
  built b -> forall u v, keys u v (graph b) = seq 0 (length (keys u v (graph b))).
Proof.
  apply (endpoints_built
           (fun g => forall u v, keys u v g = seq 0 (length (keys u v g)))).
  - intros n a g _ Hg u v. rewrite keys_add_node. apply Hg.
  - intros u v ty lm g _ _ Hg u' v'. rewrite keys_add_edge.
    destruct (decide (u = u' /\ v = v')) as [[<- <-] | Hne].
    + unfold new_edge_key. pose proof (Hg u v) as E.
      remember (keys u v g) as ks eqn:Hks. remember (length ks) as n eqn:Hn.
      rewrite length_app, <- Hn. simpl. rewrite Nat.add_1_r, seq_S. simpl.
      clear Hks Hn. subst ks. by rewrite first_free_seq.
    + rewrite app_nil_r. apply Hg.
  - done.
Qed.

(** X23. In every graph a builder goes through, the edges from one node to
    another carry the keys 0, 1, 2, ... in the order of their insertion, so
    that node pair and key identify an edge; and the test
    [has_edge(u, v, key=0)] of the sibling links agrees with
    [has_edge(u, v)]. *)
Theorem edge_keys_contiguous b :
  built b ->
  forall u v,
    keys u v (graph b) = seq 0 (length (keys u v (graph b))) /\
    has_edge_key u v 0 (graph b) = has_edge u v (graph b).
Proof.
  intros Hb u v. pose proof (keys_contiguous_built b Hb u v) as Hk.
  split; [exact Hk |]. unfold has_edge_key, has_edge.
  revert Hk. generalize (keys u v (graph b)). intros [| k ks] E.
  - rewrite bool_decide_eq_false_2 by apply not_elem_of_nil.
    by rewrite bool_decide_eq_false_2 by (by intros []).
  - simpl in E. injection E as -> _.
    rewrite bool_decide_eq_true_2 by left. by rewrite bool_decide_eq_true_2.
Qed.

Lemma edge_keys_contiguous_witness :
  keys "c1" "c1::req_0" (Sample.built_graph Sample.dir_c1_twice) = [0; 1] /\
  has_edge_key "c1" "c1::req_0" 0 (Sample.built_graph Sample.dir_c1_twice) =
  has_edge "c1" "c1::req_0" (Sample.built_graph Sample.dir_c1_twice).
Proof.
  split; [by vm_compute |].
  apply (edge_keys_contiguous (Sample.built_state Sample.dir_c1_twice)), built_state_built.
Defined.

End BuilderExtra.

(** ** Depth of a clause, checksum, and the pickled graph *)

Module PersistExtra.
Import Nx Builder NxProps BuilderProps Persist Vocabulary.
Local Open Scope list_scope.

Lemma split_count_count sep s : Str.split_count sep s = S (count_char sep s).
Proof.
  induction s as [| c s IH]; simpl; [done |]. rewrite IH. by destruct (Ascii.eqb c sep).
Qed.

(** Dropping the occurrences of [Annex ] drops no dot: while [skip]
    characters of an occurrence are still to drop, they are free of dots. *)
Lemma count_dots_remove_annex s skip :
  count_char "." (substring 0 skip s) = 0 ->
  count_char "." (Str.remove_all_aux "Annex " s skip) = count_char "." s.
Proof.
  revert skip. induction s as [| c s IH]; intros skip Hskip; [done |].
  destruct skip as [| k].
  - cbn [Str.remove_all_aux].
    destruct (String.prefix "Annex " (String c s)) eqn:Hp.
    + apply prefix_correct in Hp. cbn [String.length substring] in Hp.
      injection Hp as -> Hs. rewrite IH.
      * done.
      * simpl. by rewrite Hs.
    + cbn [count_char]. rewrite IH; [done |]. by destruct s.
  - cbn [Str.remove_all_aux]. cbn [substring count_char] in Hskip.
    cbn [count_char]. destruct (Ascii.eqb c ".") eqn:Hc; [simpl in Hskip; lia |].
    apply IH. simpl in Hskip. exact Hskip.
Qed.

(** X7. A clause node whose clause_id is neither empty nor [misc] carries
    as depth the number of dots of the clause_id plus one; a leading or
    embedded [Annex ] changes nothing, so the depth is never 0 there. *)
Theorem clause_depth_counts_dots doc :
  clause_id doc <> EmptyString -> clause_id doc <> "misc" ->
  clause_attrs doc !! "depth" = Some (VInt (S (count_char "." (clause_id doc)))).
Proof.
  intros H1 H2. unfold clause_attrs, depth_of.
  rewrite !bool_decide_eq_false_2 by done. cbn [negb andb].
  rewrite split_count_count. unfold Str.remove_all.
  rewrite count_dots_remove_annex by (by destruct (clause_id doc)).
  by simplify_map_eq.
Qed.

Lemma clause_depth_counts_dots_witness :
  clause_attrs clause_annex !! "depth" = Some (VInt 3).
Proof. by apply (clause_depth_counts_dots clause_annex). Defined.

(** *** The sample of node ids does not depend on the insertion order *)

Lemma ltb_trans x y z :
  String.ltb x y = true -> String.ltb y z = true -> String.ltb x z = true.
Proof.
  unfold String.ltb. intros Hxy Hyz.
  destruct (String.compare x y) eqn:E1; try done.
  destruct (String.compare y z) eqn:E2; try done.
  apply OrderedTypeEx.String_as_OT.cmp_lt in E1, E2.
  pose proof (OrderedTypeEx.String_as_OT.lt_trans _ _ _ E1 E2) as E3.
  apply OrderedTypeEx.String_as_OT.cmp_lt in E3.
  unfold OrderedTypeEx.String_as_OT.cmp in E3. by rewrite E3.
Qed.

Lemma ltb_asym x y : String.ltb x y = true -> String.ltb y x = false.
Proof.
  unfold String.ltb. rewrite (String.compare_antisym x y).
  by destruct (String.compare y x).
Qed.

Lemma ltb_total x y : String.ltb x y = false -> String.ltb y x = false -> x = y.
Proof.
  unfold String.ltb. rewrite (String.compare_antisym x y).
  destruct (String.compare y x) eqn:E; try done.
  intros _ _. symmetry. by apply String.compare_eq_iff.
Qed.

Lemma insert_sorted_lt a b s :
  String.ltb a b = true ->
  Py.insert_sorted String.ltb a (Py.insert_sorted String.ltb b s) =
  Py.insert_sorted String.ltb b (Py.insert_sorted String.ltb a s).
Proof.
  intros Hab. pose proof (ltb_asym _ _ Hab) as Hba.
  induction s as [| y s IH]; simpl.
  - by rewrite Hab, Hba.
  - destruct (String.ltb y a) eqn:Hya.
    + pose proof (ltb_trans _ _ _ Hya Hab) as Hyb.
      rewrite Hyb. simpl. by rewrite Hya, Hyb, IH.
    + destruct (String.ltb y b) eqn:Hyb; simpl; by rewrite ?Hya, ?Hyb, ?Hab, ?Hba.
Qed.

Lemma insert_sorted_comm a b s :
  Py.insert_sorted String.ltb a (Py.insert_sorted String.ltb b s) =
  Py.insert_sorted String.ltb b (Py.insert_sorted String.ltb a s).
Proof.
  destruct (String.ltb a b) eqn:Hab; [by apply insert_sorted_lt |].
  destruct (String.ltb b a) eqn:Hba; [symmetry; by apply insert_sorted_lt |].
  by rewrite (ltb_total a b).
Qed.

Lemma sorted_strings_Permutation l l' :
  l ≡ₚ l' -> Py.sorted String.ltb l = Py.sorted String.ltb l'.
Proof.
  induction 1 as [| x l l' _ IH | x y l | l l' l'' _ IH1 _ IH2]; simpl.
  - done.
  - by rewrite IH.
  - apply insert_sorted_comm.
  - congruence.
Qed.

(** X8. The checksum of a graph depends on the insertion order neither of
    the nodes nor of the edges: two graphs with the same node ids in any
    order and the same number of edges have the same checksum. *)
Theorem checksum_order_independent g g' :
  node_ids g ≡ₚ node_ids g' -> number_of_edges g = number_of_edges g' ->
  _compute_checksum g = _compute_checksum g'.
Proof.
  intros Hp He. unfold _compute_checksum. rewrite He, (sorted_strings_Permutation _ _ Hp).
  f_equal. unfold number_of_nodes. rewrite <- !(length_fmap fst). by apply Permutation_length.
Qed.

Lemma checksum_order_independent_witness :
  node_ids (Sample.built_graph Sample.dir_ties) <>
  node_ids (Sample.built_graph dir_ties_swapped) /\
  _compute_checksum (Sample.built_graph Sample.dir_ties) =
  _compute_checksum (Sample.built_graph dir_ties_swapped).
Proof.
  split; [by vm_compute |].
  apply checksum_order_independent; [| by vm_compute].
  assert (E1 : node_ids (Sample.built_graph Sample.dir_ties) =
               "STD" :: ["b"; "b::req_0"] ++ ["a"; "a::req_0"]) by by vm_compute.
  assert (E2 : node_ids (Sample.built_graph dir_ties_swapped) =
               "STD" :: ["a"; "a::req_0"] ++ ["b"; "b::req_0"]) by by vm_compute.
  rewrite E1, E2. apply Permutation_skip, Permutation_app_comm.
Defined.

(** *** Saving and restoring *)

Lemma new_files_fresh json_files b :
  processed_files b = ∅ -> new_files json_files b = json_files.
Proof.
  intros Hb. unfold new_files. induction json_files as [| f l IH]; [done |].
  rewrite filter_cons_True by (rewrite Hb; set_solver). by rewrite IH.
Qed.

Lemma built_handle_reached json_files : reached (built_handle json_files).
Proof.
  unfold built_handle.
  destruct (build _ _ _ _) as [[h r] |] eqn:E; [| apply reached_init].
  eapply reached_build; [apply (reached_init None) | exact E].
Qed.

Lemma reached_restart h : reached h -> __init__ (Some (save_graph h)) = h.
Proof.
  induction 1 as [[p |] | data_dir es er h h' r Hh IH Hb]; [done | done |].
  unfold build in Hb.
  destruct (build_from_directory data_dir es er (state h)) as [[b' r'] |] eqn:E; [| done].
  injection Hb as <- <-. destruct data_dir as [json_files |]; [| done].
  change (default [] (Some json_files)) with json_files.
  destruct (decide (new_files json_files (state h) = [])) as [En | En].
  - destruct (build_no_new json_files es er (state h) En) as (r0 & Hr & _).
    rewrite Hr in E. injection E as <- _. rewrite En. by destruct h.
  - destruct (new_files json_files (state h)) as [| f l] eqn:En'; [done |].
    unfold __init__, save_graph. cbn [state graph_processed_files pickled_graph
      pickled_processed_files default]. f_equal.
    destruct b' as [g pf]. cbn [graph processed_files]. f_equal.
    apply list_to_set_elements_L.
Qed.

(** X9. A builder constructed from the saved graph of a builder is that
    builder again, its set of processed files included: after every full
    build the graph-level entry [processed_files] holds exactly the
    processed files. *)
Theorem restart_restores_builder h :
  reached h -> __init__ (Some (save_graph h)) = h.
Proof. apply reached_restart. Qed.

Lemma restart_restores_builder_witness :
  __init__ (Some (save_graph (built_handle Sample.dir_4_2))) = built_handle Sample.dir_4_2.
Proof. apply restart_restores_builder, built_handle_reached. Defined.

(** X10. [load_graph] into a fresh builder restores the graph and not the
    set of processed files: the next build takes every file of the
    directory as new, whatever the loaded graph holds. *)
Theorem load_graph_forgets_files p json_files es er :
  exists h' r,
    build (Some json_files) es er (load_graph p (__init__ None)) = Some (h', r) /\
    new_files_processed r = length json_files.
Proof.
  unfold build. set (b := state (load_graph p (__init__ None))).
  assert (Hn : new_files json_files b = json_files) by by apply new_files_fresh.
  destruct (decide (json_files = [])) as [E | E].
  - destruct (build_no_new json_files es er b) as (r & Hr & Hc); [congruence |].
    rewrite Hr. eexists _, r. split; [done |]. by rewrite Hc, E.
  - destruct (build_new json_files es er b) as (r & Hr & Hc); [congruence |].
    rewrite Hr. eexists _, r. split; [done |]. by rewrite Hc, Hn.
Qed.

(** X24. Startup automation run again over an unchanged input directory,
    whose files have distinct keys and all load, finds the graph it saved,
    processes no file, leaves the index alone and saves the same graph. *)
Theorem startup_again_changes_nothing json_files latest :
  NoDup (rel_path <$> json_files) ->
  (forall f, f ∈ json_files -> is_Some (load f)) ->
  exists builder action saved,
    run_startup_automation (Some json_files) latest = Some (builder, action, saved) /\
    run_startup_automation (Some json_files) (Some saved) =
    Some (builder, no_index_update, saved).
Proof.
  intros Hnd Hall. unfold run_startup_automation.
  destruct (BuilderExtra.build_total json_files true true (state (__init__ latest)))
    as (b1 & r1 & Hb1).
  assert (Hh1 : exists h1, build (Some json_files) true true (__init__ latest) = Some (h1, r1) /\
                           state h1 = b1).
  { unfold build. rewrite Hb1. by eexists. }
  destruct Hh1 as (h1 & Hh1 & Hs1). rewrite Hh1.
  exists h1, (match latest with
              | None => index_graph
              | Some _ => if (0 <? new_files_processed r1)%nat
                          then incremental_index (new_files_processed r1)
                          else no_index_update
              end), (save_graph h1).
  split; [done |].
  assert (Hr : reached h1) by (eapply reached_build; [apply reached_init | exact Hh1]).
  rewrite (reached_restart h1 Hr).
  assert (Hnew : new_files json_files (state h1) = []).
  { rewrite Hs1, (new_files_again json_files true true _ b1 r1 Hnd Hb1).
    destruct (filter _ _) as [| f l] eqn:E; [done |].
    assert (Hf : f ∈ filter (fun f => load f = None)
                   (new_files json_files (state (__init__ latest)))) by (rewrite E; left).
    apply list_elem_of_filter in Hf as [Hnone Hf].
    unfold new_files in Hf. apply list_elem_of_filter in Hf as [_ Hf].
    destruct (Hall f Hf) as [d Hd]. congruence. }
  destruct (build_no_new json_files true true (state h1) Hnew) as (r2 & Hr2 & Hc2).
  unfold build. rewrite Hr2. change (default [] (Some json_files)) with json_files.
  rewrite Hnew, Hc2. simpl. by destruct h1.
Qed.

Lemma startup_again_changes_nothing_witness :
  exists builder action saved,
    run_startup_automation (Some Sample.dir_4_2) None = Some (builder, action, saved) /\
    run_startup_automation (Some Sample.dir_4_2) (Some saved) =
    Some (builder, no_index_update, saved).
Proof.
  apply startup_again_changes_nothing.
  - apply (bool_decide_unpack _). by vm_compute.
  - intros f Hf. apply list_elem_of_singleton in Hf as ->. by eexists.
Defined.

End PersistExtra.

(** * Further properties of the retrieval endpoint *)

Module RetrievalExtra.
Import Nx Retrieval NxProps PyProps RetrievalProps.
Local Open Scope list_scope.
Local Open Scope Q_scope.

(** ** Scores *)

Lemma py_min_cases a b : (b < a /\ py_min a b = b) \/ (a <= b /\ py_min a b = a).
Proof.
  unfold py_min. destruct (Qlt_bool b a) eqn:E.
  - left. by apply Qlt_bool_true in E.
  - right. by apply Qlt_bool_false in E.
Qed.

Lemma fuse_bounds s k : 0 <= fuse s k <= 1.
Proof.
  destruct (Qlt_le_dec 0 s) as [Hs | Hs]; destruct (Qlt_le_dec 0 k) as [Hk | Hk].
  - rewrite fuse_both by done.
    destruct (py_min_cases 1 (0.6 * s + 0.4 * k + 0.1)) as [[? ->] | [? ->]]; lra.
  - rewrite fuse_semantic_only by (done || by apply Qle_not_lt).
    destruct (py_min_cases 1 (s * 0.9)) as [[? ->] | [? ->]]; lra.
  - rewrite fuse_keyword_only by (done || by apply Qle_not_lt).
    destruct (py_min_cases 1 (k * 0.8)) as [[? ->] | [? ->]]; lra.
  - rewrite fuse_neither by (by apply Qle_not_lt). by split.
Qed.

(** X11. The fused score lies between 0 and 1 whatever the two scores
    are, and it is 0 exactly when neither score is positive: one positive
    score is enough for a positive fused score. *)
Theorem fused_score_range s k :
  0 <= fuse s k <= 1 /\ (fuse s k == 0 <-> s <= 0 /\ k <= 0).
Proof.
  split; [apply fuse_bounds |].
  destruct (Qlt_le_dec 0 s) as [Hs | Hs]; destruct (Qlt_le_dec 0 k) as [Hk | Hk].
  - rewrite fuse_both by done.
    destruct (py_min_cases 1 (0.6 * s + 0.4 * k + 0.1)) as [[? ->] | [? ->]];
      split; intros Hx; try lra; destruct Hx; lra.
  - rewrite fuse_semantic_only by (done || by apply Qle_not_lt).
    destruct (py_min_cases 1 (s * 0.9)) as [[? ->] | [? ->]];
      split; intros Hx; try lra; destruct Hx; lra.
  - rewrite fuse_keyword_only by (done || by apply Qle_not_lt).
    destruct (py_min_cases 1 (k * 0.8)) as [[? ->] | [? ->]];
      split; intros Hx; try lra; destruct Hx; lra.
  - rewrite fuse_neither by (by apply Qle_not_lt). split; [done | reflexivity].
Qed.

(** X12. The threshold acts on the unit interval: a [min_confidence] of
    0 or below filters out no entry of [combined_results], and one above 1
    leaves none, so that the request succeeds with no results, reranker or
    not. *)
Theorem threshold_extremes g sem_hits search_terms reranker min_confidence max_results :
  (min_confidence <= 0 ->
   final_list min_confidence (combined_results g sem_hits (clean_terms search_terms)) =
   score_all (combined_results g sem_hits (clean_terms search_terms))) /\
  (1 < min_confidence ->
   query g sem_hits search_terms reranker min_confidence max_results = Some []).
Proof.
  split.
  - intros Hmc. unfold final_list.
    induction (score_all (combined_results g sem_hits (clean_terms search_terms)))
      as [| r l IH]; [done |].
    rewrite filter_cons_True; [by rewrite IH |].
    apply Qle_bool_iff. unfold final_score.
    pose proof (fuse_bounds (semantic_score (candidate r)) (keyword_score (candidate r))).
    lra.
  - intros Hmc. unfold query.
    set (combined := combined_results _ _ _).
    assert (E : final_list min_confidence combined = []).
    { destruct (final_list min_confidence combined) as [| r l] eqn:E; [done |].
      assert (Hr : r ∈ final_list min_confidence combined) by (rewrite E; left).
      apply elem_of_final_list in Hr.
      pose proof (fuse_bounds (semantic_score (candidate r)) (keyword_score (candidate r)))
        as Hb.
      unfold final_score in Hr. lra. }
    rewrite E. assert (Hs : Py.slice_to max_results (@nil Scored) = []).
    { unfold Py.slice_to. destruct (0 <=? max_results)%Z; apply take_nil. }
    destruct reranker; simpl; by rewrite Hs.
Qed.


(** ** Rounding *)

(** [round_half_even] in integers: the result is within a half of the
    argument, and even whenever the argument is exactly a half away. *)
Lemma round_half_even_spec n d :
  let r := round_half_even (n # d) in
  (2 * r * Zpos d - Zpos d <= 2 * n <= 2 * r * Zpos d + Zpos d)%Z /\
  ((2 * n = 2 * r * Zpos d - Zpos d \/ 2 * n = 2 * r * Zpos d + Zpos d)%Z ->
   Z.even r = true).
Proof.
  unfold round_half_even. cbn [Qnum Qden].
  pose proof (Z.div_mod n (Zpos d) ltac:(lia)) as Hdm.
  pose proof (Z.mod_pos_bound n (Zpos d) ltac:(lia)) as Hm.
  set (f := (n / Zpos d)%Z) in *. set (m := (n mod Zpos d)%Z) in *.
  destruct (Z.compare_spec (2 * m) (Zpos d)) as [He | Hl | Hg].
  - destruct (Z.even f) eqn:Hev.
    + split; [nia |]. done.
    + split; [nia |]. intros _. rewrite Z.add_1_r, Z.even_succ, <- Z.negb_even. by rewrite Hev.
  - split; [nia |]. intros [H | H]; nia.
  - split; [nia |]. intros [H | H]; nia.
Qed.

Lemma round_half_even_mono q q' :
  q <= q' -> (round_half_even q <= round_half_even q')%Z.
Proof.
  destruct q as [n d], q' as [n' d']. unfold Qle. cbn [Qnum Qden]. intros Hle.
  destruct (round_half_even_spec n d) as [[Hlo _] Hev].
  destruct (round_half_even_spec n' d') as [[_ Hhi'] Hev'].
  cbv zeta in *.
  set (r := round_half_even (n # d)) in *. set (r' := round_half_even (n' # d')) in *.
  destruct (Z.le_gt_cases r r') as [| Hgt]; [done | exfalso].
  assert (H1 : ((2 * r - 1) * (Zpos d * Zpos d') <= 2 * n * Zpos d')%Z) by nia.
  assert (H2 : (2 * n' * Zpos d <= (2 * r' + 1) * (Zpos d * Zpos d'))%Z) by nia.
  assert (H3 : ((2 * r - 1) * (Zpos d * Zpos d') <= (2 * r' + 1) * (Zpos d * Zpos d'))%Z) by lia.
  assert (Hr : r = (r' + 1)%Z) by nia. 
  assert (E1 : (2 * n = 2 * r * Zpos d - Zpos d)%Z) by nia.
  assert (E2 : (2 * n' = 2 * r' * Zpos d' + Zpos d')%Z) by nia.
  specialize (Hev (or_introl E1)). specialize (Hev' (or_intror E2)).
  rewrite Hr, Z.add_1_r, Z.even_succ, <- Z.negb_even, Hev' in Hev. done.
Qed.

Lemma round_half_even_near q :
  inject_Z (round_half_even q) - (1 # 2) <= q /\ q <= inject_Z (round_half_even q) + (1 # 2).
Proof.
  destruct q as [n d]. destruct (round_half_even_spec n d) as [[Hlo Hhi] _].
  cbv zeta in *. set (r := round_half_even (n # d)) in *.
  unfold Qle, Qminus, Qplus, Qopp, inject_Z. cbn [Qnum Qden]. split; lia.
Qed.

Lemma round3_near q : q - 0.0005 <= round3 q /\ round3 q <= q + 0.0005.
Proof.
  unfold round3. destruct (round_half_even_near (q * 1000)) as [Hlo Hhi].
  set (r := inject_Z (round_half_even (q * 1000))) in *.
  split.
  - apply Qle_shift_div_l; [reflexivity | lra].
  - apply Qle_shift_div_r; [reflexivity | lra].
Qed.

Lemma round3_mono q q' : q <= q' -> round3 q <= round3 q'.
Proof.
  intros Hle. unfold round3. apply Qmult_le_compat_r; [| discriminate].
  rewrite <- Zle_Qle. apply round_half_even_mono. lra.
Qed.

(** X14. Rounding to three decimals moves a score by at most 0.0005 and
    never reverses the order of two scores. *)
Theorem round3_near_and_monotone q q' :
  (q - 0.0005 <= round3 q /\ round3 q <= q + 0.0005) /\
  (q <= q' -> round3 q <= round3 q').
Proof. split; [apply round3_near | apply round3_mono]. Qed.

(** ** Search terms *)





(** ** The entries of [combined_results] *)

Lemma elem_of_update_inv id f (combined : list (string * Candidate)) k c :
  (k, c) ∈ update id f combined ->
  exists c0, (k, c0) ∈ combined /\ c = if decide (k = id) then f c0 else c0.
Proof.
  unfold update. rewrite list_elem_of_In, in_map_iff.
  intros ([k0 c0] & Heq & Hin%list_elem_of_In). simpl in Heq.
  exists c0. destruct (decide (k0 = id)) as [-> | Hne]; injection Heq as <- <-.
  - by rewrite decide_True.
  - by rewrite decide_False.
Qed.

Lemma elem_of_update_2 id f (combined : list (string * Candidate)) k c :
  (k, c) ∈ combined -> (k, if decide (k = id) then f c else c) ∈ update id f combined.
Proof.
  intros Hin. unfold update. apply list_elem_of_In, in_map_iff.
  exists (k, c). split; [| by apply list_elem_of_In]. simpl. by destruct (decide (k = id)).
Qed.



Lemma assoc_Some_elem_of {X} k (l : list (string * X)) x : assoc k l = Some x -> (k, x) ∈ l.
Proof.
  induction l as [| [k' x'] l IH]; simpl; [done |].
  destruct (decide (k' = k)) as [-> | Hne]; [intros [= ->]; left | right; by apply IH].
Qed.

Lemma get_or_create_has id data (combined : list (string * Candidate)) :
  exists c, (id, c) ∈ get_or_create_result id data combined.
Proof.
  unfold get_or_create_result. destruct (assoc id combined) as [c |] eqn:E.
  - exists c. by apply assoc_Some_elem_of.
  - eexists. apply elem_of_app. right. left.
Qed.

Lemma get_or_create_incl id data (combined : list (string * Candidate)) kc :
  kc ∈ combined -> kc ∈ get_or_create_result id data combined.
Proof.
  unfold get_or_create_result. destruct (assoc id combined); [done |].
  intros H. apply elem_of_app. by left.
Qed.



(** What every entry is: the entry created for a node of the graph, with
    its scores set; and unless its node is a semantic hit, its semantic
    score is 0 and its keyword score and matched terms are those of the
    lexical match of a node of that id. *)
Lemma combined_results_shape g hits search_terms :
  Forall (fun kc : string * Candidate =>
            (exists data, (kc.1, data) ∈ nodes g /\
               kc.2 = set_keyword (keyword_score kc.2) (matched_terms kc.2)
                        (set_semantic (semantic_score kc.2) (new_result kc.1 data))) /\
            (kc.1 ∈ hits.*1 \/
             (semantic_score kc.2 = 0 /\
              exists data, (kc.1, data) ∈ nodes g /\
                lexical_match search_terms data =
                Some (keyword_score kc.2, matched_terms kc.2))))
         (combined_results g hits search_terms).
Proof.
  unfold combined_results.
  apply fold_left_Forall with (R := fun nd : string * Attrs => nd ∈ nodes g).
  - intros acc [id data] Hnd Hacc. unfold process_keyword. simpl.
    destruct (lexical_match search_terms data) as [[k curr] |] eqn:Hlex; [| done].
    apply Forall_forall. intros [k' c] (c0 & Hin & Hc)%elem_of_update_inv.
    apply elem_of_get_or_create in Hin. rewrite Forall_forall in Hacc. simpl.
    destruct Hin as [Hin | [-> ->]].
    + apply Hacc in Hin as [(d0 & Hd0 & Hshape) Hkind]. simpl in *.
      destruct (decide (k' = id)) as [-> | Hne]; subst c; [| by eauto].
      split.
      * exists d0. split; [done |]. clear -Hshape. destruct c0.
        unfold set_keyword, set_semantic, new_result in *. simpl in *. congruence.
      * destruct Hkind as [? | [Hs _]]; [by left |]. right. split; [done |]. by exists data.
    + rewrite decide_True in Hc by done. subst c. split.
      * by exists data.
      * right. split; [done |]. by exists data.
  - by apply Forall_forall.
  - apply fold_left_Forall with (R := fun item : string * Q => item.1 ∈ hits.*1); [| | done].
    + intros acc item Hitem Hacc. unfold process_semantic.
      destruct (has_node item.1 g) eqn:Hn; [| done].
      apply Forall_forall. intros [k' c] (c0 & Hin & Hc)%elem_of_update_inv.
      apply elem_of_get_or_create in Hin. rewrite Forall_forall in Hacc. simpl.
      destruct Hin as [Hin | [-> ->]].
      * apply Hacc in Hin as [(d0 & Hd0 & Hshape) Hkind]. simpl in *.
        destruct (decide (k' = item.1)) as [-> | Hne]; subst c; [| by eauto].
        split; [| by left]. exists d0. split; [done |]. clear -Hshape. destruct c0.
        unfold set_keyword, set_semantic, new_result in *. simpl in *. congruence.
      * rewrite decide_True in Hc by done. subst c. split; [| by left].
        exists (default ∅ (node_data item.1 g)). split; [by apply node_data_elem_of | done].
    + apply Forall_forall. intros item Hitem. apply semantic_results_keys.
      by apply list_elem_of_fmap_2.
Qed.

(** ** Results of a query *)

Lemma elem_of_score_all combined r :
  r ∈ score_all combined ->
  exists kc, kc ∈ combined /\ candidate r = kc.2 /\
             relevance_score r = round3 (final_score kc.2).
Proof.
  unfold score_all. rewrite list_elem_of_In, in_map_iff.
  intros (kc & <- & Hin%list_elem_of_In). by exists kc.
Qed.

Lemma elem_of_query g sem_hits search_terms reranker min_confidence max_results results r :
  query g sem_hits search_terms reranker min_confidence max_results = Some results ->
  r ∈ results ->
  r ∈ score_all (combined_results g sem_hits (clean_terms search_terms)).
Proof.
  unfold query. intros Hq Hr.
  set (final := sort_by_relevance _) in Hq.
  assert (Hfinal : forall x, x ∈ final ->
            x ∈ score_all (combined_results g sem_hits (clean_terms search_terms))).
  { intros x Hx. apply elem_of_sorted in Hx. unfold final_list in Hx.
    by apply list_elem_of_filter in Hx as [_ Hx]. }
  apply fmap_Some in Hq as (l & Hl & ->).
  apply elem_of_slice_to in Hr. apply Hfinal.
  destruct reranker as [rerank |]; [destruct final as [| c final'] eqn:E |].
  - by injection Hl as <-.
  - by eapply elem_of_reorder.
  - by injection Hl as <-.
Qed.

(** X16. Every result of a query, reranked or not, is the entry of a node
    of the graph: its text, requirement type, keyword and parent clause
    are read from that node, with the defaults of the endpoint; its
    relevance is the rounded fused score; and unless its node is among the
    semantic hits, its semantic score is 0 and it has a lexical match. *)
Theorem results_describe_graph_nodes g sem_hits search_terms reranker
    min_confidence max_results results :
  query g sem_hits search_terms reranker min_confidence max_results = Some results ->
  forall r, r ∈ results ->
    let c := candidate r in
    relevance_score r = round3 (final_score c) /\
    (exists data, (node_id c, data) ∈ nodes g /\
       text c = default EmptyString (get_str "text" data) /\
       requirement_type c = default "mandatory" (get_str "requirement_type" data) /\
       keyword c = default "shall" (get_str "keyword" data) /\
       parent_clause c = default EmptyString (get_str "parent_clause" data)) /\
    (node_id c ∈ sem_hits.*1 \/
     (semantic_score c = 0 /\
      exists data, (node_id c, data) ∈ nodes g /\
        lexical_match (clean_terms search_terms) data =
        Some (keyword_score c, matched_terms c))).
Proof.
  intros Hq r Hr. pose proof (elem_of_query _ _ _ _ _ _ _ _ Hq Hr) as Hs.
  apply elem_of_score_all in Hs as ([k c] & Hin & Hc & Hrel). simpl in *.
  pose proof (combined_results_shape g sem_hits (clean_terms search_terms)) as Hshape.
  rewrite Forall_forall in Hshape. apply Hshape in Hin as [(data & Hd & Heq) Hkind].
  simpl in *. rewrite Hc. assert (Hid : node_id c = k) by (by rewrite Heq).
  rewrite Hid. split_and!; [done | | done].
  exists data. rewrite Heq. by split_and!.
Qed.

Lemma results_describe_graph_nodes_witness :
  exists r, query (Sample.built_graph Sample.dir_4_2) [] Sample.mechanical_terms None 0.1 1
            = Some [r] /\
    semantic_score (candidate r) = 0 /\ relevance_score r = round3 (final_score (candidate r)).
Proof.
  eexists. split; [by vm_compute |].
  match goal with
  | |- semantic_score (candidate ?r) = _ /\ _ =>
      destruct (results_describe_graph_nodes (Sample.built_graph Sample.dir_4_2) []
                  Sample.mechanical_terms None 0.1 1 [r] ltac:(by vm_compute) r ltac:(left))
        as (Hrel & _ & [Hin | [Hs _]])
  end.
  - by apply elem_of_nil in Hin.
  - split; [exact Hs | exact Hrel].
Defined.






(** X18. Without a reranker the ranking follows the fused scores up to
    the rounding step: a result never stands before one whose fused score
    is more than 0.001 higher. *)
Theorem ranking_follows_fused_scores g sem_hits search_terms min_confidence max_results :
  exists results,
    query g sem_hits search_terms None min_confidence max_results = Some results /\
    forall x y, Py.before results x y ->
      final_score (candidate y) <= final_score (candidate x) + 0.001.
Proof.
  eexists. split; [apply query_without_reranker |].
  intros x y Hb%before_slice_to. unfold sort_by_relevance in Hb.
  assert (Hrel : forall z, z ∈ Py.sorted
                   (fun x y => Qlt_bool (relevance_score y) (relevance_score x))
                   (final_list min_confidence
                      (combined_results g sem_hits (clean_terms search_terms))) ->
                 relevance_score z = round3 (final_score (candidate z))).
  { intros z Hz%elem_of_sorted. unfold final_list in Hz.
    apply list_elem_of_filter in Hz as [_ Hz].
    apply elem_of_score_all in Hz as (kc & _ & -> & Hz). exact Hz. }
  pose proof Hb as (i & j & _ & Hi%list_elem_of_lookup_2 & Hj%list_elem_of_lookup_2).
  apply Hrel in Hi, Hj.
  apply sorted_before in Hb.
  - apply Qlt_bool_false in Hb. rewrite Hi, Hj in Hb.
    destruct (round3_near (final_score (candidate x))) as [_ Hx].
    destruct (round3_near (final_score (candidate y))) as [Hy _]. lra.
  - intros a b Hab%Qlt_bool_true. apply Qlt_bool_false. by apply Qlt_le_weak.
  - intros a b c Hab%Qlt_bool_false Hbc%Qlt_bool_false. apply Qlt_bool_false.
    by apply Qle_trans with (relevance_score b).
Qed.

(** ** Nothing is missed *)

Lemma k_score_pos matches mandatory : (0 < matches)%nat -> 0 < k_score matches mandatory.
Proof.
  intros Hm. unfold k_score.
  assert (Hq : 0 < inject_Z (Z.of_nat matches) / 6).
  { apply Qlt_shift_div_l; [reflexivity |]. change (0 * 6) with (inject_Z 0).
    rewrite <- Zlt_Qlt. lia. }
  set (x := inject_Z (Z.of_nat matches) / 6) in *.
  destruct (py_min_cases 1 x) as [[? ->] | [? ->]]; destruct mandatory; try lra.
  - destruct (py_min_cases 1 (x * 1.2)) as [[? ->] | [? ->]]; lra.
  - destruct (py_min_cases 1 (1 * 1.2)) as [[? ->] | [? ->]]; lra.
Qed.

Lemma fuse_pos_keyword s k : 0 < k -> 0 < fuse s k.
Proof.
  intros Hk. destruct (Qlt_le_dec 0 s) as [Hs | Hs].
  - rewrite fuse_both by done.
    destruct (py_min_cases 1 (0.6 * s + 0.4 * k + 0.1)) as [[? ->] | [? ->]]; lra.
  - rewrite fuse_keyword_only by (done || by apply Qle_not_lt).
    destruct (py_min_cases 1 (k * 0.8)) as [[? ->] | [? ->]]; lra.
Qed.

Lemma lexical_match_pos search_terms data k curr :
  lexical_match search_terms data = Some (k, curr) -> 0 < k.
Proof.
  unfold lexical_match. destruct (negb _); [done |].
  destruct (bool_decide _); [done |].
  destruct (0 <? _)%nat eqn:E; [| done]. intros [= <- _].
  apply k_score_pos. by apply Nat.ltb_lt.
Qed.

Lemma entry_kept id f data (combined : list (string * Candidate)) n c :
  (n, c) ∈ combined -> n <> id ->
  (n, c) ∈ update id f (get_or_create_result id data combined).
Proof.
  intros Hin Hne. apply (get_or_create_incl id data) in Hin.
  apply (elem_of_update_2 id f) in Hin. by rewrite decide_False in Hin.
Qed.

Lemma entry_set id f data (combined : list (string * Candidate)) :
  exists c0, (id, f c0) ∈ update id f (get_or_create_result id data combined).
Proof.
  destruct (get_or_create_has id data combined) as [c0 Hin]. exists c0.
  apply (elem_of_update_2 id f) in Hin. by rewrite decide_True in Hin.
Qed.

Lemma keyword_scan_keeps search_terms l acc n c :
  (n, c) ∈ acc -> n ∉ l.*1 -> (n, c) ∈ fold_left (process_keyword search_terms) l acc.
Proof.
  revert acc. induction l as [| nd l IH]; intros acc Hin Hn; simpl; [done |].
  rewrite fmap_cons, not_elem_of_cons in Hn. destruct Hn as [Hne Hn].
  apply IH; [| done]. unfold process_keyword.
  destruct (lexical_match search_terms nd.2) as [[k curr] |]; [| done]. by apply entry_kept.
Qed.

Lemma keyword_scan_sets search_terms l acc n data k curr :
  NoDup l.*1 -> (n, data) ∈ l -> lexical_match search_terms data = Some (k, curr) ->
  exists c, (n, c) ∈ fold_left (process_keyword search_terms) l acc /\
            keyword_score c = k /\ matched_terms c = curr.
Proof.
  revert acc. induction l as [| nd l IH]; intros acc Hnd Hin Hlex; simpl.
  { by apply elem_of_nil in Hin. }
  rewrite fmap_cons in Hnd. apply NoDup_cons in Hnd as [Hfresh Hnd].
  apply elem_of_cons in Hin as [<- | Hin]; [| by apply IH].
  unfold process_keyword at 2. simpl in *. rewrite Hlex.
  destruct (entry_set n (set_keyword k curr) data acc) as [c0 Hc0].
  exists (set_keyword k curr c0). split; [| done]. by apply keyword_scan_keeps.
Qed.

(** X19. The keyword scan misses nothing: in a graph with distinct node
    ids, every node with a lexical match has an entry in
    [combined_results] carrying the score and the matched terms of that
    match, and the fused score of the entry is positive. *)
Theorem keyword_scan_complete g sem_hits search_terms n data k curr :
  NoDup (node_ids g) -> (n, data) ∈ nodes g ->
  lexical_match (clean_terms search_terms) data = Some (k, curr) ->
  exists c, (n, c) ∈ combined_results g sem_hits (clean_terms search_terms) /\
            keyword_score c = k /\ matched_terms c = curr /\ 0 < final_score c.
Proof.
  intros Hnd Hin Hlex. unfold combined_results.
  destruct (keyword_scan_sets (clean_terms search_terms) (nodes g)
              (fold_left (process_semantic g) (semantic_results sem_hits) [])
              n data k curr Hnd Hin Hlex) as (c & Hc & Hk & Hm).
  exists c. split_and!; [done | done | done |].
  unfold final_score. apply fuse_pos_keyword. rewrite Hk. by eapply lexical_match_pos.
Qed.

Lemma keyword_scan_complete_witness :
  exists c, ("std_4.2::req_0", c) ∈
              combined_results (Sample.built_graph Sample.dir_4_2) []
                               (clean_terms Sample.mechanical_terms) /\
            matched_terms c = ["vibration"] /\ 0 < final_score c.
Proof.
  edestruct (keyword_scan_complete (Sample.built_graph Sample.dir_4_2) []
               Sample.mechanical_terms "std_4.2::req_0"
               (default ∅ (node_data "std_4.2::req_0" (Sample.built_graph Sample.dir_4_2))))
    as (c & Hc & _ & Hm & Hf).
  - apply (bool_decide_unpack _). by vm_compute.
  - apply node_data_elem_of. by vm_compute.
  - vm_compute. reflexivity.
  - exists c. split_and!; [exact Hc | exact Hm | exact Hf].
Defined.

Lemma dict_set_fresh {X} k (v : X) m : k ∉ m.*1 -> dict_set k v m = m ++ [(k, v)].
Proof.
  induction m as [| [k' v'] m IH]; simpl; [done |].
  rewrite not_elem_of_cons. intros [Hne Hk].
  rewrite decide_False by done. by rewrite IH.
Qed.

Lemma semantic_results_distinct hits : NoDup hits.*1 -> semantic_results hits = hits.
Proof.
  unfold semantic_results.
  assert (G : forall (acc : list (string * Q)),
             NoDup (acc ++ hits).*1 ->
             fold_left (fun m hit => dict_set hit.1 hit.2 m) hits acc = acc ++ hits).
  { induction hits as [| [k v] hits IH]; intros acc Hnd; simpl.
    - by rewrite app_nil_r.
    - rewrite dict_set_fresh.
      + rewrite IH; rewrite <- app_assoc; done.
      + rewrite fmap_app, fmap_cons in Hnd. apply NoDup_app in Hnd as (_ & Hd & _).
        intros Hk. apply (Hd k Hk). left. }
  intros Hnd. by apply (G []).
Qed.

Lemma semantic_loop_keeps g l acc n c :
  (n, c) ∈ acc -> n ∉ l.*1 -> (n, c) ∈ fold_left (process_semantic g) l acc.
Proof.
  revert acc. induction l as [| it l IH]; intros acc Hin Hn; simpl; [done |].
  rewrite fmap_cons, not_elem_of_cons in Hn. destruct Hn as [Hne Hn].
  apply IH; [| done]. unfold process_semantic.
  destruct (has_node it.1 g); [| done]. by apply entry_kept.
Qed.

Lemma semantic_loop_sets g l acc n s :
  NoDup l.*1 -> (n, s) ∈ l -> has_node n g = true ->
  exists c, (n, c) ∈ fold_left (process_semantic g) l acc /\ semantic_score c = s.
Proof.
  revert acc. induction l as [| it l IH]; intros acc Hnd Hin Hn; simpl.
  { by apply elem_of_nil in Hin. }
  rewrite fmap_cons in Hnd. apply NoDup_cons in Hnd as [Hfresh Hnd].
  apply elem_of_cons in Hin as [<- | Hin]; [| by apply IH].
  unfold process_semantic at 2. simpl in *. rewrite Hn.
  destruct (entry_set n (set_semantic s) (default ∅ (node_data n g)) acc) as [c0 Hc0].
  exists (set_semantic s c0). split; [| done]. by apply semantic_loop_keeps.
Qed.

Lemma keyword_scan_semantic search_terms l acc n s :
  (exists c, (n, c) ∈ acc /\ semantic_score c = s) ->
  exists c, (n, c) ∈ fold_left (process_keyword search_terms) l acc /\ semantic_score c = s.
Proof.
  revert acc. induction l as [| nd l IH]; intros acc (c & Hin & Hs); simpl; [by exists c |].
  apply IH. unfold process_keyword.
  destruct (lexical_match search_terms nd.2) as [[k curr] |]; [| by exists c].
  apply (get_or_create_incl nd.1 nd.2) in Hin.
  apply (elem_of_update_2 nd.1 (set_keyword k curr)) in Hin.
  eexists. split; [exact Hin |]. by destruct (decide (n = nd.1)).
Qed.

(** X20. Of semantic hits with distinct node ids, each hit on a node of
    the graph has an entry in [combined_results] carrying its score as
    semantic score, whatever the keyword scan does; a hit on an id that is
    not a node of the graph leaves no entry. *)
Theorem semantic_hits_recorded g sem_hits search_terms n s :
  NoDup sem_hits.*1 -> (n, s) ∈ sem_hits ->
  (has_node n g = true ->
   exists c, (n, c) ∈ combined_results g sem_hits search_terms /\ semantic_score c = s) /\
  (has_node n g = false -> n ∉ (combined_results g sem_hits search_terms).*1).
Proof.
  intros Hnd Hin. split.
  - intros Hn. unfold combined_results. apply keyword_scan_semantic.
    rewrite semantic_results_distinct by done. by apply semantic_loop_sets.
  - intros Hn (kc & -> & Hkc)%list_elem_of_fmap.
    pose proof (combined_results_shape g sem_hits search_terms) as Hshape.
    rewrite Forall_forall in Hshape. apply Hshape in Hkc as [(data & Hd & _) _].
    apply (list_elem_of_fmap_2 fst) in Hd. apply has_node_true in Hd. simpl in Hd. congruence.
Qed.

Lemma semantic_hits_recorded_witness :
  (exists c, ("std_4.2::req_1", c) ∈
               combined_results (Sample.built_graph Sample.dir_4_2)
                 [("std_4.2::req_1", 0.3); ("gone", 0.9)] (clean_terms Sample.mechanical_terms) /\
             semantic_score c = 0.3) /\
  "gone" ∉ (combined_results (Sample.built_graph Sample.dir_4_2)
              [("std_4.2::req_1", 0.3); ("gone", 0.9)]
              (clean_terms Sample.mechanical_terms)).*1.
Proof.
  split.
  - apply (semantic_hits_recorded (Sample.built_graph Sample.dir_4_2)
             [("std_4.2::req_1", 0.3); ("gone", 0.9)]).
    + apply (bool_decide_unpack _). by vm_compute.
    + left.
    + by vm_compute.
  - refine (proj2 (semantic_hits_recorded (Sample.built_graph Sample.dir_4_2)
             [("std_4.2::req_1", 0.3); ("gone", 0.9)] _ "gone" 0.9 _ _) _).
    + apply (bool_decide_unpack _). by vm_compute.
    + right. left.
    + by vm_compute.
Defined.

(** ** Reranking *)

Lemma reorder_identity (candidates : list Scored) :
  reorder candidates (seq 0 (length candidates)) = Some candidates.
Proof.
  unfold reorder. apply mapM_Some_2. apply Forall2_same_length_lookup_2.
  - by rewrite length_seq.
  - intros i x y Hx Hy. apply lookup_seq in Hx as [-> _]. exact Hy.
Qed.

(** X21. When the cross-encoder raises, the endpoint returns the results
    in the order of the hybrid ranking: the fallback of [rerank] is the
    identity order. *)
Theorem reranker_failure_keeps_ranking g sem_hits search_terms min_confidence max_results :
  query g sem_hits search_terms (Some (Search.endpoint_reranker (fun _ => None)))
        min_confidence max_results =
  query g sem_hits search_terms None min_confidence max_results.
Proof.
  unfold query. set (final := sort_by_relevance _).
  destruct final as [| c final'] eqn:E; [done |]. rewrite <- E.
  unfold Search.endpoint_reranker, Search.rerank.
  assert (Hl : map (fun c => text (candidate c)) final = text (candidate c) ::
               map (fun c => text (candidate c)) final') by (by rewrite E).
  rewrite Hl. rewrite <- Hl. rewrite Z.min_id, Nat2Z.id, length_map.
  by rewrite reorder_identity.
Qed.

Lemma reorder_Permutation (candidates : list Scored) idx idx' l :
  idx ≡ₚ idx' -> reorder candidates idx = Some l ->
  exists l', reorder candidates idx' = Some l' /\ l ≡ₚ l'.
Proof.
  unfold reorder. intros Hp. revert l.
  induction Hp as [| i idx idx' _ IH | i j idx | idx1 idx2 idx3 _ IH1 _ IH2]; intros l Hl.
  - exists l. by split.
  - simpl in *. destruct (candidates !! i) as [x |]; [| done]. simpl in *.
    destruct (mapM (fun i => candidates !! i) idx) as [k |] eqn:Ek; [| done].
    simpl in Hl. injection Hl as <-.
    destruct (IH k eq_refl) as (k' & -> & Hk). exists (x :: k'). split; [done |].
    by constructor.
  - simpl in *. destruct (candidates !! j) as [y |]; [| done]. simpl in *.
    destruct (candidates !! i) as [x |]; [| done]. simpl in *.
    destruct (mapM (fun i => candidates !! i) idx) as [k |]; [| done].
    simpl in *. injection Hl as <-. exists (x :: y :: k). split; [done |]. apply Permutation_swap.
  - destruct (IH1 l Hl) as (l2 & Hl2 & Hp2). destruct (IH2 l2 Hl2) as (l3 & Hl3 & Hp3).
    exists l3. split; [done |]. by etransitivity.
Qed.

(** X22. A cross-encoder that ranks, returning a permutation of the
    candidate indices as [argsort] does, never makes the request fail, and
    it only reorders: when [max_results] exceeds the number of results, the
    reranked results are a permutation of the results without reranker. *)
Theorem reranking_permutes_results g sem_hits search_terms sorted_indices
    min_confidence max_results :
  (forall texts, exists indices,
      sorted_indices texts = Some indices /\ indices ≡ₚ seq 0 (length texts)) ->
  exists plain reranked,
    query g sem_hits search_terms None min_confidence max_results = Some plain /\
    query g sem_hits search_terms (Some (Search.endpoint_reranker sorted_indices))
          min_confidence max_results = Some reranked /\
    ((Z.of_nat (length plain) < max_results)%Z -> reranked ≡ₚ plain).
Proof.
  intros Hrank. unfold query. set (final := sort_by_relevance _).
  assert (Hre : exists l, reorder final (Search.endpoint_reranker sorted_indices
                            (map (fun c => text (candidate c)) final)) = Some l /\
                          l ≡ₚ final).
  { unfold Search.endpoint_reranker, Search.rerank.
    set (texts := map (fun c => text (candidate c)) final).
    assert (Hlen : length texts = length final) by apply length_map.
    destruct (Hrank texts) as (indices & Hi & Hp). rewrite Hi.
    assert (Hslice : Py.slice_to (Z.of_nat (length texts)) indices = indices).
    { unfold Py.slice_to. rewrite (proj2 (Z.leb_le _ _)) by lia. rewrite Nat2Z.id.
      apply take_ge. apply Permutation_length in Hp. rewrite length_seq in Hp. lia. }
    rewrite Z.min_id, Nat2Z.id, Hslice.
    assert (Hgoal : exists l, reorder final indices = Some l /\ l ≡ₚ final).
    { symmetry in Hp. rewrite Hlen in Hp.
      destruct (reorder_Permutation final _ _ final Hp (reorder_identity final))
        as (l & Hl & Hpl).
      exists l. split; [done | by symmetry]. }
    destruct texts; [| done].
    destruct final; [| done]. simpl. exists []. by split. }
  destruct Hre as (l & Hl & Hpl).
  exists (Py.slice_to max_results final), (Py.slice_to max_results l).
  split_and!.
  - done.
  - destruct final as [| c final'] eqn:E.
    + apply Permutation_nil_r in Hpl. by subst l.
    + by rewrite Hl.
  - intros Hlt. unfold Py.slice_to in *.
    destruct (0 <=? max_results)%Z eqn:E0.
    + apply Z.leb_le in E0. rewrite length_take in Hlt.
      rewrite !take_ge; [done | lia |].
      apply Permutation_length in Hpl. lia.
    + apply Z.leb_gt in E0. lia.
Qed.

Lemma reranking_permutes_results_witness :
  exists plain reranked,
    query (Sample.built_graph Sample.dir_4_2) [("std_4.2::req_1", 0.3)]
          Sample.mechanical_terms None 0.1 10 = Some plain /\
    query (Sample.built_graph Sample.dir_4_2) [("std_4.2::req_1", 0.3)]
          Sample.mechanical_terms
          (Some (Search.endpoint_reranker (fun texts => Some (reverse (seq 0 (length texts))))))
          0.1 10 = Some reranked /\
    ((Z.of_nat (length plain) < 10)%Z -> reranked ≡ₚ plain).
Proof.
  apply (reranking_permutes_results (Sample.built_graph Sample.dir_4_2)
           [("std_4.2::req_1", 0.3)] Sample.mechanical_terms
           (fun texts => Some (reverse (seq 0 (length texts)))) 0.1 10).
  intros texts. eexists. split; [reflexivity | apply reverse_Permutation].
Defined.

End RetrievalExtra.
